(** * vs-base-kits: event emitter, disposable lifecycle and throttler

    A shallow embedding of [src/common/event.ts], [src/common/lifecycle.ts]
    and [src/common/throttler.ts], and the properties of the specification
    that are about them.

    Conventions.
    - JavaScript numbers that the code only uses as integers (listener
      counts, thresholds) are [Z] or [nat].
    - A callback supplied by a client is data: the list of actions its body
      performs on the emitter it is subscribed to (fire again, throw, or do
      something outside the emitter).
    - Everything a client can observe (a push on the delivery queue, a
      listener invocation, a console warning, ...) is appended to a
      chronological [trace]. *)

From Stdlib Require Import List ZArith String Bool Arith Lia.
Import ListNotations.

Set Implicit Arguments.

(** A thrown JavaScript value: some error, or the [MultiDisposeError] of
    [lifecycle.ts], which carries the errors it aggregates. *)
#[warnings="-register-all"]
Inductive Err :=
| Raised (message : string)
| MultiDisposeError (errors : list Err).

(** The result of running code that may throw; [OutOfFuel] is the
    artefact of bounding the recursion of reentrant code. *)
Inductive Outcome (S : Type) : Type :=
| Done (s : S)
| Thrown (err : Err) (s : S)
| OutOfFuel.

Arguments Done {S} s.
Arguments Thrown {S} err s.
Arguments OutOfFuel {S}.

(** ** Sequence Store *)

Module LinkedList.

(** Modelled from the spec: [linkedList.ts] is imported by [event.ts] but
    is not among the sources.  Section 4.1 describes an ordered container
    with append, removal by handle, iteration in insertion order, size,
    emptiness and clear.  The handle returned by [push] is represented by
    a predicate that recognises the pushed item. *)
Definition t (A : Type) := list A.

Definition empty {A} : t A := [].

Definition push {A} (x : A) (l : t A) : t A := l ++ [x].

Definition shift {A} (l : t A) : option (A * t A) :=
  match l with
  | [] => None
  | x :: r => Some (x, r)
  end.

Definition size {A} (l : t A) : nat := List.length l.

Definition isEmpty {A} (l : t A) : bool :=
  match l with [] => true | _ => false end.

Definition clear {A} (l : t A) : t A := [].

Definition remove {A} (is_node : A -> bool) (l : t A) : t A :=
  filter (fun x => negb (is_node x)) l.

Definition toList {A} (l : t A) : list A := l.

End LinkedList.

(** ** LeakageMonitor *)

Module Stacks.

(** [Map<string, number>]: iteration follows insertion order and [set] on
    a present key keeps its position, so an association list. *)
Definition t := list (string * Z).

Fixpoint get (k : string) (m : t) : option Z :=
  match m with
  | [] => None
  | (k', v) :: r => if String.eqb k k' then Some v else get k r
  end.

Fixpoint set (k : string) (v : Z) (m : t) : t :=
  match m with
  | [] => [(k, v)]
  | (k', v') :: r =>
      if String.eqb k k' then (k', v) :: r else (k', v') :: set k v r
  end.

(** [m.get(k) || 0] *)
Definition get_or_0 (k : string) (m : t) : Z :=
  match get k m with Some v => v | None => 0%Z end.

End Stacks.

(** One leak warning: the two [console.warn] calls of [check]. *)
Record Warning := mkWarning {
  warn_listenerCount : Z;
  warn_topCount : Z;
  warn_topStack : option string
}.

(** [_warnCountdown] is set to [threshold * 0.5], so it is a multiple of
    one half; [_warnCountdown2] holds twice its value. *)
Record LeakageMonitor := mkLeakageMonitor {
  customThreshold : option Z;
  _stacks : option Stacks.t;
  _warnCountdown2 : Z
}.

Definition newLeakageMonitor (custom : option Z) : LeakageMonitor :=
  mkLeakageMonitor custom None 0.

(** [!topStack]: undefined and the empty string are both falsy. *)
Definition falsy (s : option string) : bool :=
  match s with
  | None => true
  | Some s => String.eqb s EmptyString
  end.

(** One round of the loop that looks for the most frequent stack. *)
Definition top_step (acc : option string * Z) (entry : string * Z)
  : option string * Z :=
  let '(topStack, topCount) := acc in
  let '(stack, count) := entry in
  if falsy topStack || (topCount <? count)%Z then (Some stack, count) else acc.

Definition top_of (m : Stacks.t) : option string * Z :=
  fold_left top_step m (None, 0%Z).

Definition effective_threshold (global : Z) (custom : option Z) : Z :=
  match custom with
  | Some c => c
  | None => global
  end.

(** [LeakageMonitor.check]: the new monitor, the warning it logged if any,
    and whether it returned a remover (the remover decrements the count of
    [stack]). *)
Definition check (global : Z) (stack : string) (listenerCount : Z)
    (m : LeakageMonitor) : LeakageMonitor * option Warning * bool :=
  let threshold := effective_threshold global (customThreshold m) in
  if (threshold <=? 0)%Z || (listenerCount <? threshold)%Z then
    (m, None, false)
  else
    let stacks0 := match _stacks m with Some s => s | None => [] end in
    let count := Stacks.get_or_0 stack stacks0 in
    let stacks1 := Stacks.set stack (count + 1)%Z stacks0 in
    let countdown := (_warnCountdown2 m - 2)%Z in
    if (countdown <=? 0)%Z then
      let '(topStack, topCount) := top_of stacks1 in
      (mkLeakageMonitor (customThreshold m) (Some stacks1) threshold,
       Some (mkWarning listenerCount topCount topStack), true)
    else
      (mkLeakageMonitor (customThreshold m) (Some stacks1) countdown,
       None, true).

(** The closure returned by [check]. *)
Definition removeMonitor (stack : string) (m : LeakageMonitor)
  : LeakageMonitor :=
  let stacks0 := match _stacks m with Some s => s | None => [] end in
  let count := Stacks.get_or_0 stack stacks0 in
  mkLeakageMonitor (customThreshold m)
    (Some (Stacks.set stack (count - 1)%Z stacks0)) (_warnCountdown2 m).

(** [LeakageMonitor.dispose] *)
Definition disposeMonitor (m : LeakageMonitor) : LeakageMonitor :=
  match _stacks m with
  | Some _ => mkLeakageMonitor (customThreshold m) (Some []) (_warnCountdown2 m)
  | None => m
  end.

(** ** Emitter *)

Inductive Hook :=
| OnFirstListenerAdd
| OnFirstListenerDidAdd
| OnListenerDidAdd
| OnLastListenerRemove.

(** Which hooks are present, and the per-instance threshold.  A hook is
    only observed as having been called.  [_profName] (timing output) is
    left out. *)
Record EmitterOptions := mkOptions {
  onFirstListenerAdd : bool;
  onFirstListenerDidAdd : bool;
  onListenerDidAdd : bool;
  onLastListenerRemove : bool;
  leakWarningThreshold : option Z
}.

Section EmitterModel.

(** [T] is the type of events, [X] of the effects a callback has
    outside the emitter. *)
Variables T X : Type.

(** What the body of a callback does, in order. *)
Inductive Cmd :=
| CFire (w : T)       (* calls [fire(w)] on the emitter it listens to *)
| CThrow (err : Err)  (* throws *)
| CEffect (x : X).    (* anything else *)

Definition Callback := T -> list Cmd.

(** [lid] is the identity of the listener object. *)
Record Listener := mkListener {
  lid : nat;
  callback : Callback;
  stack : option string
}.

Inductive Obs :=
| OPush (l : nat) (e : T)     (* [_deliveryQueue.push([listener, event])] *)
| OInvoke (l : nat) (e : T)   (* [listener.invoke(event)] *)
| OEffect (x : X)
| OHook (h : Hook)
| OWarn (w : Warning).

(** [_cells] are the armed subscription cells ([SafeDisposable]) handed
    out by [event]: the listener, and the stack its monitor remover
    decrements when there is one. *)
Record Emitter := mkEmitter {
  _options : option EmitterOptions;
  _leakageMon : option LeakageMonitor;
  _disposed : bool;
  _deliveryQueue : option (LinkedList.t (Listener * T));
  _listeners : option (LinkedList.t Listener);
  _cells : list (nat * option string);
  nextLid : nat;
  trace : list Obs
}.

Definition set_leakageMon (m : option LeakageMonitor) (em : Emitter) :=
  mkEmitter (_options em) m (_disposed em) (_deliveryQueue em)
    (_listeners em) (_cells em) (nextLid em) (trace em).

Definition set_disposed (b : bool) (em : Emitter) :=
  mkEmitter (_options em) (_leakageMon em) b (_deliveryQueue em)
    (_listeners em) (_cells em) (nextLid em) (trace em).

Definition set_deliveryQueue (q : option (LinkedList.t (Listener * T)))
    (em : Emitter) :=
  mkEmitter (_options em) (_leakageMon em) (_disposed em) q
    (_listeners em) (_cells em) (nextLid em) (trace em).

Definition set_listeners (ls : option (LinkedList.t Listener))
    (em : Emitter) :=
  mkEmitter (_options em) (_leakageMon em) (_disposed em)
    (_deliveryQueue em) ls (_cells em) (nextLid em) (trace em).

Definition set_cells (c : list (nat * option string)) (em : Emitter) :=
  mkEmitter (_options em) (_leakageMon em) (_disposed em)
    (_deliveryQueue em) (_listeners em) c (nextLid em) (trace em).

Definition set_nextLid (n : nat) (em : Emitter) :=
  mkEmitter (_options em) (_leakageMon em) (_disposed em)
    (_deliveryQueue em) (_listeners em) (_cells em) n (trace em).

Definition log (os : list Obs) (em : Emitter) :=
  mkEmitter (_options em) (_leakageMon em) (_disposed em)
    (_deliveryQueue em) (_listeners em) (_cells em) (nextLid em)
    (trace em ++ os).

Definition has_hook (sel : EmitterOptions -> bool) (em : Emitter) : bool :=
  match _options em with
  | Some o => sel o
  | None => false
  end.

Definition call_hook (sel : EmitterOptions -> bool) (h : Hook)
    (em : Emitter) : Emitter :=
  if has_hook sel em then log [OHook h] em else em.

(** [new Emitter(options)], with [_globalLeakWarningThreshold = global]
    at that moment. *)
Definition newEmitter (global : Z) (options : option EmitterOptions)
  : Emitter :=
  mkEmitter options
    (if (0 <? global)%Z then
       Some (newLeakageMonitor
               (match options with
                | Some o => leakWarningThreshold o
                | None => None
                end))
     else None)
    false None None [] 0 [].

Definition listeners_of (em : Emitter) : list Listener :=
  match _listeners em with Some ls => LinkedList.toList ls | None => [] end.

Definition queue_of (em : Emitter) : list (Listener * T) :=
  match _deliveryQueue em with
  | Some q => LinkedList.toList q
  | None => []
  end.

(** The leak check of [event]: with a monitor and at least 30
    listeners, a stack trace is taken at the call site and handed to
    [check].  Returns the stack of the new listener and, when [check]
    returned a remover, the stack that remover decrements. *)
Definition leak_check (global : Z) (site : string) (em : Emitter)
  : Emitter * option string * option string :=
  let size := LinkedList.size (listeners_of em) in
  match _leakageMon em with
  | Some m =>
      if 30 <=? size then
        let '(m', warning, rm) := check global site (Z.of_nat size + 1) m in
        (log (match warning with Some w => [OWarn w] | None => [] end)
             (set_leakageMon (Some m') em),
         Some site,
         if rm then Some site else None)
      else (em, None, None)
  | None => (em, None, None)
  end.

(** The subscription function [emitter.event(callback)] called from the
    call site [site], with [_globalLeakWarningThreshold = global]; the
    handle it returns is the new listener's [lid]. *)
Definition event (global : Z) (cb : Callback) (site : string)
    (em : Emitter) : Emitter * nat :=
  let em :=
    match _listeners em with
    | Some _ => em
    | None => set_listeners (Some LinkedList.empty) em
    end in
  let firstListener := LinkedList.isEmpty (listeners_of em) in
  let em :=
    if firstListener then call_hook onFirstListenerAdd OnFirstListenerAdd em
    else em in
  let '(em, stack, remover) := leak_check global site em in
  let id := nextLid em in
  let listener := mkListener id cb stack in
  let em :=
    set_nextLid (S id)
      (set_listeners (Some (LinkedList.push listener (listeners_of em))) em)
  in
  let em :=
    if firstListener
    then call_hook onFirstListenerDidAdd OnFirstListenerDidAdd em
    else em in
  let em := call_hook onListenerDidAdd OnListenerDidAdd em in
  (set_cells (_cells em ++ [(id, remover)]) em, id).

(** [dispose()] of the handle returned by [event]: the cell runs its
    callback once and disarms. *)
Definition dispose_subscription (handle : nat) (em : Emitter) : Emitter :=
  match find (fun c => fst c =? handle) (_cells em) with
  | None => em
  | Some (_, remover) =>
      let em :=
        set_cells (filter (fun c => negb (fst c =? handle)) (_cells em)) em in
      let em :=
        match remover, _leakageMon em with
        | Some site, Some m =>
            set_leakageMon (Some (removeMonitor site m)) em
        | _, _ => em
        end in
      if _disposed em then em
      else
        let em :=
          set_listeners
            (Some (LinkedList.remove (fun l => lid l =? handle)
                     (listeners_of em))) em in
        if LinkedList.isEmpty (listeners_of em)
        then call_hook onLastListenerRemove OnLastListenerRemove em
        else em
  end.

(** [Emitter.dispose] *)
Definition dispose_emitter (em : Emitter) : Emitter :=
  if _disposed em then em
  else
    let em := set_disposed true em in
    let em :=
      match _listeners em with
      | Some ls => set_listeners (Some (LinkedList.clear ls)) em
      | None => em
      end in
    let em :=
      match _deliveryQueue em with
      | Some q => set_deliveryQueue (Some (LinkedList.clear q)) em
      | None => em
      end in
    let em := call_hook onLastListenerRemove OnLastListenerRemove em in
    set_leakageMon (option_map disposeMonitor (_leakageMon em)) em.

Definition hasListeners (em : Emitter) : bool :=
  match _listeners em with
  | None => false
  | Some ls => negb (LinkedList.isEmpty ls)
  end.

Definition pairs (ls : list Listener) (e : T) : list (Listener * T) :=
  map (fun l => (l, e)) ls.

Definition pushes (ps : list (Listener * T)) : list Obs :=
  map (fun p => OPush (lid (fst p)) (snd p)) ps.

(** The [for] loop of [fire]: every listener is paired with the event
    and pushed on the delivery queue, behind what is already there. *)
Definition enqueue (ls : list Listener) (e : T) (em : Emitter) : Emitter :=
  log (pushes (pairs ls e))
    (set_deliveryQueue (Some (queue_of em ++ pairs ls e)) em).

(** [Emitter.fire], its [while] loop ([drain]) and the body of the
    callback the loop invokes ([run]).  A callback's [CFire] calls [fire]
    again on the same emitter, hence the fuel. *)
Fixpoint fire (fuel : nat) (e : T) (em : Emitter) : Outcome Emitter :=
  match fuel with
  | O => OutOfFuel
  | S fuel =>
      match _listeners em with
      | None => Done em
      | Some ls => drain fuel (enqueue (LinkedList.toList ls) e em)
      end
  end
with drain (fuel : nat) (em : Emitter) : Outcome Emitter :=
  match fuel with
  | O => OutOfFuel
  | S fuel =>
      match LinkedList.shift (queue_of em) with
      | None => Done em
      | Some ((listener, e), rest) =>
          let em := set_deliveryQueue (Some rest) em in
          match run fuel (callback listener e)
                  (log [OInvoke (lid listener) e] em) with
          | Done em => drain fuel em
          | Thrown err em => Thrown err em
          | OutOfFuel => OutOfFuel
          end
      end
  end
with run (fuel : nat) (body : list Cmd) (em : Emitter) : Outcome Emitter :=
  match fuel with
  | O => OutOfFuel
  | S fuel =>
      match body with
      | [] => Done em
      | CFire w :: body =>
          match fire fuel w em with
          | Done em => run fuel body em
          | Thrown err em => Thrown err em
          | OutOfFuel => OutOfFuel
          end
      | CThrow err :: _ => Thrown err em
      | CEffect x :: body => run fuel body (log [OEffect x] em)
      end
  end.

(** Subscribing a list of callbacks, one call site each. *)
Definition subscribe_all (global : Z) (subs : list (Callback * string))
    (em : Emitter) : Emitter :=
  fold_left (fun em s => fst (event global (fst s) (snd s) em)) subs em.

(** *** Reading a trace *)

Definition invocations (tr : list Obs) : list (nat * T) :=
  flat_map (fun o => match o with OInvoke l e => [(l, e)] | _ => [] end) tr.

Definition pushed (tr : list Obs) : list (nat * T) :=
  flat_map (fun o => match o with OPush l e => [(l, e)] | _ => [] end) tr.

Definition warnings (tr : list Obs) : list Warning :=
  flat_map (fun o => match o with OWarn w => [w] | _ => [] end) tr.

Definition is_effect (c : Cmd) : bool :=
  match c with CEffect _ => true | _ => false end.

(** A callback that, on event [e], neither fires nor throws. *)
Definition inert (cb : Callback) (e : T) : Prop :=
  forallb is_effect (cb e) = true.

Definition payload (body : list Cmd) : list X :=
  flat_map (fun c => match c with CEffect x => [x] | _ => [] end) body.

(** What the delivery of one pair to an inert callback adds to the
    trace. *)
Definition delivery (p : Listener * T) : list Obs :=
  OInvoke (lid (fst p)) (snd p)
    :: map OEffect (payload (callback (fst p) (snd p))).

Definition ids (ps : list (Listener * T)) : list (nat * T) :=
  map (fun p => (lid (fst p), snd p)) ps.

(** The delivery queue is first in, first out: the pairs pushed so far
    are those delivered so far followed by those on the queue. *)
Definition fifo (em : Emitter) : Prop :=
  pushed (trace em) = invocations (trace em) ++ ids (queue_of em).

(** Fuel that is enough to deliver [ps] when no callback fires or
    throws. *)
Definition cost (ps : list (Listener * T)) : nat :=
  fold_right
    (fun p n => S (S (List.length (callback (fst p) (snd p)))) + n) 0 ps.

Definition fire_fuel (e : T) (em : Emitter) : nat :=
  S (S (cost (queue_of em ++ pairs (listeners_of em) e))).

End EmitterModel.

Arguments CFire {T X} w.
Arguments CThrow {T X} err.
Arguments CEffect {T X} x.
Arguments OPush {T X} l e.
Arguments OInvoke {T X} l e.
Arguments OEffect {T X} x.
Arguments OHook {T X} h.
Arguments OWarn {T X} w.

(** ** Quantities the leak warnings are stated with *)

(** How often the call site [s] occurs in [sites]. *)
Definition occurrences (s : string) (sites : list string) : Z :=
  Z.of_nat (count_occ string_dec sites s).

(** The least integer not below [t * 0.5]. *)
Definition half_up (t : Z) : Z := ((t + 1) / 2)%Z.

(** The number of the subscription at which the monitor of an emitter
    with threshold [t] first records a call site. *)
Definition first_recorded (t : Z) : Z := Z.max 31 t.

(** The call sites the monitor has recorded when the [k]-th subscription
    has been made, [sites] being the call sites of all subscriptions. *)
Definition recorded (t k : Z) (sites : list string) : list string :=
  skipn (Z.to_nat (first_recorded t - 1)) (firstn (Z.to_nat k) sites).

(** The warning names a call site that is most frequent among those
    recorded when it is logged. *)
Definition names_most_frequent (t : Z) (sites : list string) (wn : Warning)
  : Prop :=
  exists s,
    warn_topStack wn = Some s
    /\ warn_topCount wn =
       occurrences s (recorded t (warn_listenerCount wn) sites)
    /\ forall s',
        (occurrences s' (recorded t (warn_listenerCount wn) sites)
         <= warn_topCount wn)%Z.

(** What [event] does to the monitor and which warning it logs, given the
    number of listeners before the subscription. *)
Definition monitor_after (global : Z) (site : string) (size : nat)
    (mon : option LeakageMonitor) : option LeakageMonitor * list Warning :=
  match mon with
  | Some m =>
      if 30 <=? size then
        let '(m', warning, _) := check global site (Z.of_nat size + 1) m in
        (Some m', match warning with Some w => [w] | None => [] end)
      else (mon, [])
  | None => (None, [])
  end.

(** ** Disposables *)

Module Lifecycle.

(** An [IDisposable] as the sweep sees it: an object ([did] is its
    identity) whose [dispose()] returns or throws. *)
Record Disposable := mkDisposable {
  did : nat;
  failure : option Err
}.

(** The [for] loop of [dispose]: the identities whose [dispose()] was
    called and the errors caught, both in order.  A falsy entry of the
    iterable is skipped. *)
Fixpoint sweep (ds : list (option Disposable)) (attempted : list nat)
    (errors : list Err) : list nat * list Err :=
  match ds with
  | [] => (attempted, errors)
  | None :: ds => sweep ds attempted errors
  | Some d :: ds =>
      match failure d with
      | Some e => sweep ds (attempted ++ [did d]) (errors ++ [e])
      | None => sweep ds (attempted ++ [did d]) errors
      end
  end.

(** Modelled from the spec: [Iterable.is] of [iterator.ts] is not among
    the sources; the argument of [dispose] says itself whether it is one
    disposable (or [undefined]) or an iterable of them. *)
Inductive Arg :=
| One (d : option Disposable)
| Many (ds : list (option Disposable)).

(** [dispose(arg)]; the state of the outcome is the list of resources
    whose [dispose()] was called. *)
Definition dispose (arg : Arg) : Outcome (list nat) :=
  match arg with
  | Many ds =>
      let '(attempted, errors) := sweep ds [] [] in
      match errors with
      | [] => Done attempted
      | [e] => Thrown e attempted
      | _ => Thrown (MultiDisposeError errors) attempted
      end
  | One (Some d) =>
      match failure d with
      | Some e => Thrown e [did d]
      | None => Done [did d]
      end
  | One None => Done []
  end.

(** [_toDispose] is a [Set]: insertion order, no duplicates. *)
Record DisposableStore := mkStore {
  sid : nat;
  _toDispose : list Disposable;
  _isDisposed : bool
}.

Definition newStore (id : nat) : DisposableStore := mkStore id [] false.

(** [DisposableStore.clear]: the sweep, then ([finally]) the set is
    emptied. *)
Definition clear (st : DisposableStore)
  : DisposableStore * Outcome (list nat) :=
  (mkStore (sid st) [] (_isDisposed st),
   dispose (Many (map Some (_toDispose st)))).

(** [DisposableStore.dispose] *)
Definition dispose_store (st : DisposableStore)
  : DisposableStore * Outcome (list nat) :=
  if _isDisposed st then (st, Done [])
  else clear (mkStore (sid st) (_toDispose st) true).

(** [DisposableStore.add]; the boolean tells whether the leak warning
    was printed. *)
Definition add (o : option Disposable) (st : DisposableStore)
  : Outcome (DisposableStore * bool) :=
  match o with
  | None => Done (st, false)
  | Some d =>
      if did d =? sid st then
        Thrown (Raised "Cannot register a disposable on itself!") (st, false)
      else if _isDisposed st then Done (st, true)
      else if existsb (fun d' => did d' =? did d) (_toDispose st)
      then Done (st, false)
      else Done (mkStore (sid st) (_toDispose st ++ [d]) false, false)
  end.

(** The errors of the resources that fail, in order. *)
Definition failures (ds : list (option Disposable)) : list Err :=
  flat_map (fun o =>
              match o with
              | Some d => match failure d with Some e => [e] | None => [] end
              | None => []
              end) ds.

Definition present (ds : list (option Disposable)) : list nat :=
  flat_map (fun o => match o with Some d => [did d] | None => [] end) ds.

End Lifecycle.

(** ** Throttler *)

Module Throttler.

Definition Value := string.

(** The event of [_onPromiseCompleted]. *)
Record Completion := mkCompletion {
  id : nat;
  result : Value
}.

(** What a task factory does when it is called.  It may first call
    [queue] on the throttler it is queued on, any number of times:
    [FQueue inner site rest] calls [queue(inner)] from [site] and goes
    on as [rest].  Then it returns a promise that is still pending (the
    environment settles it later), a promise that is already fulfilled
    (or a plain value), a promise that is already rejected, or it
    throws.  Each call returns a promise of its own. *)
Inductive Factory :=
| FAsync
| FValue (v : Value)
| FReject (e : Err)
| FThrow (e : Err)
| FQueue (inner : Factory) (site : string) (rest : Factory).

(** How the call of a factory ends. *)
Inductive Returned :=
| RPending
| RFulfilled (v : Value)
| RRejected (e : Err)
| RThrew (e : Err).

Inductive PState :=
| Pending
| Fulfilled (v : Value)
| Rejected (e : Err).

Definition settled (r : Value + Err) : PState :=
  match r with
  | inl v => Fulfilled v
  | inr e => Rejected e
  end.

(** What the throttler and its clients do, as it appears in the trace
    of [_onPromiseCompleted] among the emitter's own observations. *)
Inductive Ev :=
| Queued (taskId : nat)               (* [queue] was called *)
| Invoked (taskId : nat)              (* [next.task()] was called *)
| Threw (taskId : nat) (e : Err)      (* ... and threw *)
| Announced (taskId : nat) (v : Value) (* [fire({id, result})] is called *)
| AwaitThrew (taskId : nat) (e : Err) (* the [await] of [run] threw *)
| Resolved (taskId : nat) (v : Value). (* [resolve(e.result)] of the
                                          promise [queue] returned *)

(** The listener of [queue]: [(e) => { if (e.id === taskId)
    resolve(e.result) }]. *)
Definition completion_listener (taskId : nat) : Callback Completion Ev :=
  fun e =>
    if id e =? taskId then [CEffect (Resolved taskId (result e))] else [].

(** The throttler with the part of the JavaScript runtime it lives in.
    A promise returned by a factory is named by the task it belongs to.
    - [uuid]: the number of tokens [generateUuid] has produced;
    - [promises]: the state of each promise a factory returned;
    - [suspended]: the calls of [run] waiting at [await] on a pending
      promise;
    - [jobs]: the microtasks, each the continuation of a call of [run]
      whose promise has settled. *)
Record World := mkWorld {
  activePromise : option nat;
  queuedPromiseFactory : list (nat * Factory);
  _onPromiseCompleted : Emitter Completion Ev;
  uuid : nat;
  promises : list (nat * PState);
  suspended : list nat;
  jobs : list (nat * (Value + Err))
}.

Definition set_active (a : option nat) (w : World) :=
  mkWorld a (queuedPromiseFactory w) (_onPromiseCompleted w) (uuid w)
    (promises w) (suspended w) (jobs w).

Definition set_queued (q : list (nat * Factory)) (w : World) :=
  mkWorld (activePromise w) q (_onPromiseCompleted w) (uuid w)
    (promises w) (suspended w) (jobs w).

Definition set_emitter (em : Emitter Completion Ev) (w : World) :=
  mkWorld (activePromise w) (queuedPromiseFactory w) em (uuid w)
    (promises w) (suspended w) (jobs w).

Definition set_uuid (n : nat) (w : World) :=
  mkWorld (activePromise w) (queuedPromiseFactory w) (_onPromiseCompleted w)
    n (promises w) (suspended w) (jobs w).

Definition set_promises (ps : list (nat * PState)) (w : World) :=
  mkWorld (activePromise w) (queuedPromiseFactory w) (_onPromiseCompleted w)
    (uuid w) ps (suspended w) (jobs w).

Definition set_suspended (s : list nat) (w : World) :=
  mkWorld (activePromise w) (queuedPromiseFactory w) (_onPromiseCompleted w)
    (uuid w) (promises w) s (jobs w).

Definition set_jobs (j : list (nat * (Value + Err))) (w : World) :=
  mkWorld (activePromise w) (queuedPromiseFactory w) (_onPromiseCompleted w)
    (uuid w) (promises w) (suspended w) j.

(** Modelled from the spec: [generateUuid] of [uuid.ts] is not among the
    sources; the spec has it generate a fresh token at each call.  The
    tokens are numbered in the order in which they are generated. *)
Definition generateUuid (w : World) : nat * World :=
  (uuid w, set_uuid (S (uuid w)) w).

(** The history of the throttler is kept in the trace of its emitter. *)
Definition note (evs : list Ev) (w : World) : World :=
  set_emitter (log (map OEffect evs) (_onPromiseCompleted w)) w.

(** [new Throttler()], with [_globalLeakWarningThreshold = global]. *)
Definition init (global : Z) : World :=
  mkWorld None [] (newEmitter Completion Ev global None) 0 [] [] [].

Fixpoint promise_state (p : nat) (ps : list (nat * PState))
  : option PState :=
  match ps with
  | [] => None
  | (p', s) :: ps => if p =? p' then Some s else promise_state p ps
  end.

Fixpoint set_promise (p : nat) (s : PState) (ps : list (nat * PState))
  : list (nat * PState) :=
  match ps with
  | [] => [(p, s)]
  | (p', s') :: ps =>
      if p =? p' then (p', s) :: ps else (p', s') :: set_promise p s ps
  end.

(** [this.activePromise = next.task()] once the call of the factory has
    ended with [r], and the [await] that follows: the marker is written
    after the factory has returned, and not at all if it threw (the call
    of [run] ends there; its own promise rejects, which nobody
    observes). *)
Definition started (next : nat) (r : Returned) (w : World) : World :=
  match r with
  | RThrew e => note [Threw next e] w
  | RPending =>
      set_suspended (suspended w ++ [next])
        (set_promises (set_promise next Pending (promises w))
           (set_active (Some next) w))
  | RFulfilled v =>
      set_jobs (jobs w ++ [(next, inl v)])
        (set_promises (set_promise next (Fulfilled v) (promises w))
           (set_active (Some next) w))
  | RRejected e =>
      set_jobs (jobs w ++ [(next, inr e)])
        (set_promises (set_promise next (Rejected e) (promises w))
           (set_active (Some next) w))
  end.

(** Fuel that is enough for the calls below: a call of [run] calls at
    most the factories that are queued and those they queue. *)
Fixpoint weight (f : Factory) : nat :=
  match f with
  | FQueue inner _ rest => S (weight inner + weight rest)
  | _ => 1
  end.

Definition queued_weight (w : World) : nat :=
  fold_right (fun p n => weight (snd p) + n) 0 (queuedPromiseFactory w).

Definition run_fuel (w : World) : nat := 2 * queued_weight w + 2.

Definition queue_fuel (f : Factory) (w : World) : nat :=
  2 * (weight f + queued_weight w) + 4.

(** [run()] up to its [await] ([run]), the body of a factory ([call])
    and [Throttler.queue(promiseFactory)] called from [site] ([queue];
    the promise it returns is named by the task).  In [run] the head of
    the queue is removed and its factory is called while [activePromise]
    is still [null]; a factory that calls [queue] gets into [run] again,
    hence the fuel.  [None] when the fuel is not enough. *)
Fixpoint run (fuel : nat) (global : Z) (w : World) : option World :=
  match fuel with
  | O => None
  | S fuel =>
      match queuedPromiseFactory w, activePromise w with
      | (next, task) :: rest, None =>
          match call fuel global task
                  (note [Invoked next] (set_queued rest w)) with
          | Some (w, r) => Some (started next r w)
          | None => None
          end
      | _, _ => Some w
      end
  end
with call (fuel : nat) (global : Z) (task : Factory) (w : World)
  : option (World * Returned) :=
  match fuel with
  | O => None
  | S fuel =>
      match task with
      | FAsync => Some (w, RPending)
      | FValue v => Some (w, RFulfilled v)
      | FReject e => Some (w, RRejected e)
      | FThrow e => Some (w, RThrew e)
      | FQueue inner site rest =>
          match queue fuel global inner site w with
          | Some (w, _) => call fuel global rest w
          | None => None
          end
      end
  end
with queue (fuel : nat) (global : Z) (promiseFactory : Factory)
    (site : string) (w : World) : option (World * nat) :=
  match fuel with
  | O => None
  | S fuel =>
      let '(taskId, w) := generateUuid w in
      let w :=
        set_queued (queuedPromiseFactory w ++ [(taskId, promiseFactory)])
          (note [Queued taskId] w) in
      match run fuel global w with
      | Some w =>
          let '(em, _) :=
            event global (completion_listener taskId) site
              (_onPromiseCompleted w) in
          Some (set_emitter em w, taskId)
      | None => None
      end
  end.

(** [run()] from its [await] on, for the task [next] whose promise has
    settled with [r].  [None] when the fuel given to [fire] or to [run]
    is not enough. *)
Definition resume (global : Z) (next : nat) (r : Value + Err) (w : World)
  : option World :=
  match r with
  | inr e => Some (note [AwaitThrew next e] w)
  | inl v =>
      let w := note [Announced next v] (set_active None w) in
      let e := mkCompletion next v in
      let em := _onPromiseCompleted w in
      match fire (fire_fuel e em) e em with
      | Done em => run (run_fuel w) global (set_emitter em w)
      | Thrown _ em => Some (set_emitter em w)
      | OutOfFuel => None
      end
  end.

(** What can happen next to a throttler that is not disposed: a client
    calls [queue], the environment settles a pending promise, or the
    runtime runs the next microtask. *)
Inductive Label :=
| Queue (f : Factory) (site : string)
| Settle (p : nat) (r : Value + Err)
| Tick.

Definition settle (p : nat) (r : Value + Err) (w : World) : option World :=
  match promise_state p (promises w) with
  | Some Pending =>
      let w := set_promises (set_promise p (settled r) (promises w)) w in
      if existsb (Nat.eqb p) (suspended w) then
        Some (set_jobs (jobs w ++ [(p, r)])
                (set_suspended
                   (filter (fun q => negb (q =? p)) (suspended w)) w))
      else Some w
  | _ => None
  end.

Definition step (global : Z) (l : Label) (w : World) : option World :=
  match l with
  | Queue f site => option_map fst (queue (queue_fuel f w) global f site w)
  | Settle p r => settle p r w
  | Tick =>
      match jobs w with
      | [] => None
      | (next, r) :: rest => resume global next r (set_jobs rest w)
      end
  end.

Fixpoint exec (global : Z) (ls : list Label) (w : World) : option World :=
  match ls with
  | [] => Some w
  | l :: ls =>
      match step global l w with
      | Some w => exec global ls w
      | None => None
      end
  end.

Definition reachable (global : Z) (w : World) : Prop :=
  exists ls, exec global ls (init global) = Some w.

(** *** Reading the history *)

Definition history (w : World) : list Ev :=
  flat_map (fun o => match o with OEffect x => [x] | _ => [] end)
    (trace (_onPromiseCompleted w)).

Definition queued_ids (h : list Ev) : list nat :=
  flat_map (fun x => match x with Queued i => [i] | _ => [] end) h.

Definition invoked_ids (h : list Ev) : list nat :=
  flat_map (fun x => match x with Invoked i => [i] | _ => [] end) h.

(** The value the promise returned by [queue] for [taskId] has resolved
    with: that of the first call of its [resolve]. *)
Fixpoint future (taskId : nat) (h : list Ev) : option Value :=
  match h with
  | [] => None
  | Resolved i v :: h => if i =? taskId then Some v else future taskId h
  | _ :: h => future taskId h
  end.

(** A task is executing: its factory returned a promise that has not
    settled. *)
Definition executing (w : World) : bool :=
  existsb (fun p => match snd p with Pending => true | _ => false end)
    (promises w).

(** The factory does not call [queue]. *)
Definition plain (f : Factory) : bool :=
  match f with
  | FQueue _ _ _ => false
  | _ => true
  end.

Definition plain_label (l : Label) : bool :=
  match l with
  | Queue f _ => plain f
  | _ => true
  end.

End Throttler.

(** ** The throttler when no factory calls [queue]

    With factories that do not call [queue], the calls of [run] do not
    nest and need no fuel: [Throttler.run], [Throttler.queue] and
    [Throttler.step] then are the functions below (lemmas [serial_run],
    [serial_queue] and [serial_step]).  They serve in proofs only. *)

Module Serial.

Import Throttler.

(** How the call of a factory ends, the calls of [queue] it makes left
    aside. *)
Fixpoint result_of (f : Factory) : Returned :=
  match f with
  | FAsync => RPending
  | FValue v => RFulfilled v
  | FReject e => RRejected e
  | FThrow e => RThrew e
  | FQueue _ _ rest => result_of rest
  end.

Definition run (w : World) : World :=
  match queuedPromiseFactory w, activePromise w with
  | (next, task) :: rest, None =>
      started next (result_of task)
        (note [Invoked next] (set_queued rest w))
  | _, _ => w
  end.

Definition resume (next : nat) (r : Value + Err) (w : World)
  : option World :=
  match r with
  | inr e => Some (note [AwaitThrew next e] w)
  | inl v =>
      let w := note [Announced next v] (set_active None w) in
      let e := mkCompletion next v in
      let em := _onPromiseCompleted w in
      match fire (fire_fuel e em) e em with
      | Done em => Some (run (set_emitter em w))
      | Thrown _ em => Some (set_emitter em w)
      | OutOfFuel => None
      end
  end.

Definition queue (global : Z) (promiseFactory : Factory) (site : string)
    (w : World) : World * nat :=
  let '(taskId, w) := generateUuid w in
  let w :=
    set_queued (queuedPromiseFactory w ++ [(taskId, promiseFactory)])
      (note [Queued taskId] w) in
  let w := run w in
  let '(em, _) :=
    event global (completion_listener taskId) site (_onPromiseCompleted w) in
  (set_emitter em w, taskId).

Definition step (global : Z) (l : Label) (w : World) : option World :=
  match l with
  | Queue f site => Some (fst (queue global f site w))
  | Settle p r => settle p r w
  | Tick =>
      match jobs w with
      | [] => None
      | (next, r) :: rest => resume next r (set_jobs rest w)
      end
  end.

Fixpoint exec (global : Z) (ls : list Label) (w : World) : option World :=
  match ls with
  | [] => Some w
  | l :: ls =>
      match step global l w with
      | Some w => exec global ls w
      | None => None
      end
  end.

Definition reachable (global : Z) (w : World) : Prop :=
  exists ls, exec global ls (init global) = Some w.

End Serial.

(** ** More of the leak monitor *)

(** [_stacks], empty as long as it is undefined. *)
Definition stacks_of (m : LeakageMonitor) : Stacks.t :=
  match _stacks m with Some s => s | None => [] end.

(** ** More of the emitter *)

Section EmitterMore.

Variables T X : Type.

(** The hooks called, in order. *)
Definition hooks (tr : list (Obs T X)) : list Hook :=
  flat_map (fun o => match o with OHook h => [h] | _ => [] end) tr.

(** Disposing the handles [hs], in that order. *)
Definition dispose_all (hs : list nat) (em : Emitter T X) : Emitter T X :=
  fold_left (fun em h => dispose_subscription h em) hs em.

(** The hooks of [options] that one subscription calls: on an emitter
    without listeners, and on one that has some. *)
Definition first_hooks (o : EmitterOptions) : list Hook :=
  (if onFirstListenerAdd o then [OnFirstListenerAdd] else [])
    ++ (if onFirstListenerDidAdd o then [OnFirstListenerDidAdd] else [])
    ++ (if onListenerDidAdd o then [OnListenerDidAdd] else []).

Definition later_hooks (o : EmitterOptions) : list Hook :=
  if onListenerDidAdd o then [OnListenerDidAdd] else [].

(** The listener was not subscribed under one of the handles [hs]. *)
Definition outside (hs : list nat) (l : Listener T X) : bool :=
  negb (existsb (Nat.eqb (lid l)) hs).

(** The emitter is not disposed and the handles that are armed are those
    of its listeners. *)
Definition live (em : Emitter T X) : Prop :=
  _disposed em = false
  /\ map fst (_cells em) = map (@lid T X) (listeners_of em).

End EmitterMore.

(** ** The global threshold *)

Module GlobalThreshold.

(** [setGlobalLeakWarningThreshold(n)] when [_globalLeakWarningThreshold]
    is [global]: its new value, and the handle returned, which holds the
    old value. *)
Definition setGlobalLeakWarningThreshold (n : Z) (global : Z) : Z * Z :=
  (n, global).

(** [dispose()] of such a handle. *)
Definition restore (handle : Z) (global : Z) : Z := handle.

(** Setting the values [ns] one after the other; the handles are
    returned in the order in which they were created. *)
Fixpoint set_all (ns : list Z) (global : Z) : Z * list Z :=
  match ns with
  | [] => (global, [])
  | n :: ns =>
      let '(global', handle) := setGlobalLeakWarningThreshold n global in
      let '(final, handles) := set_all ns global' in
      (final, handle :: handles)
  end.

Definition restore_all (handles : list Z) (global : Z) : Z :=
  fold_left (fun g h => restore h g) handles global.

End GlobalThreshold.

(** ** More of the disposables *)

Module StoreOps.

Import Lifecycle.

(** The resources whose [dispose()] a call reached. *)
Definition attempted {S : Type} (r : Outcome (list S)) : list S :=
  match r with
  | Done a => a
  | Thrown _ a => a
  | OutOfFuel => []
  end.

(** A call on a store. *)
Inductive Op :=
| OpAdd (o : option Disposable)
| OpClear
| OpDispose.

(** The store after the call and the resources it disposed of. *)
Definition apply (op : Op) (st : DisposableStore)
  : DisposableStore * list nat :=
  match op with
  | OpAdd o =>
      match add o st with
      | Done (st', _) => (st', [])
      | Thrown _ (st', _) => (st', [])
      | OutOfFuel => (st, [])
      end
  | OpClear => (fst (clear st), attempted (snd (clear st)))
  | OpDispose => (fst (dispose_store st), attempted (snd (dispose_store st)))
  end.

(** A sequence of calls: the store at the end and, call by call, the
    resources disposed of. *)
Fixpoint run (ops : list Op) (st : DisposableStore)
  : DisposableStore * list (list nat) :=
  match ops with
  | [] => (st, [])
  | op :: ops =>
      let '(st1, a) := apply op st in
      let '(st2, rest) := run ops st1 in
      (st2, a :: rest)
  end.

(** Adding the resources [ds] one after the other. *)
Definition adding (ds : list Disposable) : list Op :=
  map (fun d => OpAdd (Some d)) ds.

(** The abstract class [Disposable]: an object ([self] is its identity)
    with a store of its own. *)
Record Base := mkBase {
  self : nat;
  _store : DisposableStore
}.

(** [Disposable._register] *)
Definition _register (o : option Disposable) (b : Base) : Outcome Base :=
  if match o with Some d => did d =? self b | None => false end then
    Thrown (Raised "Cannot register a disposable on itself!") b
  else
    match add o (_store b) with
    | Done (st, _) => Done (mkBase (self b) st)
    | Thrown e _ => Thrown e b
    | OutOfFuel => OutOfFuel
    end.

(** [Disposable.dispose] *)
Definition dispose_base (b : Base) : Base * Outcome (list nat) :=
  (mkBase (self b) (fst (dispose_store (_store b))),
   snd (dispose_store (_store b))).

(** Registering [os] one after the other, going on after a call that
    threw. *)
Definition register_all (os : list (option Disposable)) (b : Base) : Base :=
  fold_left
    (fun b o =>
       match _register o b with
       | Done b' => b'
       | Thrown _ b' => b'
       | OutOfFuel => b
       end) os b.

End StoreOps.

Module SafeDisposable.

Section Cell.

(** [F] is the type of the functions given to [set]. *)
Variable F : Type.

(** The variable [callback] that the current [dispose], [unset] and
    [isset] of the object close over; a new object has none. *)
Definition t := option F.

Definition new : t := None.

Definition set (fn : F) (c : t) : t := Some fn.

Definition unset (c : t) : t := None.

Definition isset (c : t) : bool :=
  match c with Some _ => true | None => false end.

(** Whether the call of a function given to [set] throws. *)
Variable throws : F -> bool.

(** [dispose()]: the cell afterwards and the function it called, if
    any.  When the call throws, [callback = undefined] is not reached. *)
Definition dispose (c : t) : t * list F :=
  match c with
  | Some fn => if throws fn then (Some fn, [fn]) else (None, [fn])
  | None => (None, [])
  end.

Inductive Op :=
| OSet (fn : F)
| OUnset
| ODispose.

(** A sequence of calls on a cell: the cell at the end and the functions
    called, in order. *)
Fixpoint run (ops : list Op) (c : t) : t * list F :=
  match ops with
  | [] => (c, [])
  | OSet fn :: ops => run ops (set fn c)
  | OUnset :: ops => run ops (unset c)
  | ODispose :: ops =>
      let '(c1, called) := dispose c in
      let '(c2, rest) := run ops c1 in
      (c2, called ++ rest)
  end.

Definition sets (ops : list Op) : list F :=
  flat_map (fun op => match op with OSet fn => [fn] | _ => [] end) ops.

(** [l1] is [l2] with some elements left out. *)
Inductive Subseq : list F -> list F -> Prop :=
| sub_nil : Subseq [] []
| sub_skip x l1 l2 : Subseq l1 l2 -> Subseq l1 (x :: l2)
| sub_take x l1 l2 : Subseq l1 l2 -> Subseq (x :: l1) (x :: l2).

End Cell.

Arguments OUnset {F}.
Arguments ODispose {F}.

End SafeDisposable.

(** ** Timing *)

Module Profiling.

(** [StopWatch]; a reading of [Date.now()] is an argument. *)
Record StopWatch := mkStopWatch {
  _highResolution : bool;
  _startTime : Z;
  _stopTime : Z
}.

(** [new StopWatch(highResolution)] *)
Definition newStopWatch (highResolution : bool) (now : Z) : StopWatch :=
  mkStopWatch highResolution now (-1).

(** [StopWatch.stop] *)
Definition stop (now : Z) (sw : StopWatch) : StopWatch :=
  mkStopWatch (_highResolution sw) (_startTime sw) now.

(** [StopWatch.elapsed] *)
Definition elapsed (now : Z) (sw : StopWatch) : Z :=
  if negb (_stopTime sw =? -1)%Z then (_stopTime sw - _startTime sw)%Z
  else (now - _startTime sw)%Z.

(** One line of [console.info] of [EventProfiling.stop], without the
    name and the rounding of the numbers. *)
Record Info := mkInfo {
  info_elapsed : Z;
  info_listeners : nat;
  info_overall : Z;
  info_invocations : nat
}.

(** [EventProfiling], without its name. *)
Record EventProfiling := mkProfiling {
  _stopWatch : option StopWatch;
  _listenerCount : nat;
  _invocationCount : nat;
  _elapsedOverall : Z
}.

Definition newProfiling : EventProfiling := mkProfiling None 0 0 0%Z.

(** [EventProfiling.start] *)
Definition start (listenerCount : nat) (now : Z) (p : EventProfiling)
  : EventProfiling :=
  mkProfiling (Some (newStopWatch true now)) listenerCount
    (_invocationCount p) (_elapsedOverall p).

(** [EventProfiling.stop]: the profiler afterwards and what it printed. *)
Definition stopProfiling (now : Z) (p : EventProfiling)
  : EventProfiling * list Info :=
  match _stopWatch p with
  | Some sw =>
      let e := elapsed now sw in
      let overall := (_elapsedOverall p + e)%Z in
      let count := S (_invocationCount p) in
      (mkProfiling None (_listenerCount p) count overall,
       [mkInfo e (_listenerCount p) overall count])
  | None => (p, [])
  end.

Inductive Op :=
| PStart (listenerCount : nat) (now : Z)
| PStop (now : Z).

Definition time_of (op : Op) : Z :=
  match op with
  | PStart _ now => now
  | PStop now => now
  end.

(** A sequence of calls: the profiler at the end and what was printed. *)
Fixpoint run (ops : list Op) (p : EventProfiling)
  : EventProfiling * list Info :=
  match ops with
  | [] => (p, [])
  | PStart n now :: ops => run ops (start n now p)
  | PStop now :: ops =>
      let '(p1, out) := stopProfiling now p in
      let '(p2, rest) := run ops p1 in
      (p2, out ++ rest)
  end.

(** The sum of the elapsed times printed. *)
Definition total (out : list Info) : Z :=
  fold_right Z.add 0%Z (map info_elapsed out).

(** The readings of the clock never go back. *)
Fixpoint monotone (last : Z) (ops : list Op) : Prop :=
  match ops with
  | [] => True
  | op :: ops => (last <= time_of op)%Z /\ monotone (time_of op) ops
  end.

End Profiling.

(** ** More of the throttler *)

Module ThrottlerMore.

Import Throttler.

(** [Throttler.dispose()], that is [Disposable.dispose]: the store of
    the throttler disposes of what was registered, the completion
    emitter. *)
Definition dispose_throttler (w : World) : World :=
  set_emitter (dispose_emitter (_onPromiseCompleted w)) w.

(** The call sites of the calls of [queue] among the steps. *)
Definition queue_sites (ls : list Label) : list string :=
  flat_map (fun l => match l with Queue _ site => [site] | _ => [] end) ls.

Definition is_queue (l : Label) : bool :=
  match l with Queue _ _ => true | _ => false end.

End ThrottlerMore.

(** ** Sample inputs *)

Module Examples.

Open Scope string_scope.

(** Two callbacks that only do something outside the emitter. *)
Definition plain (name : string) : Callback nat string :=
  fun _ => [CEffect name].

Definition two_plain : list (Callback nat string * string) :=
  [(plain "a", "site a"); (plain "b", "site b")].

(** A callback that fires [2] when it receives [1]. *)
Definition refiring : Callback nat string :=
  fun e => if Nat.eqb e 1 then [CFire 2; CEffect "refired"] else [].

Definition reentrant : Emitter nat string :=
  subscribe_all 0 [(refiring, "site r"); (plain "b", "site b")]
    (newEmitter nat string 0 None).

(** A callback that throws when it receives [1]. *)
Definition throwing : Callback nat string :=
  fun e =>
    if Nat.eqb e 1 then [CEffect "before"; CThrow (Raised "boom")]
    else [CEffect "fine"].

Definition l0 := mkListener 0 (plain "a") None.
Definition l1 := mkListener 1 throwing None.
Definition l2 := mkListener 2 (plain "c") None.

Definition with_thrower : Emitter nat string :=
  subscribe_all 0
    [(plain "a", "site a"); (throwing, "site t"); (plain "c", "site c")]
    (newEmitter nat string 0 None).

(** Subscriptions from one call site. *)
Definition same_site (n : nat) : list (Callback nat string * string) :=
  repeat (plain "a", "site a") n.

(** The throttler after the steps [ls]. *)
Definition after (ls : list Throttler.Label) : Throttler.World :=
  match Throttler.exec 0 ls (Throttler.init 0) with
  | Some w => w
  | None => Throttler.init 0
  end.

(** [queue(f1)], [queue(f2)] before the promise of [f1] is fulfilled
    with ["a"]; [f2] returns ["b"]. *)
Definition two_tasks : list Throttler.Label :=
  [Throttler.Queue Throttler.FAsync "site 1";
   Throttler.Queue (Throttler.FValue "b") "site 2";
   Throttler.Settle 0 (inl "a");
   Throttler.Tick;
   Throttler.Tick].

(** [queue(f)] where [f] returns a rejected promise, and the microtask
    that follows. *)
Definition rejecting : list Throttler.Label :=
  [Throttler.Queue (Throttler.FReject (Raised "boom")) "site 1";
   Throttler.Tick].

(** [queue(f1)] where [f1] calls [queue(f2)] and then returns its
    promise; both promises are pending. *)
Definition nesting : list Throttler.Label :=
  [Throttler.Queue
     (Throttler.FQueue Throttler.FAsync "site 2" Throttler.FAsync)
     "site 1"].

(** The promise of [f2] is fulfilled, the microtask runs and a third
    task is queued. *)
Definition then_a_third : list Throttler.Label :=
  [Throttler.Settle 1 (inl "b");
   Throttler.Tick;
   Throttler.Queue Throttler.FAsync "site 3"].

(** [queue(f1)] where [f1] calls [queue(f2)], [f2] returning ["b"], and
    then returns a rejected promise. *)
Definition nesting_rejected : list Throttler.Label :=
  [Throttler.Queue
     (Throttler.FQueue (Throttler.FValue "b") "site 2"
        (Throttler.FReject (Raised "boom")))
     "site 1"].

(** The two microtasks run and a third task is queued. *)
Definition then_unblocked : list Throttler.Label :=
  [Throttler.Tick;
   Throttler.Tick;
   Throttler.Queue (Throttler.FValue "c") "site 3"].

End Examples.

Module MoreExamples.

Open Scope string_scope.

(** The state an outcome ends in. *)
Definition ended_in {S : Type} (o : Outcome S) (otherwise : S) : S :=
  match o with
  | Done s => s
  | Thrown _ s => s
  | OutOfFuel => otherwise
  end.

(** [with_thrower] after [fire(1)], which the second listener aborts:
    the pair of the third listener is left on the queue. *)
Definition aborted : Emitter nat string :=
  ended_in (fire 20 1 Examples.with_thrower) Examples.with_thrower.

Definition all_hooks : EmitterOptions := mkOptions true true true true None.

(** The throttler after the steps [ls], the global threshold being
    [g]. *)
Definition after_g (g : Z) (ls : list Throttler.Label) : Throttler.World :=
  match Throttler.exec g ls (Throttler.init g) with
  | Some w => w
  | None => Throttler.init g
  end.

(** A task is running, a factory that throws and a third task are
    queued behind it; the first task completes. *)
Definition stalled : list Throttler.Label :=
  [Throttler.Queue Throttler.FAsync "site 1";
   Throttler.Queue (Throttler.FThrow (Raised "boom")) "site 2";
   Throttler.Queue (Throttler.FValue "c") "site 3";
   Throttler.Settle 0 (inl "a");
   Throttler.Tick].

(** One task is running. *)
Definition one_running : list Throttler.Label :=
  [Throttler.Queue Throttler.FAsync "site 1"].

(** After the disposal: the task completes, and another is queued and
    completes. *)
Definition then_completes : list Throttler.Label :=
  [Throttler.Settle 0 (inl "a");
   Throttler.Tick;
   Throttler.Queue (Throttler.FValue "b") "site 2";
   Throttler.Tick].

Definition abandoned : Throttler.World :=
  match
    Throttler.exec 0 then_completes
      (ThrottlerMore.dispose_throttler (after_g 0 one_running))
  with
  | Some w => w
  | None => Throttler.init 0
  end.

(** Thirty-one calls of [queue] from one call site. *)
Definition many_queued : list Throttler.Label :=
  repeat (Throttler.Queue (Throttler.FValue "v") "site q") 31.

End MoreExamples.

(** * Properties *)

(** ** The leak monitor *)

Module StacksFacts.

Import Stacks.

Lemma get_set k k' v m :
  get k (set k' v m) = if String.eqb k k' then Some v else get k m.
Proof.
  induction m as [|[k0 v0] m IH]; simpl.
  - destruct (String.eqb k k'); reflexivity.
  - destruct (String.eqb k' k0) eqn:E0; simpl.
    + apply String.eqb_eq in E0. subst k0.
      destruct (String.eqb k k'); reflexivity.
    + rewrite IH. destruct (String.eqb k k') eqn:E; [|reflexivity].
      apply String.eqb_eq in E. subst k. now rewrite E0.
Qed.

Lemma keys_set k v m :
  map fst (set k v m) =
  if existsb (String.eqb k) (map fst m) then map fst m
  else map fst m ++ [k].
Proof.
  induction m as [|[k0 v0] m IH]; simpl; [reflexivity|].
  destruct (String.eqb k k0); simpl; [reflexivity|].
  rewrite IH. now destruct (existsb _ _).
Qed.

Lemma existsb_keys k (ks : list string) :
  existsb (String.eqb k) ks = true <-> In k ks.
Proof.
  rewrite existsb_exists. split.
  - intros (x & Hx & E). apply String.eqb_eq in E. now subst.
  - intros H. exists k. split; [assumption|apply String.eqb_refl].
Qed.

Lemma NoDup_keys_set k v m :
  NoDup (map fst m) -> NoDup (map fst (set k v m)).
Proof.
  intros H. rewrite keys_set.
  destruct (existsb _ _) eqn:E; [assumption|].
  apply NoDup_app; [assumption|repeat constructor; intros []|].
  intros x Hx [<-|[]].
  apply existsb_keys in Hx. congruence.
Qed.

Lemma get_In k v m : get k m = Some v -> In (k, v) m.
Proof.
  induction m as [|[k0 v0] m IH]; simpl; [discriminate|].
  destruct (String.eqb k k0) eqn:E.
  - apply String.eqb_eq in E. intros [= ->]. left. congruence.
  - auto.
Qed.

Lemma In_get k v m : NoDup (map fst m) -> In (k, v) m -> get k m = Some v.
Proof.
  induction m as [|[k0 v0] m IH]; simpl; [tauto|].
  intros Hnd [[= -> ->]|Hin]; [now rewrite String.eqb_refl|].
  inversion Hnd as [|? ? Hk Hnd']; subst.
  destruct (String.eqb k k0) eqn:E; [|auto].
  apply String.eqb_eq in E. subst k0. exfalso. apply Hk.
  now apply (in_map fst) in Hin.
Qed.

(** The loop of [check] returns an entry with the greatest count when
    no recorded stack is the empty string. *)
Lemma top_of_fold m : forall s c,
  s <> EmptyString ->
  Forall (fun p => fst p <> EmptyString) m ->
  exists s' c',
    fold_left top_step m (Some s, c) = (Some s', c')
    /\ s' <> EmptyString
    /\ (c <= c')%Z
    /\ Forall (fun p => (snd p <= c')%Z) m
    /\ ((s', c') = (s, c) \/ In (s', c') m).
Proof.
  induction m as [|[k v] m IH]; intros s c Hs Hm; simpl.
  - exists s, c. repeat split; auto; lia.
  - inversion Hm as [|? ? Hk Hm']; subst. simpl in Hk.
    destruct s as [|a s]; [congruence|]. simpl.
    destruct (c <? v)%Z eqn:E.
    + apply Z.ltb_lt in E.
      destruct (IH k v Hk Hm') as (s' & c' & Hf & Hs' & Hc & Hall & Hin).
      exists s', c'. repeat split; auto; try lia.
      right. destruct Hin as [[= -> ->]|Hin]; auto.
    + apply Z.ltb_ge in E.
      destruct (IH (String a s) c Hs Hm')
        as (s' & c' & Hf & Hs' & Hc & Hall & Hin).
      exists s', c'. repeat split; auto.
      * constructor; [simpl; lia|assumption].
      * destruct Hin as [Hin|Hin]; auto.
    
Qed.

Lemma top_of_max k v m :
  Forall (fun p => fst p <> EmptyString) ((k, v) :: m) ->
  exists s c,
    top_of ((k, v) :: m) = (Some s, c)
    /\ In (s, c) ((k, v) :: m)
    /\ Forall (fun p => (snd p <= c)%Z) ((k, v) :: m).
Proof.
  intros Hm. inversion Hm as [|? ? Hk Hm']; subst. simpl in Hk.
  unfold top_of. simpl.
  destruct (top_of_fold v Hk Hm') as (s & c & Hf & _ & Hc & Hall & Hin).
  exists s, c. repeat split; auto.
  destruct Hin as [[= -> ->]|Hin]; simpl; auto.
Qed.

(** [m] holds, for each call site of [sites], how often it occurs. *)
Definition counts (m : Stacks.t) (sites : list string) : Prop :=
  NoDup (map fst m)
  /\ forall s, get s m =
               if (0 <? occurrences s sites)%Z
               then Some (occurrences s sites) else None.

Lemma occurrences_snoc s sites site :
  occurrences s (sites ++ [site]) =
  (occurrences s sites + if String.eqb s site then 1 else 0)%Z.
Proof.
  unfold occurrences. rewrite count_occ_app. simpl.
  destruct (string_dec site s) as [->|Hne].
  - rewrite String.eqb_refl. lia.
  - destruct (String.eqb s site) eqn:E; [|lia].
    apply String.eqb_eq in E. congruence.
Qed.

Lemma occurrences_nonneg s sites : (0 <= occurrences s sites)%Z.
Proof. unfold occurrences. lia. Qed.

Lemma counts_nil : counts [] [].
Proof. split; [constructor|reflexivity]. Qed.

Lemma counts_record m sites site :
  counts m sites ->
  counts (set site (get_or_0 site m + 1)%Z m) (sites ++ [site]).
Proof.
  intros (Hnd & Hget). split; [now apply NoDup_keys_set|].
  intros s. rewrite get_set, occurrences_snoc.
  pose proof (occurrences_nonneg s sites) as Hs.
  destruct (String.eqb s site) eqn:E.
  - apply String.eqb_eq in E. subst s. unfold get_or_0. rewrite Hget.
    assert (H1 : (0 <? occurrences site sites + 1)%Z = true)
      by (apply Z.ltb_lt; lia).
    rewrite H1.
    destruct (0 <? occurrences site sites)%Z eqn:E1; [reflexivity|].
    apply Z.ltb_ge in E1. f_equal. lia.
  - rewrite Hget, Z.add_0_r. reflexivity.
Qed.

(** The entry the loop of [check] returns for such a map is a most
    frequent call site. *)
Lemma top_of_counts m sites :
  counts m sites ->
  sites <> [] ->
  Forall (fun s => s <> EmptyString) sites ->
  exists s,
    top_of m = (Some s, occurrences s sites)
    /\ forall s', (occurrences s' sites <= occurrences s sites)%Z.
Proof.
  intros (Hnd & Hget) Hne Hsites.
  assert (Hkeys : Forall (fun p => fst p <> EmptyString) m).
  { apply Forall_forall. intros [k v] Hin. simpl.
    apply In_get in Hin; [|exact Hnd]. rewrite Hget in Hin.
    destruct (0 <? occurrences k sites)%Z eqn:E; [|discriminate].
    apply Z.ltb_lt in E. unfold occurrences in E.
    assert (Hk : In k sites) by (apply (count_occ_In string_dec); lia).
    rewrite Forall_forall in Hsites. now apply Hsites. }
  destruct m as [|[k v] m].
  - exfalso. destruct sites as [|s0 sites]; [congruence|].
    specialize (Hget s0). simpl in Hget. unfold occurrences in Hget.
    simpl in Hget. destruct (string_dec s0 s0); [|congruence].
    destruct (0 <? _)%Z eqn:E; [discriminate|].
    apply Z.ltb_ge in E. lia.
  - destruct (top_of_max Hkeys) as (s & c & Htop & Hin & Hall).
    pose proof Hin as Hc. apply In_get in Hc; [|exact Hnd]. rewrite Hget in Hc.
    destruct (0 <? occurrences s sites)%Z eqn:E; [|discriminate].
    injection Hc as <-. exists s. split; [assumption|].
    intros s'. specialize (Hget s').
    destruct (0 <? occurrences s' sites)%Z eqn:E'.
    + apply get_In in Hget. rewrite Forall_forall in Hall.
      apply (Hall _ Hget).
    + apply Z.ltb_ge in E'. apply Z.ltb_lt in E. lia.
Qed.

End StacksFacts.

(** ** The emitter *)

Section EmitterFacts.

Variables T X : Type.

Implicit Types (em : Emitter T X) (e v w : T) (ls : list (Listener T X))
  (q : list (Listener T X * T)) (body : list (Cmd T X)).

Lemma log_nil em : log [] em = em.
Proof. destruct em; unfold log; simpl; now rewrite app_nil_r. Qed.

Lemma log_log (os1 os2 : list (Obs T X)) em :
  log os2 (log os1 em) = log (os1 ++ os2) em.
Proof. unfold log; simpl; now rewrite app_assoc. Qed.

Lemma fire_S fuel e em :
  fire (S fuel) e em =
  match _listeners em with
  | None => Done em
  | Some ls => drain fuel (enqueue (LinkedList.toList ls) e em)
  end.
Proof. reflexivity. Qed.

Lemma drain_S fuel em :
  drain (S fuel) em =
  match LinkedList.shift (queue_of em) with
  | None => Done em
  | Some ((listener, e), rest) =>
      match run fuel (callback listener e)
              (log [OInvoke (lid listener) e]
                 (set_deliveryQueue (Some rest) em)) with
      | Done em => drain fuel em
      | Thrown err em => Thrown err em
      | OutOfFuel => OutOfFuel
      end
  end.
Proof. reflexivity. Qed.

Lemma run_S fuel body em :
  run (S fuel) body em =
  match body with
  | [] => Done em
  | CFire w :: body =>
      match fire fuel w em with
      | Done em => run fuel body em
      | Thrown err em => Thrown err em
      | OutOfFuel => OutOfFuel
      end
  | CThrow err :: _ => Thrown err em
  | CEffect x :: body => run fuel body (log [OEffect x] em)
  end.
Proof. reflexivity. Qed.

(** *** Callbacks that neither fire nor throw *)

Lemma run_inert body : forall fuel em,
  forallb (@is_effect T X) body = true ->
  List.length body < fuel ->
  run fuel body em = Done (log (map OEffect (payload body)) em).
Proof.
  induction body as [|c body IH]; intros fuel em Hin Hf;
    (destruct fuel as [|fuel]; [lia|]); rewrite run_S.
  - now rewrite log_nil.
  - simpl in Hin, Hf. destruct c; try discriminate.
    rewrite IH by (auto; lia). now rewrite log_log.
Qed.

(** A throw after effects only. *)
Lemma run_throws pre : forall err post fuel em,
  List.length pre < fuel ->
  run fuel (map CEffect pre ++ CThrow err :: post) em =
  Thrown err (log (map OEffect pre) em).
Proof.
  induction pre as [|x pre IH]; intros err post fuel em Hf;
    (destruct fuel as [|fuel]; [lia|]); rewrite run_S; simpl.
  - now rewrite log_nil.
  - simpl in Hf. rewrite IH by lia. now rewrite log_log.
Qed.

Definition all_inert q : Prop :=
  Forall (fun p => inert (callback (fst p)) (snd p)) q.

Lemma all_inert_pairs ls e :
  Forall (fun l => inert (callback l) e) ls -> all_inert (pairs ls e).
Proof.
  unfold all_inert, pairs. rewrite Forall_map. now apply Forall_impl.
Qed.

Lemma cost_app q1 q2 : cost (q1 ++ q2) = cost q1 + cost q2.
Proof.
  induction q1 as [|p q1 IH]; simpl; [reflexivity|].
  fold (cost (q1 ++ q2)) (cost q1). rewrite IH. lia.
Qed.

(** The loop of [fire] delivers a queue of inert pairs from head to
    tail and leaves it empty. *)
Lemma drain_inert q : forall fuel em,
  _deliveryQueue em = Some q ->
  all_inert q ->
  cost q < fuel ->
  drain fuel em =
  Done (log (flat_map (@delivery T X) q) (set_deliveryQueue (Some []) em)).
Proof.
  induction q as [|[l e] q IH]; intros fuel em Hq Hin Hf;
    (destruct fuel as [|fuel]; [lia|]); rewrite drain_S;
    unfold queue_of; rewrite Hq; simpl.
  - rewrite log_nil. destruct em; simpl in *; now subst.
  - inversion Hin as [|? ? Hl Hrest]; subst. simpl in Hl, Hf.
    fold (cost q) in Hf.
    rewrite run_inert by (auto; lia). rewrite log_log.
    erewrite IH; [|reflexivity|assumption|lia].
    unfold log, set_deliveryQueue, delivery; simpl.
    now rewrite <- !app_assoc.
Qed.

(** *** Subscribing *)

Lemma call_hook_log sel h em :
  call_hook sel h em = log (if has_hook sel em then [OHook h] else []) em.
Proof. unfold call_hook. destruct (has_hook sel em); now rewrite ?log_nil. Qed.

(** The leak check changes the monitor and the trace only. *)
Lemma leak_check_fields g site em :
  let em' := fst (fst (leak_check g site em)) in
  _listeners em' = _listeners em
  /\ _deliveryQueue em' = _deliveryQueue em
  /\ nextLid em' = nextLid em
  /\ _cells em' = _cells em
  /\ _options em' = _options em
  /\ _disposed em' = _disposed em.
Proof.
  unfold leak_check. destruct (_leakageMon em) as [m|]; [|now simpl].
  destruct (30 <=? _); [|now simpl].
  destruct (check _ _ _ _) as [[m' wn] rm]. now simpl.
Qed.

(** [event] appends one listener with a fresh identity and does not
    touch the delivery queue. *)
Lemma event_fields g (cb : Callback T X) site em :
  let em' := fst (event g cb site em) in
  (exists stk,
      _listeners em' =
      Some (listeners_of em ++ [mkListener (nextLid em) cb stk]))
  /\ _deliveryQueue em' = _deliveryQueue em
  /\ nextLid em' = S (nextLid em)
  /\ (exists r, _cells em' = _cells em ++ [(nextLid em, r)]).
Proof.
  unfold event. rewrite !call_hook_log.
  unfold listeners_of, LinkedList.toList.
  destruct (_listeners em) as [l0|] eqn:El; simpl; rewrite ?El;
    [destruct l0|]; simpl;
    match goal with
    | |- context [leak_check g site ?x] =>
        pose proof (leak_check_fields g site x) as H;
        destruct (leak_check g site x) as [[em1 stk] rm]
    end;
    simpl in H; destruct H as (Hl & Hq & Hn & Hc & _);
    rewrite ?call_hook_log; simpl; rewrite ?Hl, ?Hq, ?Hn, ?Hc, ?El;
    unfold LinkedList.push, LinkedList.empty; simpl; repeat split; eauto.
Qed.

(** [event] changes neither [_disposed] nor the options. *)
Lemma event_frame g (cb : Callback T X) site em :
  _disposed (fst (event g cb site em)) = _disposed em
  /\ _options (fst (event g cb site em)) = _options em.
Proof.
  unfold event. rewrite !call_hook_log.
  unfold listeners_of, LinkedList.toList.
  destruct (_listeners em) as [l0|] eqn:El; simpl; rewrite ?El;
    [destruct l0|]; simpl;
    match goal with
    | |- context [leak_check g site ?x] =>
        pose proof (leak_check_fields g site x) as H;
        destruct (leak_check g site x) as [[em1 stk] rm]
    end;
    simpl in H; destruct H as (_ & _ & _ & _ & Ho & Hd);
    rewrite ?call_hook_log; simpl; rewrite ?Ho, ?Hd; auto.
Qed.

(** What subscribing adds to the trace: hooks and leak warnings. *)
Definition quiet (os : list (Obs T X)) : Prop :=
  Forall (fun o => match o with OHook _ | OWarn _ => True | _ => False end)
    os.

Lemma quiet_app os1 os2 : quiet os1 -> quiet os2 -> quiet (os1 ++ os2).
Proof. unfold quiet. rewrite Forall_app. auto. Qed.

Lemma quiet_invocations os : quiet os -> invocations os = [].
Proof.
  induction 1 as [|o os Ho _ IH]; [reflexivity|].
  destruct o; simpl in *; tauto.
Qed.

Lemma quiet_pushed os : quiet os -> pushed os = [].
Proof.
  induction 1 as [|o os Ho _ IH]; [reflexivity|].
  destruct o; simpl in *; tauto.
Qed.

Lemma leak_check_trace g site em :
  exists os,
    trace (fst (fst (leak_check g site em))) = trace em ++ os /\ quiet os.
Proof.
  unfold leak_check. destruct (_leakageMon em) as [m|].
  - destruct (30 <=? _).
    + destruct (check _ _ _ _) as [[m' [wn|]] rm]; simpl; eexists;
        (split; [reflexivity|]); repeat constructor.
    + exists []. split; [simpl; now rewrite app_nil_r|constructor].
  - exists []. split; [simpl; now rewrite app_nil_r|constructor].
Qed.

Lemma hook_quiet (b : bool) h : quiet (if b then [OHook h] else []).
Proof. destruct b; repeat constructor. Qed.

Lemma event_trace g (cb : Callback T X) site em :
  exists os, trace (fst (event g cb site em)) = trace em ++ os /\ quiet os.
Proof.
  unfold event. rewrite !call_hook_log.
  unfold listeners_of, LinkedList.toList.
  destruct (_listeners em) as [l0|] eqn:El; simpl; rewrite ?El;
    [destruct l0|]; simpl;
    match goal with
    | |- context [leak_check g site ?x] =>
        destruct (leak_check_trace g site x) as (os & Hos & Hq);
        destruct (leak_check g site x) as [[em1 stk] rm]
    end;
    simpl in Hos; rewrite ?call_hook_log; simpl; rewrite Hos, <- ?app_assoc;
    eexists; (split; [reflexivity|]);
    repeat apply quiet_app; auto using hook_quiet.
Qed.

Lemma subscribe_all_fields g (subs : list (Callback T X * string)) :
  forall em,
    let em' := subscribe_all g subs em in
    exists new os,
      listeners_of em' = listeners_of em ++ new
      /\ map (@lid T X) new = seq (nextLid em) (List.length subs)
      /\ map (@callback T X) new = map fst subs
      /\ _deliveryQueue em' = _deliveryQueue em
      /\ trace em' = trace em ++ os /\ quiet os
      /\ (subs <> [] -> _listeners em' <> None).
Proof.
  induction subs as [|[cb site] subs IH]; intros em; simpl.
  - exists [], []. repeat split; rewrite ?app_nil_r; try constructor.
    congruence.
  - destruct (event_fields g cb site em) as ((stk & Hl) & Hq & Hn & _).
    destruct (event_trace g cb site em) as (os1 & Ht1 & Hq1).
    destruct (IH (fst (event g cb site em)))
      as (new & os & Hl' & Hid & Hcb & Hq' & Ht & Hqu & Hsome).
    unfold subscribe_all in *. simpl.
    assert (Hlo : listeners_of (fst (event g cb site em)) =
                  listeners_of em ++ [mkListener (nextLid em) cb stk])
      by (unfold listeners_of at 1; now rewrite Hl).
    exists (mkListener (nextLid em) cb stk :: new), (os1 ++ os).
    assert (Hne : _listeners
                    (fold_left
                       (fun em0 s => fst (event g (fst s) (snd s) em0))
                       subs (fst (event g cb site em))) <> None).
    { destruct subs as [|s subs]; [simpl; congruence|].
      apply Hsome. discriminate. }
    rewrite Hl', Hlo, Hq', Hq, Ht, Ht1, <- !app_assoc. simpl.
    rewrite Hid, Hcb, Hn.
    repeat split; auto using quiet_app.
Qed.

Lemma listeners_of_some em :
  _listeners em <> None -> _listeners em = Some (listeners_of em).
Proof.
  unfold listeners_of. destruct (_listeners em); [reflexivity|congruence].
Qed.

(** *** Delivery *)

Lemma invocations_app (a b : list (Obs T X)) :
  invocations (a ++ b) = invocations a ++ invocations b.
Proof. apply flat_map_app. Qed.

Lemma pushed_app (a b : list (Obs T X)) :
  pushed (a ++ b) = pushed a ++ pushed b.
Proof. apply flat_map_app. Qed.

Lemma pushed_pushes q : pushed (pushes q) = ids q.
Proof. induction q; simpl; congruence. Qed.

Lemma invocations_pushes q : invocations (pushes q) = [].
Proof. induction q; simpl; congruence. Qed.

Lemma invocations_effects (xs : list X) :
  invocations (map (@OEffect T X) xs) = [].
Proof. induction xs; simpl; congruence. Qed.

Lemma pushed_effects (xs : list X) : pushed (map (@OEffect T X) xs) = [].
Proof. induction xs; simpl; congruence. Qed.

Lemma invocations_delivery q :
  invocations (flat_map (@delivery T X) q) = ids q.
Proof.
  induction q as [|p q IH]; simpl; [reflexivity|].
  now rewrite invocations_app, invocations_effects, IH.
Qed.

Lemma pushed_delivery q : pushed (flat_map (@delivery T X) q) = [].
Proof.
  induction q as [|p q IH]; simpl; [reflexivity|].
  now rewrite pushed_app, pushed_effects, IH.
Qed.

Lemma ids_app q1 q2 : ids (q1 ++ q2) = ids q1 ++ ids q2.
Proof. apply map_app. Qed.

Lemma ids_pairs ls e : ids (pairs ls e) = map (fun l => (lid l, e)) ls.
Proof. unfold ids, pairs. rewrite map_map. reflexivity. Qed.

(** [fire] when nothing on the queue and no listener fires or throws:
    the new pairs go behind the queued ones and all are delivered from
    the head. *)
Lemma fire_inert em ls e fuel :
  _listeners em = Some ls ->
  all_inert (queue_of em ++ pairs ls e) ->
  fire_fuel e em <= fuel ->
  fire fuel e em =
  Done (log (pushes (pairs ls e)
               ++ flat_map (@delivery T X) (queue_of em ++ pairs ls e))
          (set_deliveryQueue (Some []) em)).
Proof.
  intros Hl Hin Hf. unfold fire_fuel, listeners_of in Hf. rewrite Hl in Hf.
  destruct fuel as [|fuel]; [lia|]. rewrite fire_S, Hl.
  erewrite drain_inert; [|reflexivity|exact Hin|unfold LinkedList.toList in *; lia].
  unfold enqueue, log, set_deliveryQueue; simpl. now rewrite app_assoc.
Qed.

(** The loop of [fire] when the first callback that does not simply
    return throws: the pairs behind it stay on the queue. *)
Lemma drain_throws q1 : forall l e q2 pre err post fuel em,
  _deliveryQueue em = Some (q1 ++ (l, e) :: q2) ->
  all_inert q1 ->
  callback l e = map CEffect pre ++ CThrow err :: post ->
  cost (q1 ++ (l, e) :: q2) < fuel ->
  drain fuel em =
  Thrown err
    (log (flat_map (@delivery T X) q1
            ++ OInvoke (lid l) e :: map OEffect pre)
       (set_deliveryQueue (Some q2) em)).
Proof.
  induction q1 as [|[l1 e1] q1 IH]; intros l e q2 pre err post fuel em
    Hq Hin Hcb Hf; (destruct fuel as [|fuel]; [lia|]); rewrite drain_S;
    unfold queue_of; rewrite Hq; simpl in *.
  - rewrite Hcb in *. rewrite length_app, length_map in Hf. simpl in Hf.
    rewrite run_throws by lia. now rewrite log_log.
  - inversion Hin as [|? ? Hl Hrest]; subst. simpl in Hl.
    fold (cost (q1 ++ (l, e) :: q2)) in Hf.
    rewrite run_inert by (auto; lia).
    erewrite IH; [|reflexivity|assumption|eassumption|lia].
    unfold log, set_deliveryQueue, delivery; simpl.
    now rewrite <- !app_assoc.
Qed.

(** *** The delivery queue is first in, first out *)

Definition fifo_after (emptied : Prop) (o : Outcome (Emitter T X)) : Prop :=
  match o with
  | Done em' => fifo em' /\ (emptied -> queue_of em' = [])
  | Thrown _ em' => fifo em'
  | OutOfFuel => True
  end.

Lemma fifo_enqueue ls e em : fifo em -> fifo (enqueue ls e em).
Proof.
  unfold fifo, enqueue; intros H. cbn [trace log queue_of set_deliveryQueue
    _deliveryQueue LinkedList.toList].
  rewrite pushed_app, invocations_app, pushed_pushes, invocations_pushes.
  unfold LinkedList.toList.
  rewrite H, ids_app, app_nil_r. now rewrite app_assoc.
Qed.

Lemma fifo_preserved fuel :
  (forall e em, fifo em -> fifo_after (_listeners em <> None) (fire fuel e em))
  /\ (forall em, fifo em -> fifo_after True (drain fuel em))
  /\ (forall body em, fifo em -> fifo_after False (run fuel body em)).
Proof.
  induction fuel as [|fuel (IHf & IHd & IHr)]; [now repeat split|].
  repeat split.
  - intros e em H. rewrite fire_S. destruct (_listeners em) as [ls|].
    + specialize (IHd _ (fifo_enqueue (LinkedList.toList ls) e H)).
      destruct (drain _ _); simpl in *; tauto.
    + simpl. tauto.
  - intros em H. rewrite drain_S.
    destruct (queue_of em) as [|[l e] rest] eqn:Eq; simpl; [tauto|].
    match goal with
    | |- context [run fuel ?b ?x] =>
        assert (Hx : fifo x); [|specialize (IHr b x Hx)]
    end.
    { unfold fifo in *; simpl. rewrite Eq in H. simpl in H.
      rewrite invocations_app, pushed_app; simpl.
      rewrite app_nil_r, H, <- app_assoc. reflexivity. }
    destruct (run _ _ _) as [em1|err em1|]; simpl in *; auto.
    apply IHd. tauto.
  - intros body em H. rewrite run_S.
    destruct body as [|[w|err|x] body]; simpl; auto; try tauto.
    + specialize (IHf w em H).
      destruct (fire _ _ _) as [em1|err em1|]; simpl in *; auto.
      apply IHr. tauto.
    + apply IHr. unfold fifo in *; simpl.
      rewrite invocations_app, pushed_app; simpl. now rewrite !app_nil_r.
Qed.

Lemma inert_listeners (subs : list (Callback T X * string)) ls v :
  map (@callback T X) ls = map fst subs ->
  Forall (fun s => inert (fst s) v) subs ->
  Forall (fun l => inert (callback l) v) ls.
Proof.
  intros Hcb Hin.
  apply (Forall_map (@callback T X) (fun cb => inert cb v)).
  rewrite Hcb. now apply Forall_map.
Qed.

(** C1. [fire(v)] on an emitter with N listeners and nothing left on
    its delivery queue, and in particular after N subscriptions on a new
    emitter, invokes each of the N callbacks exactly once, with [v], in
    subscription order (the callbacks being ones that return without
    firing the emitter again). *)
Theorem fire_invokes_each_listener_once_in_order :
  (forall (em : Emitter T X) ls v fuel,
      _listeners em = Some ls ->
      queue_of em = [] ->
      Forall (fun l => inert (callback l) v) ls ->
      fire_fuel v em <= fuel ->
      exists em',
        fire fuel v em = Done em'
        /\ trace em' =
           trace em ++ pushes (pairs ls v)
             ++ flat_map (@delivery T X) (pairs ls v)
        /\ invocations (trace em') =
           invocations (trace em) ++ map (fun l => (lid l, v)) ls)
  /\ (forall g options (subs : list (Callback T X * string)) v fuel,
        Forall (fun s => inert (fst s) v) subs ->
        let em := subscribe_all g subs (newEmitter T X g options) in
        fire_fuel v em <= fuel ->
        exists em' ls,
          listeners_of em = ls
          /\ map (@lid T X) ls = seq 0 (List.length subs)
          /\ map (@callback T X) ls = map fst subs
          /\ fire fuel v em = Done em'
          /\ trace em' =
             trace em ++ pushes (pairs ls v)
               ++ flat_map (@delivery T X) (pairs ls v)
          /\ invocations (trace em') =
             map (fun i => (i, v)) (seq 0 (List.length subs))).
Proof.
  split.
  { intros em ls v fuel Hl Hq Hin Hf. eexists. split.
    - apply fire_inert with (ls := ls); auto. rewrite Hq.
      now apply all_inert_pairs.
    - cbn [trace log set_deliveryQueue]. rewrite Hq. cbn [app].
      split; [reflexivity|].
      rewrite !invocations_app, invocations_pushes, invocations_delivery.
      now rewrite ids_pairs. }
  intros g options subs v fuel Hin em Hf.
  destruct (subscribe_all_fields g subs (newEmitter T X g options))
    as (ls & os & Hl & Hid & Hcb & Hq & Ht & Hqu & Hsome).
  fold em in Hl, Hq, Ht, Hsome. simpl in Hl, Hid, Hq, Ht.
  assert (Hq0 : queue_of em = []) by (unfold queue_of; now rewrite Hq).
  assert (Hinv : invocations (trace em) = [])
    by (rewrite Ht; now apply quiet_invocations).
  destruct subs as [|s subs].
  - destruct ls; [|discriminate]. exists em, [].
    destruct fuel as [|fuel]; [unfold fire_fuel in Hf; lia|].
    repeat split; auto; simpl; now rewrite ?app_nil_r.
  - specialize (Hsome ltac:(discriminate)).
    apply listeners_of_some in Hsome. rewrite Hl in Hsome.
    eexists; exists ls. repeat split; auto.
    + apply fire_inert with (ls := ls); auto. rewrite Hq0. simpl.
      apply all_inert_pairs. eapply inert_listeners; eauto.
    + simpl. now rewrite Hq0.
    + cbn [trace log set_deliveryQueue].
      rewrite Hq0, !invocations_app, Hinv, invocations_pushes.
      rewrite !app_nil_l, invocations_delivery, ids_pairs, <- Hid, map_map.
      reflexivity.
Qed.

(** C2. A callback that calls [fire] while it is being invoked pushes
    the pairs of the nested event on the queue the outer call is
    delivering from, behind the pairs not delivered yet, and delivery
    goes on from the head of that queue; when the outer [fire] returns
    the queue is empty and every pair pushed, by it or by a nested call,
    has been delivered in the order pushed. *)
Theorem nested_fire_joins_the_shared_queue :
  (forall fuel w body (st : Emitter T X) ls,
      _listeners st = Some ls ->
      queue_of (enqueue ls w st) = queue_of st ++ pairs ls w
      /\ run (S (S fuel)) (CFire w :: body) st =
         match drain fuel (enqueue ls w st) with
         | Done st' => run (S fuel) body st'
         | Thrown err st' => Thrown err st'
         | OutOfFuel => OutOfFuel
         end)
  /\ (forall fuel v (em em' : Emitter T X),
        fifo em ->
        _listeners em <> None ->
        fire fuel v em = Done em' ->
        queue_of em' = []
        /\ invocations (trace em') = pushed (trace em')).
Proof.
  split.
  - intros fuel w body st ls Hl. split; [reflexivity|].
    rewrite run_S, fire_S, Hl. reflexivity.
  - intros fuel v em em' Hfifo Hl Hfire.
    destruct (fifo_preserved fuel) as (Hf & _).
    specialize (Hf v em Hfifo). rewrite Hfire in Hf.
    destruct Hf as (Hf & Hq). specialize (Hq Hl). split; [exact Hq|].
    unfold fifo in Hf. rewrite Hq in Hf. simpl in Hf.
    now rewrite app_nil_r in Hf.
Qed.

(** [fire] on an emitter with nothing queued, where the first listener
    that does not simply return throws after effects only. *)
Lemma fire_throws (em : Emitter T X) before bad after v pre err post fuel :
  _listeners em = Some (before ++ bad :: after) ->
  queue_of em = [] ->
  Forall (fun l => inert (callback l) v) before ->
  callback bad v = map CEffect pre ++ CThrow err :: post ->
  fire_fuel v em <= fuel ->
  exists em',
    fire fuel v em = Thrown err em'
    /\ invocations (trace em') =
       invocations (trace em) ++ ids (pairs (before ++ [bad]) v)
    /\ queue_of em' = pairs after v
    /\ _listeners em' = _listeners em.
Proof.
  intros Hl Hq Hin Hcb Hf.
  assert (Hp : forall l1 l2 : list (Listener T X),
             pairs (l1 ++ l2) v = pairs l1 v ++ pairs l2 v)
    by (intros; apply map_app).
  unfold fire_fuel, listeners_of in Hf. rewrite Hl, Hq in Hf.
  unfold LinkedList.toList in Hf. simpl in Hf.
  destruct fuel as [|fuel]; [lia|]. rewrite fire_S, Hl.
  unfold LinkedList.toList. rewrite Hp in *.
  change (pairs (bad :: after) v) with ((bad, v) :: pairs after v) in *.
  eexists. split.
  - eapply drain_throws with (q2 := pairs after v);
      [|apply all_inert_pairs; eassumption|eassumption|].
    + unfold enqueue. cbn [_deliveryQueue set_deliveryQueue log].
      rewrite Hq, Hp. reflexivity.
    + lia.
  - cbn [trace log set_deliveryQueue enqueue].
    rewrite !invocations_app, invocations_pushes, invocations_delivery.
    simpl. rewrite invocations_effects, ids_app, app_nil_r.
    repeat split; auto.
Qed.

(** C3. When a callback throws, [fire] throws the same value at once:
    the loop stops in the state the callback threw in, so nothing is
    caught or retried; the pairs that were pushed and not delivered are
    exactly those left on the queue; and when the listeners before the
    failing one simply return, the invocations are theirs and the failing
    one's, once each, and the pairs of the listeners behind it are not
    delivered by that call. *)
Theorem listener_exception_aborts_fire :
  (forall fuel (em : Emitter T X) l e rest err st,
      queue_of em = (l, e) :: rest ->
      run fuel (callback l e)
        (log [OInvoke (lid l) e] (set_deliveryQueue (Some rest) em))
      = Thrown err st ->
      drain (S fuel) em = Thrown err st)
  /\ (forall fuel v (em : Emitter T X) err em',
        fifo em ->
        fire fuel v em = Thrown err em' ->
        pushed (trace em') = invocations (trace em') ++ ids (queue_of em'))
  /\ (forall (em : Emitter T X) before bad after v pre err post fuel,
        _listeners em = Some (before ++ bad :: after) ->
        queue_of em = [] ->
        Forall (fun l => inert (callback l) v) before ->
        callback bad v = map CEffect pre ++ CThrow err :: post ->
        fire_fuel v em <= fuel ->
        exists em',
          fire fuel v em = Thrown err em'
          /\ invocations (trace em') =
             invocations (trace em) ++ ids (pairs (before ++ [bad]) v)
          /\ queue_of em' = pairs after v
          /\ _listeners em' = _listeners em).
Proof.
  split; [|split].
  - intros fuel em l e rest err st Hq Hrun.
    rewrite drain_S, Hq. cbn [LinkedList.shift].
    match goal with
    | |- match ?r with _ => _ end = _ =>
        replace r with (Thrown err st) by (symmetry; exact Hrun)
    end.
    reflexivity.
  - intros fuel v em err em' Hfifo Hfire.
    destruct (fifo_preserved fuel) as (Hf & _).
    specialize (Hf v em Hfifo). now rewrite Hfire in Hf.
  - intros em before bad after v pre err post fuel Hl Hq Hin Hcb Hf.
    eapply fire_throws; eassumption.
Qed.

(** C9. The pairs a [fire] aborted by an exception did not deliver stay
    on the delivery queue, and the next [fire(w)] on the emitter pushes
    its pairs behind them and delivers the stale pairs first, with the
    event they were queued with. *)
Theorem aborted_pairs_are_delivered_by_next_fire :
  forall (em : Emitter T X) before bad after v w pre err post fuel1 fuel2,
    _listeners em = Some (before ++ bad :: after) ->
    queue_of em = [] ->
    Forall (fun l => inert (callback l) v) (before ++ after) ->
    Forall (fun l => inert (callback l) w) (before ++ bad :: after) ->
    callback bad v = map CEffect pre ++ CThrow err :: post ->
    fire_fuel v em <= fuel1 ->
    cost (pairs after v ++ pairs (before ++ bad :: after) w) + 2 <= fuel2 ->
    exists em1 em2,
      fire fuel1 v em = Thrown err em1
      /\ queue_of em1 = pairs after v
      /\ fire fuel2 w em1 = Done em2
      /\ invocations (trace em2) =
         invocations (trace em1)
           ++ ids (pairs after v)
           ++ ids (pairs (before ++ bad :: after) w).
Proof.
  intros em before bad after v w pre err post fuel1 fuel2
    Hl Hq Hv Hw Hcb Hf1 Hf2.
  apply Forall_app in Hv. destruct Hv as (Hb & Ha).
  destruct (fire_throws _ _ _ _ _ Hl Hq Hb Hcb Hf1)
    as (em1 & Hfire & _ & Hq1 & Hl1).
  rewrite Hl in Hl1.
  exists em1. eexists. repeat split; eauto.
  - apply fire_inert with (ls := before ++ bad :: after); auto.
    + rewrite Hq1. apply Forall_app. split; now apply all_inert_pairs.
    + unfold fire_fuel, listeners_of. rewrite Hl1, Hq1.
      unfold LinkedList.toList. lia.
  - simpl. rewrite Hq1, !invocations_app, invocations_pushes.
    rewrite invocations_delivery, ids_app. reflexivity.
Qed.

(** *** The monitor while subscribing *)

Lemma warnings_app (a b : list (Obs T X)) :
  warnings (a ++ b) = warnings a ++ warnings b.
Proof. apply flat_map_app. Qed.

Lemma warnings_hook (b : bool) h :
  warnings (if b then [@OHook T X h] else []) = [].
Proof. now destruct b. Qed.

Lemma leak_check_monitor g site em :
  let em' := fst (fst (leak_check g site em)) in
  let after :=
    monitor_after g site (List.length (listeners_of em)) (_leakageMon em) in
  _leakageMon em' = fst after
  /\ warnings (trace em') = warnings (trace em) ++ snd after.
Proof.
  unfold leak_check, monitor_after, LinkedList.size.
  destruct (_leakageMon em) as [m|] eqn:Em;
    [|simpl; now rewrite Em, app_nil_r].
  match goal with
  | |- context [30 <=? ?n] => destruct (30 <=? n)
  end; simpl; [|now rewrite Em, app_nil_r].
  destruct (check _ _ _ _) as [[m' [wn|]] rm]; simpl;
    rewrite warnings_app; simpl; auto.
Qed.

Lemma event_monitor g (cb : Callback T X) site em :
  let em' := fst (event g cb site em) in
  let after :=
    monitor_after g site (List.length (listeners_of em)) (_leakageMon em) in
  _leakageMon em' = fst after
  /\ warnings (trace em') = warnings (trace em) ++ snd after.
Proof.
  unfold event. rewrite !call_hook_log.
  unfold listeners_of, LinkedList.toList.
  destruct (_listeners em) as [l0|] eqn:El; simpl; rewrite ?El;
    [destruct l0|]; simpl;
    match goal with
    | |- context [leak_check g site ?x] =>
        pose proof (leak_check_monitor g site x) as (Hm & Hw);
        destruct (leak_check g site x) as [[em1 stk] rm]
    end;
    unfold listeners_of, LinkedList.toList in Hm, Hw; simpl in Hm, Hw;
    rewrite ?El in Hm, Hw; rewrite ?call_hook_log; simpl;
    rewrite ?warnings_app, ?warnings_hook, ?app_nil_r in *; auto.
Qed.

End EmitterFacts.

(** ** Leak warnings while subscribing *)

Section LeakFacts.

Variables T X : Type.

Import StacksFacts.

Open Scope Z_scope.

Lemma recorded_stable t c sites more :
  c <= Z.of_nat (List.length sites) ->
  recorded t c (sites ++ more) = recorded t c sites.
Proof.
  intros H. unfold recorded. rewrite firstn_app.
  replace (Z.to_nat c - List.length sites)%nat with 0%nat by lia.
  simpl. now rewrite app_nil_r.
Qed.

Lemma recorded_all t (sites : list string) :
  recorded t (Z.of_nat (List.length sites)) sites =
  skipn (Z.to_nat (first_recorded t - 1)) sites.
Proof. unfold recorded. now rewrite Nat2Z.id, firstn_all. Qed.

Lemma skipn_snoc (A : Type) n (l : list A) x :
  (n <= List.length l)%nat -> skipn n (l ++ [x]) = skipn n l ++ [x].
Proof.
  intros H. rewrite skipn_app.
  now replace (n - List.length l)%nat with 0%nat by lia.
Qed.

Lemma Forall_skipn (A : Type) (P : A -> Prop) n : forall l,
  Forall P l -> Forall P (skipn n l).
Proof.
  induction n as [|n IH]; intros [|x l] H; simpl; auto.
  inversion H; auto.
Qed.

(** The state of the monitor and the warnings logged after the
    subscriptions made from [sites], on an emitter that has a monitor
    with the effective threshold [t]: nothing before the subscription
    number [first_recorded t]; from then on a warning every [half_up t]
    subscriptions, and a map that counts the call sites recorded. *)
Definition leak_inv (g : Z) (custom : option Z) (sites : list string)
    (em : Emitter T X) : Prop :=
  let t := effective_threshold g custom in
  let k := Z.of_nat (List.length sites) in
  List.length (listeners_of em) = List.length sites
  /\ exists m,
    _leakageMon em = Some m
    /\ customThreshold m = custom
    /\ (k < first_recorded t ->
        _stacks m = None /\ _warnCountdown2 m = 0
        /\ warnings (trace em) = [])
    /\ (first_recorded t <= k ->
        exists (q : nat) (r : Z) st,
          k - first_recorded t = Z.of_nat q * half_up t + r
          /\ 0 <= r < half_up t
          /\ _warnCountdown2 m = t - 2 * r
          /\ _stacks m = Some st
          /\ counts st (skipn (Z.to_nat (first_recorded t - 1)) sites)
          /\ map warn_listenerCount (warnings (trace em)) =
             map (fun j => first_recorded t + Z.of_nat j * half_up t)
               (seq 0 (S q))
          /\ Forall (fun wn => warn_listenerCount wn <= k
                               /\ names_most_frequent t sites wn)
               (warnings (trace em))).

Lemma half_up_bounds t : 0 < t -> t <= 2 * half_up t <= t + 1.
Proof.
  intros H. unfold half_up.
  pose proof (Z.div_mod (t + 1) 2 ltac:(lia)).
  pose proof (Z.mod_pos_bound (t + 1) 2 ltac:(lia)). lia.
Qed.

Lemma names_most_frequent_stable t sites more wn :
  warn_listenerCount wn <= Z.of_nat (List.length sites) ->
  names_most_frequent t sites wn ->
  names_most_frequent t (sites ++ more) wn.
Proof.
  intros Hc (s & H1 & H2 & H3). exists s.
  rewrite recorded_stable by assumption. auto.
Qed.

Ltac splits := repeat match goal with |- _ /\ _ => split end.

Lemma leak_inv_step g custom sites site (cb : Callback T X) em :
  0 < effective_threshold g custom ->
  Forall (fun s => s <> EmptyString) (sites ++ [site]) ->
  leak_inv g custom sites em ->
  leak_inv g custom (sites ++ [site]) (fst (event g cb site em)).
Proof.
  intros Ht Hsites (Hlen & m & Hm & Hcus & Hlow & Hhigh).
  destruct (event_fields g cb site em) as ((stk & Hl) & _).
  destruct (event_monitor g cb site em) as (Hmon & Hw).
  remember (fst (event g cb site em)) as em' eqn:Eem'. clear Eem'.
  assert (Hk' : Z.of_nat (List.length (sites ++ [site])) =
                Z.of_nat (List.length sites) + 1)
    by (rewrite length_app; simpl; lia).
  unfold leak_inv. rewrite Hk'.
  remember (effective_threshold g custom) as t eqn:Et.
  remember (Z.of_nat (List.length sites)) as k eqn:Ek.
  split.
  { unfold listeners_of at 1. rewrite Hl. unfold LinkedList.toList.
    rewrite !length_app, Hlen. reflexivity. }
  rewrite Hm, Hlen in Hmon, Hw. unfold monitor_after in Hmon, Hw.
  destruct (30 <=? List.length sites)%nat eqn:E30.
  2: { apply Nat.leb_gt in E30. simpl in Hmon, Hw.
       rewrite app_nil_r in Hw. exists m. rewrite Hw.
       unfold first_recorded in *.
       split; [assumption|]. split; [assumption|].
       split; [intros; apply Hlow; lia|intros; exfalso; lia]. }
  apply Nat.leb_le in E30.
  unfold check in Hmon, Hw. rewrite Hcus, <- Et, <- Ek in Hmon, Hw.
  destruct ((t <=? 0) || (k + 1 <? t)) eqn:Eskip.
  { apply orb_true_iff in Eskip.
    destruct Eskip as [E|E]; [apply Z.leb_le in E; lia|].
    apply Z.ltb_lt in E. simpl in Hmon, Hw.
    rewrite app_nil_r in Hw. exists m. rewrite Hw.
    unfold first_recorded in *.
    split; [assumption|]. split; [assumption|].
    split; [intros; apply Hlow; lia|intros; exfalso; lia]. }
  apply orb_false_iff in Eskip. destruct Eskip as (_ & Ege).
  apply Z.ltb_ge in Ege.
  assert (HM : first_recorded t <= k + 1) by (unfold first_recorded; lia).
  remember (match _stacks m with Some s => s | None => [] end) as st0
    eqn:Est0.
  remember (Stacks.set site (Stacks.get_or_0 site st0 + 1) st0) as st1
    eqn:Est1.
  assert (Hc0 : counts st0 (skipn (Z.to_nat (first_recorded t - 1)) sites)).
  { destruct (Z_lt_le_dec k (first_recorded t)) as [Hlt|Hle].
    - destruct (Hlow Hlt) as (Hst & _). rewrite Hst in Est0. subst st0.
      rewrite skipn_all2 by lia. apply counts_nil.
    - destruct (Hhigh Hle) as (q & r & st & _ & _ & _ & Hst & Hc & _).
      rewrite Hst in Est0. now subst st0. }
  assert (Hc1 : counts st1
                  (skipn (Z.to_nat (first_recorded t - 1))
                     (sites ++ [site]))).
  { rewrite skipn_snoc by (unfold first_recorded in *; lia).
    subst st1. now apply counts_record. }
  destruct (top_of_counts Hc1) as (s & Htop & Hmax).
  { rewrite skipn_snoc by (unfold first_recorded in *; lia).
    now destruct (skipn _ sites). }
  { now apply Forall_skipn. }
  assert (Hrec : recorded t (k + 1) (sites ++ [site]) =
                 skipn (Z.to_nat (first_recorded t - 1)) (sites ++ [site])).
  { rewrite <- Hk'. apply recorded_all. }
  assert (Hnew : names_most_frequent t (sites ++ [site])
                   (mkWarning (k + 1) (occurrences s
                      (skipn (Z.to_nat (first_recorded t - 1))
                         (sites ++ [site]))) (Some s))).
  { exists s. simpl. rewrite Hrec. auto. }
  pose proof (half_up_bounds Ht) as Hh.
  destruct (_warnCountdown2 m - 2 <=? 0) eqn:Ec.
  - (* the countdown has run out: a warning *)
    apply Z.leb_le in Ec. rewrite Htop in Hmon, Hw. simpl in Hmon, Hw.
    eexists. split; [exact Hmon|].
    cbn [_warnCountdown2 _stacks customThreshold].
    split; [reflexivity|].
    split; [intros; exfalso; lia|]. intros _.
    destruct (Z_lt_le_dec k (first_recorded t)) as [Hlt|Hle].
    + destruct (Hlow Hlt) as (_ & _ & Hw0). rewrite Hw0 in Hw.
      exists 0%nat, 0, st1. rewrite Hw.
      cbn [map warn_listenerCount seq app].
      splits; auto; try lia.
      * f_equal. lia.
      * repeat constructor; auto. cbn [warn_listenerCount]. lia.
    + destruct (Hhigh Hle)
        as (q & r & st & Hq & Hr & Hcd & _ & _ & Hws & Hall).
      exists (S q), 0, st1. rewrite Hw, map_app, Hws.
      rewrite (seq_S (S q)), map_app.
      cbn [map warn_listenerCount].
      splits; auto; try lia.
      * do 2 f_equal. lia.
      * apply Forall_app. split.
        -- eapply Forall_impl; [|exact Hall]. cbn beta.
           intros wn (Hle' & Hn). split; [lia|].
           apply names_most_frequent_stable; [lia|assumption].
        -- repeat constructor; auto. cbn [warn_listenerCount]. lia.
  - (* no warning this time *)
    apply Z.leb_gt in Ec. simpl in Hmon, Hw. rewrite app_nil_r in Hw.
    eexists. split; [exact Hmon|].
    cbn [_warnCountdown2 _stacks customThreshold].
    split; [reflexivity|].
    split; [intros; exfalso; lia|]. intros _.
    destruct (Z_lt_le_dec k (first_recorded t)) as [Hlt|Hle].
    + destruct (Hlow Hlt) as (_ & Hcd & _). lia.
    + destruct (Hhigh Hle)
        as (q & r & st & Hq & Hr & Hcd & _ & _ & Hws & Hall).
      exists q, (r + 1), st1. rewrite Hw.
      splits; auto; try lia.
      eapply Forall_impl; [|exact Hall]. cbn beta.
      intros wn (Hle' & Hn). split; [lia|].
      apply names_most_frequent_stable; [lia|assumption].
Qed.

End LeakFacts.

(** C5, as the code has it.  An emitter gets a monitor when the global
    threshold is positive at its construction; the monitor is consulted
    once there are 30 listeners and records from the subscription number
    [max 31 t] on, [t] being the threshold of the instance if it has one
    and the global one otherwise.  Subscribing without disposing logs a
    warning at that subscription and then at every [half_up t]-th one
    after it, and each warning names a call site that is most frequent
    among the call sites recorded so far. *)
Theorem leak_warnings_follow_the_monitor_schedule :
  forall (T X : Type) g options (subs : list (Callback T X * string)),
    (0 < g)%Z ->
    let t :=
      effective_threshold g
        (match options with
         | Some o => leakWarningThreshold o
         | None => None
         end) in
    (0 < t)%Z ->
    Forall (fun s => snd s <> EmptyString) subs ->
    let em := subscribe_all g subs (newEmitter T X g options) in
    let n := Z.of_nat (List.length subs) in
    map warn_listenerCount (warnings (trace em)) =
    (if (n <? first_recorded t)%Z then []
     else
       map (fun j => (first_recorded t + Z.of_nat j * half_up t)%Z)
         (seq 0 (S (Z.to_nat ((n - first_recorded t) / half_up t)))))
    /\ Forall (names_most_frequent t (map snd subs)) (warnings (trace em)).
Proof.
  intros T X g options subs Hg t Ht Hsites em n.
  set (custom := match options with
                 | Some o => leakWarningThreshold o
                 | None => None
                 end) in *.
  assert (Hinv : leak_inv g custom (map snd subs) em).
  { subst em. clear n. induction subs as [|s subs IH] using rev_ind.
    - split; [reflexivity|]. exists (newLeakageMonitor custom).
      unfold newEmitter, first_recorded. simpl.
      apply Z.ltb_lt in Hg. rewrite Hg.
      split; [reflexivity|]. split; [reflexivity|].
      split; [auto|]. intros H. exfalso. fold t in H. lia.
    - unfold subscribe_all. rewrite fold_left_app, map_app. simpl.
      apply Forall_app in Hsites. destruct Hsites as (Hs1 & Hs2).
      apply leak_inv_step; [exact Ht| |apply IH; assumption].
      apply Forall_app. split.
      + now apply (Forall_map snd (fun s => s <> EmptyString)).
      + inversion Hs2; subst. now repeat constructor. }
  destruct Hinv as (_ & m & _ & _ & Hlow & Hhigh).
  rewrite length_map in Hlow, Hhigh. fold t n in Hlow, Hhigh.
  destruct (n <? first_recorded t)%Z eqn:E.
  - apply Z.ltb_lt in E. destruct (Hlow E) as (_ & _ & Hw).
    rewrite Hw. split; [reflexivity|constructor].
  - apply Z.ltb_ge in E.
    destruct (Hhigh E) as (q & r & st & Hq & Hr & _ & _ & _ & Hws & Hall).
    split.
    + rewrite Hws. do 3 f_equal.
      rewrite <- (Z.div_unique (n - first_recorded t) (half_up t)
                    (Z.of_nat q) r); [lia|lia|lia].
    + eapply Forall_impl; [|exact Hall]. now intros wn (_ & H).
Qed.

(** With the global threshold 2, three subscriptions log nothing. *)
Lemma three_subscriptions_log_no_warning :
  List.length
    (warnings
       (trace (subscribe_all 2 (Examples.same_site 3)
                 (newEmitter nat string 2 None)))) <> 1.
Proof. vm_compute. discriminate. Qed.

Lemma leak_warnings_follow_the_monitor_schedule_witness :
  map warn_listenerCount
    (warnings
       (trace (subscribe_all 2 (Examples.same_site 33)
                 (newEmitter nat string 2 None))))
  = [31; 32; 33]%Z.
Proof.
  destruct (@leak_warnings_follow_the_monitor_schedule nat string 2 None
              (Examples.same_site 33)) as [H _].
  - reflexivity.
  - reflexivity.
  - apply Forall_forall. intros x Hx. apply repeat_spec in Hx. subst x.
    discriminate.
  - rewrite H. reflexivity.
Defined.

(** ** The emitter on sample inputs *)

Lemma fire_invokes_each_listener_once_in_order_witness :
  exists em',
    fire 20 7
      (subscribe_all 0 Examples.two_plain (newEmitter nat string 0 None))
    = Done em'
    /\ invocations (trace em') = [(0, 7); (1, 7)].
Proof.
  destruct (proj2 (@fire_invokes_each_listener_once_in_order nat string)
              0%Z None Examples.two_plain 7 20)
    as (em' & ls & _ & _ & _ & Hf & _ & Hi).
  - repeat constructor.
  - vm_compute. lia.
  - exists em'. split; [exact Hf|exact Hi].
Defined.

Lemma nested_fire_joins_the_shared_queue_witness :
  exists em',
    fire 20 1 Examples.reentrant = Done em'
    /\ queue_of em' = []
    /\ invocations (trace em') = pushed (trace em')
    /\ invocations (trace em') = [(0, 1); (1, 1); (0, 2); (1, 2)].
Proof.
  eexists. split; [vm_compute; reflexivity|].
  match goal with
  | |- queue_of ?em' = [] /\ _ =>
      destruct (proj2 (@nested_fire_joins_the_shared_queue nat string)
                  20 1 Examples.reentrant em') as [Hq Hp]
  end.
  - reflexivity.
  - vm_compute. discriminate.
  - vm_compute. reflexivity.
  - split; [exact Hq|]. split; [exact Hp|]. vm_compute. reflexivity.
Defined.

Lemma listener_exception_aborts_fire_witness :
  exists em',
    fire 20 1 Examples.with_thrower = Thrown (Raised "boom") em'
    /\ invocations (trace em') = [(0, 1); (1, 1)]
    /\ queue_of em' = [(Examples.l2, 1)].
Proof.
  destruct (proj2 (proj2 (@listener_exception_aborts_fire nat string))
              Examples.with_thrower
              [Examples.l0] Examples.l1 [Examples.l2] 1 ["before"%string]
              (Raised "boom") [] 20)
    as (em' & Hf & Hi & Hq & _).
  - reflexivity.
  - reflexivity.
  - repeat constructor.
  - reflexivity.
  - vm_compute. lia.
  - exists em'. split; [exact Hf|]. split; [exact Hi|exact Hq].
Defined.

Lemma aborted_pairs_are_delivered_by_next_fire_witness :
  exists em1 em2,
    fire 20 1 Examples.with_thrower = Thrown (Raised "boom") em1
    /\ queue_of em1 = [(Examples.l2, 1)]
    /\ fire 20 5 em1 = Done em2
    /\ invocations (trace em2) =
       [(0, 1); (1, 1); (2, 1); (0, 5); (1, 5); (2, 5)].
Proof.
  destruct (@aborted_pairs_are_delivered_by_next_fire nat string
              Examples.with_thrower [Examples.l0] Examples.l1 [Examples.l2]
              1 5 ["before"%string] (Raised "boom") [] 20 20)
    as (em1 & em2 & Hf1 & Hq & Hf2 & Hi).
  - reflexivity.
  - reflexivity.
  - repeat constructor.
  - repeat constructor.
  - reflexivity.
  - vm_compute. lia.
  - vm_compute. lia.
  - exists em1, em2. split; [exact Hf1|]. split; [exact Hq|].
    split; [exact Hf2|]. rewrite Hi.
    assert (H : fire 20 1 Examples.with_thrower
                = Thrown (Raised "boom") em1) by exact Hf1.
    vm_compute in H. injection H as <-. reflexivity.
Defined.

(** ** Disposal sweeps *)

Module LifecycleFacts.

Import Lifecycle.

Lemma sweep_spec ds : forall attempted errors,
  sweep ds attempted errors = (attempted ++ present ds, errors ++ failures ds).
Proof.
  induction ds as [|[d|] ds IH]; intros attempted errors; simpl.
  - now rewrite !app_nil_r.
  - destruct (failure d) as [e|]; rewrite IH, <- !app_assoc; reflexivity.
  - apply IH.
Qed.

Lemma present_registered (rs : list Disposable) :
  present (map Some rs) = map did rs.
Proof. induction rs as [|r rs IH]; simpl; congruence. Qed.

End LifecycleFacts.

(** C6. A disposal sweep calls [dispose()] on every resource it is given,
    in order, also after some of them have failed; it then returns if none
    failed, throws the error itself if exactly one failed, and throws a
    [MultiDisposeError] carrying all the errors, in order, if two or more
    failed.  The sweep of an Ownership Store ([clear], and [dispose] the
    first time) is the sweep over its registered resources, after which
    the store is empty. *)
Theorem disposal_sweep_attempts_all_and_aggregates :
  (forall ds,
      Lifecycle.dispose (Lifecycle.Many ds) =
      match Lifecycle.failures ds with
      | [] => Done (Lifecycle.present ds)
      | [e] => Thrown e (Lifecycle.present ds)
      | e1 :: e2 :: es =>
          Thrown (MultiDisposeError (e1 :: e2 :: es)) (Lifecycle.present ds)
      end)
  /\ (forall st,
        let resources := map Some (Lifecycle._toDispose st) in
        snd (Lifecycle.clear st) = Lifecycle.dispose (Lifecycle.Many resources)
        /\ Lifecycle.present resources = map Lifecycle.did (Lifecycle._toDispose st)
        /\ Lifecycle._toDispose (fst (Lifecycle.clear st)) = []
        /\ Lifecycle.dispose_store st =
           if Lifecycle._isDisposed st then (st, Done [])
           else
             (Lifecycle.mkStore (Lifecycle.sid st) [] true,
              Lifecycle.dispose (Lifecycle.Many resources))).
Proof.
  split.
  - intros ds. unfold Lifecycle.dispose.
    rewrite LifecycleFacts.sweep_spec. simpl.
    now destruct (Lifecycle.failures ds) as [|e1 [|e2 es]].
  - intros st resources.
    split; [reflexivity|].
    split; [apply LifecycleFacts.present_registered|].
    split; [reflexivity|].
    unfold Lifecycle.dispose_store, Lifecycle.clear.
    now destruct (Lifecycle._isDisposed st).
Qed.

(** ** The throttler, one task at a time

    The invariants of a throttler whose factories do not call [queue]
    ([Serial]).  The parts that follow carry them over to [Throttler]
    and say what remains of them when factories do call [queue]. *)

Module ThrottlerFacts.

Import Throttler Serial.

(** *** Histories *)

Definition effects (os : list (Obs Completion Ev)) : list Ev :=
  flat_map (fun o => match o with OEffect x => [x] | _ => [] end) os.

Lemma effects_app a b : effects (a ++ b) = effects a ++ effects b.
Proof. apply flat_map_app. Qed.

Lemma effects_effects evs : effects (map OEffect evs) = evs.
Proof. induction evs as [|ev evs IH]; simpl; congruence. Qed.

Lemma effects_quiet os : quiet os -> effects os = [].
Proof.
  induction 1 as [|o os Ho _ IH]; [reflexivity|].
  destruct o; simpl in *; tauto.
Qed.

Lemma effects_pushes (ps : list (Listener Completion Ev * Completion)) :
  effects (pushes ps) = [].
Proof. induction ps; simpl; congruence. Qed.

Lemma effects_delivery (ps : list (Listener Completion Ev * Completion)) :
  effects (flat_map (@delivery Completion Ev) ps) =
  flat_map (fun p => payload (callback (fst p) (snd p))) ps.
Proof.
  induction ps as [|p ps IH]; simpl; [reflexivity|].
  now rewrite effects_app, effects_effects, IH.
Qed.

Lemma history_note evs w : history (note evs w) = history w ++ evs.
Proof.
  unfold history, note. simpl. fold (effects (trace (_onPromiseCompleted w))).
  fold (effects (trace (_onPromiseCompleted w) ++ map OEffect evs)).
  now rewrite effects_app, effects_effects.
Qed.

Lemma invoked_ids_app a b : invoked_ids (a ++ b) = invoked_ids a ++ invoked_ids b.
Proof. apply flat_map_app. Qed.

Lemma queued_ids_app a b : queued_ids (a ++ b) = queued_ids a ++ queued_ids b.
Proof. apply flat_map_app. Qed.

Lemma in_invoked_ids i h : In i (invoked_ids h) <-> In (Invoked i) h.
Proof.
  unfold invoked_ids. rewrite in_flat_map. split.
  - intros (ev & Hin & Hi). destruct ev; simpl in Hi; try tauto.
    destruct Hi as [<-|[]]. assumption.
  - intros H. exists (Invoked i). simpl. auto.
Qed.

Lemma future_In i h v : future i h = Some v -> In (Resolved i v) h.
Proof.
  induction h as [|ev h IH]; simpl; [discriminate|].
  destruct ev; auto.
  destruct (taskId =? i) eqn:E; [|auto].
  apply Nat.eqb_eq in E. intros [= ->]. left. congruence.
Qed.


(** *** One task at a time, as a property of histories *)

(** The task has ended: its result was announced, or its factory threw
    instead of returning a promise. *)
Definition ended (i : nat) (h : list Ev) : Prop :=
  (exists v, In (Announced i v) h) \/ (exists e, In (Threw i e) h).

(** Between two calls of a factory, the task of the first has ended. *)
Definition serial (h : list Ev) : Prop :=
  forall l1 i1 l2 i2 l3,
    h = l1 ++ Invoked i1 :: l2 ++ Invoked i2 :: l3 -> ended i1 l2.

(** Every task started has ended, but for the active one. *)
Definition closed (a : option nat) (h : list Ev) : Prop :=
  forall l1 i l2, h = l1 ++ Invoked i :: l2 -> ended i l2 \/ a = Some i.

Lemma snoc_split (A : Type) (l : list A) x l1 a l2 :
  l ++ [x] = l1 ++ a :: l2 ->
  (l2 = [] /\ l1 = l /\ a = x)
  \/ (exists l2', l2 = l2' ++ [x] /\ l = l1 ++ a :: l2').
Proof.
  destruct l2 as [|y l2 _] using rev_ind; intros H.
  - left. apply app_inj_tail in H. intuition congruence.
  - right. exists l2.
    change (l ++ [x] = l1 ++ (a :: l2) ++ [y]) in H.
    rewrite app_assoc in H. apply app_inj_tail in H.
    destruct H as (-> & ->). auto.
Qed.

Lemma ended_snoc i h ev : ended i h -> ended i (h ++ [ev]).
Proof.
  intros [(v & H)|(e & H)]; [left; exists v|right; exists e];
    apply in_or_app; auto.
Qed.

Definition other (ev : Ev) : Prop := forall i, ev <> Invoked i.

Lemma serial_snoc_other h ev : serial h -> other ev -> serial (h ++ [ev]).
Proof.
  intros Hs Hev l1 i1 l2 i2 l3 E.
  apply snoc_split in E. destruct E as [(E & _)|(l' & E & Eh)].
  - now destruct l2.
  - symmetry in E. apply snoc_split in E.
    destruct E as [(_ & _ & E)|(l3' & _ & ->)].
    + exfalso. eapply Hev. symmetry. exact E.
    + eapply Hs. exact Eh.
Qed.

Lemma serial_snoc_invoked h i : serial h -> closed None h -> serial (h ++ [Invoked i]).
Proof.
  intros Hs Hc l1 i1 l2 i2 l3 E.
  apply snoc_split in E. destruct E as [(E & _)|(l' & E & Eh)].
  - now destruct l2.
  - symmetry in E. apply snoc_split in E.
    destruct E as [(_ & -> & _)|(l3' & _ & ->)].
    + destruct (Hc _ _ _ Eh) as [H|H]; [assumption|discriminate].
    + eapply Hs. exact Eh.
Qed.

Lemma closed_snoc_other a h ev : closed a h -> other ev -> closed a (h ++ [ev]).
Proof.
  intros Hc Hev l1 i l2 E.
  apply snoc_split in E. destruct E as [(_ & _ & E)|(l' & -> & Eh)].
  - exfalso. eapply Hev. symmetry. exact E.
  - destruct (Hc _ _ _ Eh) as [H|H]; [left; now apply ended_snoc|now right].
Qed.

Lemma closed_snoc_invoked h i : closed None h -> closed (Some i) (h ++ [Invoked i]).
Proof.
  intros Hc l1 i' l2 E.
  apply snoc_split in E. destruct E as [(_ & _ & [= ->])|(l' & -> & Eh)].
  - now right.
  - destruct (Hc _ _ _ Eh) as [H|H]; [left; now apply ended_snoc|discriminate].
Qed.

(** The active task ends. *)
Lemma closed_snoc_end h i ev :
  closed (Some i) h -> other ev -> ended i [ev] -> closed None (h ++ [ev]).
Proof.
  intros Hc Hev Hend l1 i' l2 E.
  apply snoc_split in E. destruct E as [(_ & _ & E)|(l' & -> & Eh)].
  - exfalso. eapply Hev. symmetry. exact E.
  - left. destruct (Hc _ _ _ Eh) as [H|[= ->]]; [now apply ended_snoc|].
    destruct Hend as [(v & [->|[]])|(e & [->|[]])];
      [left; exists v|right; exists e]; apply in_or_app; simpl; auto.
Qed.

(** *** The invariant *)

Lemma promise_state_set p p' st ps :
  promise_state p (set_promise p' st ps) =
  if p =? p' then Some st else promise_state p ps.
Proof.
  induction ps as [|[p0 s0] ps IH]; simpl.
  - destruct (p =? p'); reflexivity.
  - destruct (p' =? p0) eqn:E0; simpl.
    + apply Nat.eqb_eq in E0. subst p0. destruct (p =? p'); reflexivity.
    + rewrite IH. destruct (p =? p') eqn:E; [|reflexivity].
      apply Nat.eqb_eq in E. subst p. now rewrite E0.
Qed.

(** What holds of the active marker [a], the pending queue [q], the
    number [n] of calls of [queue], the promises, the suspended calls of
    [run], the microtasks and the history, between any two steps. *)
Record Core (a : option nat) (q : list (nat * Factory)) (n : nat)
    (ps : list (nat * PState)) (sus : list nat)
    (js : list (nat * (Value + Err))) (h : list Ev) : Prop := mkCore {
  ic_queued : queued_ids h = seq 0 n;
  ic_fifo : invoked_ids h ++ map fst q = seq 0 n;
  ic_active :
    match a with
    | None => sus = [] /\ js = []
    | Some i =>
        exists st,
          promise_state i ps = Some st
          /\ match st with
             | Pending => sus = [i] /\ js = []
             | Fulfilled v => sus = [] /\ js = [(i, inl v)]
             | Rejected e => sus = [] /\ (js = [(i, inr e)] \/ js = [])
             end
    end;
  ic_promise :
    forall i st,
      promise_state i ps = Some st ->
      In (Invoked i) h
      /\ (a = Some i \/ exists v, st = Fulfilled v /\ In (Announced i v) h);
  ic_announced :
    forall i v,
      In (Announced i v) h ->
      promise_state i ps = Some (Fulfilled v) /\ In (Resolved i v) h;
  ic_resolved : forall i v, In (Resolved i v) h -> In (Announced i v) h;
  ic_threw :
    forall i e, In (Threw i e) h -> In (Invoked i) h /\ promise_state i ps = None;
  ic_serial : serial h;
  ic_closed : closed a h
}.

Definition InvCore (w : World) : Prop :=
  Core (activePromise w) (queuedPromiseFactory w) (uuid w) (promises w)
    (suspended w) (jobs w) (history w).

Ltac in_snoc :=
  repeat match goal with
    | H : In _ (_ ++ _) |- _ => apply in_app_or in H; simpl in H
    | H : _ \/ _ |- _ => destruct H
    | H : False |- _ => destruct H
    end;
  try discriminate.

Ltac ins :=
  repeat match goal with |- _ /\ _ => split end;
  rewrite ?in_app_iff; simpl; auto; try tauto.

Lemma core_init : Core None [] 0 [] [] [] [].
Proof.
  constructor; simpl; auto; try easy.
  - intros l1 i1 l2 i2 l3 E. now destruct l1.
  - intros l1 i l2 E. now destruct l1.
Qed.

(** [queue] records the call and appends the factory. *)
Lemma core_push a q n ps sus js h f :
  Core a q n ps sus js h ->
  Core a (q ++ [(n, f)]) (S n) ps sus js (h ++ [Queued n]).
Proof.
  intros [Hq Hf Ha Hp Han Hr Ht Hs Hc]. constructor.
  - rewrite queued_ids_app, Hq, seq_S. reflexivity.
  - rewrite invoked_ids_app, map_app, seq_S, <- Hf. simpl.
    now rewrite app_nil_r, app_assoc.
  - exact Ha.
  - intros i st H. destruct (Hp i st H) as (H1 & [H2|(v & H2 & H3)]);
      ins. right. exists v. ins.
  - intros i v H. in_snoc. destruct (Han i v H). ins.
  - intros i v H. in_snoc. ins.
  - intros i e H. in_snoc. destruct (Ht i e H). ins.
  - apply serial_snoc_other; [assumption|intros i; discriminate].
  - apply closed_snoc_other; [assumption|intros i; discriminate].
Qed.

(** The head of the queue has not been started. *)
Lemma core_fresh q n ps sus js h next task rest :
  Core None ((next, task) :: rest) n ps sus js h ->
  q = (next, task) :: rest ->
  ~ In (Invoked next) h /\ promise_state next ps = None.
Proof.
  intros [Hq Hf Ha Hp Han Hr Ht Hs Hc] _.
  assert (Hn : ~ In (Invoked next) h).
  { rewrite <- in_invoked_ids. intros Hin.
    pose proof (seq_NoDup n 0) as Hnd. rewrite <- Hf in Hnd. simpl in Hnd.
    apply NoDup_remove_2 in Hnd. apply Hnd. apply in_or_app. now left. }
  split; [assumption|].
  destruct (promise_state next ps) as [st|] eqn:E; [|reflexivity].
  destruct (Hp _ _ E). contradiction.
Qed.

(** [run] starts the head of the queue, whose factory returns a promise
    in the state [st]. *)
Lemma core_start n ps h next task rest st :
  Core None ((next, task) :: rest) n ps [] [] h ->
  Core (Some next) rest n (set_promise next st ps)
    (match st with Pending => [next] | _ => [] end)
    (match st with
     | Pending => []
     | Fulfilled v => [(next, inl v)]
     | Rejected e => [(next, inr e)]
     end)
    (h ++ [Invoked next]).
Proof.
  intros Hcore. destruct (core_fresh Hcore eq_refl) as (Hfresh & Hnone).
  destruct Hcore as [Hq Hf Ha Hp Han Hr Ht Hs Hc]. constructor.
  - rewrite queued_ids_app, Hq. simpl. now rewrite app_nil_r.
  - rewrite invoked_ids_app, <- Hf. simpl. now rewrite <- app_assoc.
  - exists st. rewrite promise_state_set, Nat.eqb_refl.
    split; [reflexivity|]. destruct st; auto.
  - intros i st0. rewrite promise_state_set.
    destruct (i =? next) eqn:E.
    + apply Nat.eqb_eq in E. subst i. intros _. split; [|now left].
      apply in_or_app. simpl. auto.
    + intros H. destruct (Hp i st0 H) as (H1 & [H2|(v & H2 & H3)]);
        [discriminate|]. split; [ins|].
      right. exists v. ins.
  - intros i v H. in_snoc. destruct (Han i v H) as (H1 & H2).
    rewrite promise_state_set. destruct (i =? next) eqn:E.
    + apply Nat.eqb_eq in E. subst i. congruence.
    + ins.
  - intros i v H. in_snoc. ins.
  - intros i e H. in_snoc. destruct (Ht i e H) as (H1 & H2).
    rewrite promise_state_set. destruct (i =? next) eqn:E.
    + apply Nat.eqb_eq in E. subst i. contradiction.
    + ins.
  - now apply serial_snoc_invoked.
  - now apply closed_snoc_invoked.
Qed.

(** [run] starts the head of the queue, whose factory throws. *)
Lemma core_start_throws n ps h next task rest e :
  Core None ((next, task) :: rest) n ps [] [] h ->
  Core None rest n ps [] [] ((h ++ [Invoked next]) ++ [Threw next e]).
Proof.
  intros Hcore. destruct (core_fresh Hcore eq_refl) as (Hfresh & Hnone).
  destruct Hcore as [Hq Hf Ha Hp Han Hr Ht Hs Hc]. constructor.
  - rewrite !queued_ids_app, Hq. simpl. now rewrite !app_nil_r.
  - rewrite !invoked_ids_app, <- Hf. simpl. now rewrite app_nil_r, <- app_assoc.
  - auto.
  - intros i st0 H. destruct (Hp i st0 H) as (H1 & [H2|(v & H2 & H3)]);
      [discriminate|]. split; [ins|].
    right. exists v. ins.
  - intros i v H. in_snoc. destruct (Han i v H). ins.
  - intros i v H. in_snoc. ins.
  - intros i e0 H. in_snoc.
    + destruct (Ht i e0 H). ins.
    + injection H as -> ->. split; [|assumption].
      apply in_or_app. left. apply in_or_app. simpl. auto.
  - apply serial_snoc_other; [|intros i; discriminate].
    now apply serial_snoc_invoked.
  - apply closed_snoc_end with (i := next).
    + now apply closed_snoc_invoked.
    + intros i; discriminate.
    + right. exists e. simpl. auto.
Qed.

(** The environment settles the pending promise. *)
Lemma core_settle a q n ps sus js h p r :
  Core a q n ps sus js h ->
  promise_state p ps = Some Pending ->
  a = Some p /\ sus = [p] /\ js = []
  /\ Core a q n (set_promise p (settled r) ps) [] [(p, r)] h.
Proof.
  intros [Hq Hf Ha Hp Han Hr Ht Hs Hc] Hpend.
  destruct (Hp _ _ Hpend) as (Hinv & [->|(v & [=] & _)]).
  destruct Ha as (st & Hst & Ha). rewrite Hpend in Hst. injection Hst as <-.
  destruct Ha as (-> & ->). do 3 (split; [reflexivity|]).
  constructor; auto.
  - exists (settled r). rewrite promise_state_set, Nat.eqb_refl.
    split; [reflexivity|]. destruct r; simpl; auto.
  - intros i st. rewrite promise_state_set. destruct (i =? p) eqn:E.
    + apply Nat.eqb_eq in E. subst i. auto.
    + apply Hp.
  - intros i v H. destruct (Han i v H) as (H1 & H2). split; [|assumption].
    rewrite promise_state_set. destruct (i =? p) eqn:E; [|assumption].
    apply Nat.eqb_eq in E. subst i. congruence.
  - intros i e H. destruct (Ht i e H) as (H1 & H2). split; [assumption|].
    rewrite promise_state_set. destruct (i =? p) eqn:E; [|assumption].
    apply Nat.eqb_eq in E. subst i. congruence.
Qed.

(** The microtask at the head is the continuation of the active task. *)
Lemma core_job a q n ps sus js h next r rest :
  Core a q n ps sus js h ->
  js = (next, r) :: rest ->
  a = Some next /\ rest = [] /\ sus = []
  /\ promise_state next ps = Some (settled r).
Proof.
  intros [Hq Hf Ha Hp Han Hr Ht Hs Hc] ->.
  destruct a as [i|]; [|destruct Ha; discriminate].
  destruct Ha as (st & Hst & Ha).
  destruct st as [|v|e]; destruct Ha as (-> & Ha).
  - discriminate.
  - injection Ha as -> -> ->. auto.
  - destruct Ha as [Ha|Ha]; [|discriminate].
    injection Ha as -> -> ->. auto.
Qed.

(** The [await] of [run] throws: nothing else happens. *)
Lemma core_await_throws q n ps h next e :
  Core (Some next) q n ps [] [(next, inr e)] h ->
  Core (Some next) q n ps [] [] (h ++ [AwaitThrew next e]).
Proof.
  intros Hcore.
  destruct (core_job Hcore eq_refl) as (_ & _ & _ & Hst).
  destruct Hcore as [Hq Hf Ha Hp Han Hr Ht Hs Hc]. constructor.
  - rewrite queued_ids_app, Hq. simpl. now rewrite app_nil_r.
  - rewrite invoked_ids_app. simpl. now rewrite app_nil_r.
  - exists (Rejected e). auto.
  - intros i st H. destruct (Hp i st H) as (H1 & [H2|(v & H2 & H3)]);
      ins. right. exists v. ins.
  - intros i v H. in_snoc. destruct (Han i v H). ins.
  - intros i v H. in_snoc. ins.
  - intros i e0 H. in_snoc. destruct (Ht i e0 H). ins.
  - apply serial_snoc_other; [assumption|intros i; discriminate].
  - apply closed_snoc_other; [assumption|intros i; discriminate].
Qed.

(** The result is announced and the listeners resolve the future of the
    task. *)
Lemma core_announce q n ps h next v resolves :
  Core (Some next) q n ps [] [(next, inl v)] h ->
  Forall (eq (Resolved next v)) resolves ->
  In (Resolved next v) resolves ->
  Core None q n ps [] [] ((h ++ [Announced next v]) ++ resolves).
Proof.
  intros Hcore Hall Hin.
  destruct (core_job Hcore eq_refl) as (_ & _ & _ & Hst). simpl in Hst.
  destruct Hcore as [Hq Hf Ha Hp Han Hr Ht Hs Hc].
  assert (Hnq : queued_ids resolves = []).
  { clear Hin. induction Hall as [|x l <- _ IH]; simpl; auto. }
  assert (Hni : invoked_ids resolves = []).
  { clear Hin. induction Hall as [|x l <- _ IH]; simpl; auto. }
  rewrite Forall_forall in Hall.
  assert (Hser : forall l, Forall (eq (Resolved next v)) l ->
                           serial ((h ++ [Announced next v]) ++ l)
                           /\ closed None ((h ++ [Announced next v]) ++ l)).
  { induction l as [|x l IH] using rev_ind; intros Hl.
    - rewrite app_nil_r. split.
      + apply serial_snoc_other; [assumption|intros i; discriminate].
      + apply closed_snoc_end with (i := next); auto.
        * intros i; discriminate.
        * left. exists v. simpl. auto.
    - apply Forall_app in Hl. destruct Hl as (Hl & Hx).
      inversion Hx as [|? ? <- _]; subst.
      destruct (IH Hl) as (IH1 & IH2). rewrite app_assoc. split.
      + apply serial_snoc_other; [assumption|intros i; discriminate].
      + apply closed_snoc_other; [assumption|intros i; discriminate]. }
  destruct (Hser resolves) as (Hs' & Hc'); [now apply Forall_forall|].
  constructor; auto.
  - rewrite !queued_ids_app, Hq, Hnq. simpl. now rewrite !app_nil_r.
  - rewrite !invoked_ids_app, Hni. simpl. now rewrite !app_nil_r.
  - intros i st H. destruct (Hp i st H) as (H1 & [[= ->]|(v0 & H2 & H3)]).
    + split; [ins|]. right. exists v.
      split; [congruence|]. apply in_or_app. left. apply in_or_app.
      simpl. auto.
    + split; [ins|]. right. exists v0.
      ins.
  - intros i v0 H. in_snoc.
    + destruct (Han i v0 H). ins.
    + injection H as -> ->. split; [assumption|]. apply in_or_app. now right.
    + apply Hall in H. discriminate.
  - intros i v0 H. in_snoc.
    + apply in_or_app. left. apply in_or_app. left. auto.
    + apply Hall in H. injection H as -> ->.
      apply in_or_app. left. apply in_or_app. simpl. auto.
  - intros i e0 H. in_snoc.
    + destruct (Ht i e0 H). ins.
    + apply Hall in H. discriminate.
Qed.

(** *** The completion emitter *)

(** One listener per call of [queue], none removed, nothing left on the
    delivery queue. *)
Record InvEm (w : World) : Prop := mkInvEm {
  ie_lids :
    map (@lid Completion Ev) (listeners_of (_onPromiseCompleted w)) =
    seq 0 (uuid w);
  ie_cbs :
    map (@callback Completion Ev) (listeners_of (_onPromiseCompleted w)) =
    map completion_listener (seq 0 (uuid w));
  ie_queue : queue_of (_onPromiseCompleted w) = [];
  ie_next : nextLid (_onPromiseCompleted w) = uuid w;
  ie_cells : map fst (_cells (_onPromiseCompleted w)) = seq 0 (uuid w)
}.

Lemma completion_listener_inert i e : inert (completion_listener i) e.
Proof. unfold inert, completion_listener. now destruct (id e =? i). Qed.

Lemma completion_listener_payload i e x :
  In x (payload (completion_listener i e)) ->
  id e = i /\ x = Resolved (id e) (result e).
Proof.
  unfold completion_listener. destruct (id e =? i) eqn:E; simpl; [|tauto].
  apply Nat.eqb_eq in E. intros [<-|[]]. subst i. auto.
Qed.

(** [fire] on the completion emitter returns; the only effects are calls
    of [resolve] for the task of the event, with its result. *)
Lemma fire_completion w e :
  InvEm w ->
  let em := _onPromiseCompleted w in
  exists em' resolves,
    fire (fire_fuel e em) e em = Done em'
    /\ effects (trace em') = effects (trace em) ++ resolves
    /\ Forall (eq (Resolved (id e) (result e))) resolves
    /\ (id e < uuid w -> In (Resolved (id e) (result e)) resolves)
    /\ listeners_of em' = listeners_of em
    /\ queue_of em' = []
    /\ nextLid em' = nextLid em
    /\ _cells em' = _cells em.
Proof.
  intros [Hl Hc Hq Hn _] em. fold em in Hl, Hc, Hq, Hn.
  destruct (_listeners em) as [ls|] eqn:El.
  - assert (Els : listeners_of em = ls)
      by (unfold listeners_of; now rewrite El).
    rewrite Els in *.
    assert (Hin : all_inert (queue_of em ++ pairs ls e)).
    { rewrite Hq. simpl. apply all_inert_pairs. apply Forall_forall.
      intros l Hl'. apply (in_map (@callback Completion Ev)) in Hl'.
      rewrite Hc in Hl'. apply in_map_iff in Hl'.
      destruct Hl' as (i & <- & _). apply completion_listener_inert. }
    eexists. exists (flat_map (fun p => payload (callback (fst p) (snd p)))
                       (pairs ls e)).
    split; [apply fire_inert with (ls := ls); auto|].
    cbn [trace log set_deliveryQueue]. rewrite Hq. simpl app.
    rewrite !effects_app, effects_pushes, effects_delivery. simpl app.
    split; [reflexivity|]. split; [|split].
    + apply Forall_forall. intros x Hx. apply in_flat_map in Hx.
      destruct Hx as ([l e'] & Hp & Hx). apply in_map_iff in Hp.
      destruct Hp as (l' & [= -> ->] & Hl'). simpl in Hx.
      apply (in_map (@callback Completion Ev)) in Hl'.
      rewrite Hc in Hl'. apply in_map_iff in Hl'.
      destruct Hl' as (i & Hi & _). rewrite <- Hi in Hx.
      apply completion_listener_payload in Hx. now destruct Hx.
    + intros Hlt.
      assert (Hi : In (completion_listener (id e))
                     (map (@callback Completion Ev) ls)).
      { rewrite Hc. apply in_map. apply in_seq. lia. }
      apply in_map_iff in Hi. destruct Hi as (l & Hcb & Hl').
      apply in_flat_map. exists (l, e). split.
      * unfold pairs. apply in_map_iff. eauto.
      * simpl. rewrite Hcb. unfold completion_listener.
        rewrite Nat.eqb_refl. simpl. auto.
    + unfold listeners_of, queue_of. simpl. rewrite El. auto.
  - exists em, []. unfold fire_fuel. rewrite fire_S, El, app_nil_r.
    repeat split; auto.
    intros Hlt. unfold listeners_of in Hl. rewrite El in Hl.
    destruct (uuid w); [lia|discriminate].
Qed.

(** *** The steps preserve the invariants *)

Arguments history : simpl never.

Lemma history_set_emitter em w : history (set_emitter em w) = effects (trace em).
Proof. reflexivity. Qed.

Lemma history_effects w : history w = effects (trace (_onPromiseCompleted w)).
Proof. reflexivity. Qed.

Lemma run_core w : InvCore w -> InvCore (run w).
Proof.
  unfold run. intros Hcore.
  destruct (queuedPromiseFactory w) as [|[next task] rest] eqn:Eq; [assumption|].
  destruct (activePromise w) as [a|] eqn:Ea; [assumption|].
  unfold InvCore in *. rewrite Eq, Ea in Hcore.
  destruct (ic_active Hcore) as (Hs & Hj). rewrite Hs, Hj in Hcore.
  destruct (result_of task) as [|v|e|e]; simpl; rewrite ?history_effects;
    simpl;
    rewrite ?Hs, ?Hj, ?map_app, ?effects_app, ?effects_effects;
    simpl; rewrite <- ?history_effects.
  - apply (core_start Pending Hcore).
  - apply (core_start (Fulfilled v) Hcore).
  - apply (core_start (Rejected e) Hcore).
  - rewrite Ea. apply (core_start_throws e Hcore).
Qed.

Lemma run_emitter w :
  exists os, _onPromiseCompleted (run w) = log os (_onPromiseCompleted w)
             /\ uuid (run w) = uuid w.
Proof.
  unfold run.
  destruct (queuedPromiseFactory w) as [|[next task] rest];
    [exists []; now rewrite log_nil|].
  destruct (activePromise w); [exists []; now rewrite log_nil|].
  destruct (result_of task); simpl; rewrite ?log_log; eauto.
Qed.

Lemma em_logged w w' os :
  InvEm w ->
  _onPromiseCompleted w' = log os (_onPromiseCompleted w) ->
  uuid w' = uuid w ->
  InvEm w'.
Proof.
  intros [Hl Hc Hq Hn Hce] Hem Hu.
  constructor; rewrite Hem, ?Hu; assumption.
Qed.

Lemma queue_inv g f site w :
  InvCore w -> InvEm w ->
  InvCore (fst (queue g f site w)) /\ InvEm (fst (queue g f site w)).
Proof.
  intros Hc He. unfold queue, generateUuid.
  remember (set_queued
              (queuedPromiseFactory (set_uuid (S (uuid w)) w) ++ [(uuid w, f)])
              (note [Queued (uuid w)] (set_uuid (S (uuid w)) w))) as w1 eqn:Ew1.
  assert (Hc1 : InvCore w1).
  { subst w1. unfold InvCore. simpl.
    change (history _) with (history (note [Queued (uuid w)] w)).
    rewrite history_note. now apply core_push. }
  assert (He1 : _onPromiseCompleted w1 =
                log [OEffect (Queued (uuid w))] (_onPromiseCompleted w)
                /\ uuid w1 = S (uuid w)) by (subst w1; auto).
  destruct He1 as (Hem1 & Hu1).
  apply run_core in Hc1.
  destruct (run_emitter w1) as (os & Hem & Hu).
  rewrite Hem1, log_log in Hem. rewrite Hu1 in Hu.
  pose proof (event_fields g (completion_listener (uuid w)) site
                (_onPromiseCompleted (run w1))) as Hf.
  pose proof (event_trace g (completion_listener (uuid w)) site
                (_onPromiseCompleted (run w1))) as Ht.
  destruct (event g (completion_listener (uuid w)) site
              (_onPromiseCompleted (run w1))) as [em' hd].
  simpl in Hf, Ht. simpl.
  destruct Hf as ((stk & Hl) & Hq & Hn & (r & Hce)).
  destruct Ht as (os' & Ht & Hqu).
  split.
  - unfold InvCore in *. simpl. rewrite history_set_emitter, Ht.
    rewrite effects_app, (effects_quiet Hqu), app_nil_r. exact Hc1.
  - destruct He as [Hl0 Hc0 Hq0 Hn0 Hce0].
    rewrite Hem in Hl, Hq, Hn, Hce.
    unfold listeners_of in Hl. simpl in Hl, Hq, Hn, Hce.
    fold (listeners_of (_onPromiseCompleted w)) in Hl.
    constructor; simpl; rewrite ?Hu.
    + unfold listeners_of. rewrite Hl. unfold LinkedList.toList.
      rewrite map_app, Hl0, seq_S, Hn0. reflexivity.
    + unfold listeners_of. rewrite Hl. unfold LinkedList.toList.
      rewrite map_app, Hc0, seq_S, map_app. reflexivity.
    + unfold queue_of in *. now rewrite Hq.
    + now rewrite Hn, Hn0.
    + rewrite Hce, map_app, Hce0, seq_S, Hn0. reflexivity.
Qed.

Lemma settle_inv p r w w' :
  InvCore w -> InvEm w -> settle p r w = Some w' -> InvCore w' /\ InvEm w'.
Proof.
  intros Hc He. unfold settle.
  destruct (promise_state p (promises w)) as [[| |]|] eqn:E; try discriminate.
  destruct (@core_settle _ _ _ _ _ _ _ p r Hc E) as (Ha & Hs & Hj & Hcore').
  simpl. rewrite Hs. simpl. rewrite Nat.eqb_refl. simpl.
  intros [= <-]. split.
  - unfold InvCore. simpl. rewrite Hj. exact Hcore'.
  - apply em_logged with (w := w) (os := []); auto.
    simpl. now rewrite log_nil.
Qed.

Lemma invoked_lt w i :
  InvCore w -> In (Invoked i) (history w) -> i < uuid w.
Proof.
  intros Hc Hin. apply in_invoked_ids in Hin.
  assert (H : In i (seq 0 (uuid w))).
  { rewrite <- (ic_fifo Hc). apply in_or_app. now left. }
  apply in_seq in H. lia.
Qed.

Lemma tick_inv g w w' :
  InvCore w -> InvEm w -> step g Tick w = Some w' -> InvCore w' /\ InvEm w'.
Proof.
  intros Hc He. simpl.
  destruct (jobs w) as [|[next r] rest] eqn:Ej; [discriminate|].
  destruct (core_job Hc Ej) as (Ha & -> & Hs & Hst).
  unfold InvCore in Hc. rewrite Ha, Hs, Ej in Hc.
  unfold resume. destruct r as [v|e].
  - remember (note [Announced next v] (set_active None (set_jobs [] w)))
      as w1 eqn:Ew1.
    assert (He1 : InvEm w1)
      by (subst w1; eapply em_logged; [exact He|reflexivity|reflexivity]).
    destruct (fire_completion (mkCompletion next v) He1)
      as (em' & resolves & Hfire & Heff & Hall & Hin & Hl & Hq & Hn & Hce).
    rewrite Hfire. intros [= <-].
    assert (Hlt : next < uuid w).
    { apply invoked_lt; [unfold InvCore; now rewrite Ha, Hs, Ej|].
      now destruct (ic_promise Hc _ Hst). }
    assert (Hc2 : InvCore (set_emitter em' w1)).
    { unfold InvCore. rewrite history_set_emitter, Heff.
      subst w1. simpl.
      change (effects _) with (history (note [Announced next v] w)).
      rewrite history_note, Hs. apply core_announce; auto. }
    split; [now apply run_core|].
    destruct (run_emitter (set_emitter em' w1)) as (os & Hem & Hu).
    apply em_logged with (w := set_emitter em' w1) (os := os); auto.
    destruct He1 as [Hl1 Hc1 Hq1 Hn1 Hce1].
    constructor; simpl; rewrite ?Hl, ?Hq, ?Hn, ?Hce; auto.
  - intros [= <-]. split.
    + unfold InvCore. simpl.
      change (history _) with (history (note [AwaitThrew next e] w)).
      rewrite history_note, Ha, Hs. now apply core_await_throws.
    + eapply em_logged; [exact He|reflexivity|reflexivity].
Qed.

Lemma step_inv g l w w' :
  InvCore w -> InvEm w -> step g l w = Some w' -> InvCore w' /\ InvEm w'.
Proof.
  destruct l as [f site|p r|].
  - intros Hc He [= <-]. now apply queue_inv.
  - apply settle_inv.
  - apply tick_inv.
Qed.

Lemma exec_inv g ls : forall w w',
  InvCore w -> InvEm w -> exec g ls w = Some w' -> InvCore w' /\ InvEm w'.
Proof.
  induction ls as [|l ls IH]; intros w w' Hc He; simpl.
  - intros [= <-]. auto.
  - destruct (step g l w) as [w1|] eqn:E; [|discriminate].
    destruct (step_inv _ _ Hc He E). now apply IH.
Qed.

Lemma init_inv g : InvCore (init g) /\ InvEm (init g).
Proof.
  split.
  - unfold InvCore. apply core_init.
  - constructor; reflexivity.
Qed.

Lemma reachable_inv g w : reachable g w -> InvCore w /\ InvEm w.
Proof.
  intros (ls & H). destruct (init_inv g). eapply exec_inv; eauto.
Qed.

(** The fuel given to [fire] is enough: a microtask can always be run. *)
Lemma tick_progress g w :
  reachable g w -> jobs w <> [] -> exists w', step g Tick w = Some w'.
Proof.
  intros Hr Hj. destruct (reachable_inv Hr) as (Hc & He). simpl.
  destruct (jobs w) as [|[next r] rest]; [congruence|].
  unfold resume. destruct r as [v|e]; [|eauto].
  match goal with
  | |- context [fire _ ?e ?em] =>
      assert (He1 : InvEm (note [Announced next v]
                             (set_active None (set_jobs rest w))))
        by (eapply em_logged; [exact He|reflexivity|reflexivity]);
      destruct (fire_completion e He1) as (em' & rs & Hfire & _)
  end.
  rewrite Hfire. eauto.
Qed.

Lemma exec_app g ls1 : forall ls2 w,
  exec g (ls1 ++ ls2) w =
  match exec g ls1 w with
  | Some w1 => exec g ls2 w1
  | None => None
  end.
Proof.
  induction ls1 as [|l ls1 IH]; intros ls2 w; simpl; [reflexivity|].
  destruct (step g l w); auto.
Qed.

Lemma reachable_exec g ls w w' :
  reachable g w -> exec g ls w = Some w' -> reachable g w'.
Proof.
  intros (ls0 & H0) H. exists (ls0 ++ ls). now rewrite exec_app, H0.
Qed.

Lemma step_uuid g l w w' : step g l w = Some w' -> uuid w <= uuid w'.
Proof.
  destruct l as [f site|p r|]; simpl.
  - intros [= <-]. unfold queue, generateUuid.
    match goal with
    | |- context [run ?x] => destruct (run_emitter x) as (os & _ & Hu)
    end.
    destruct (event _ _ _ _). simpl in *. lia.
  - unfold settle. destruct (promise_state p (promises w)) as [[| |]|];
      try discriminate.
    destruct (existsb _ _); intros [= <-]; simpl; lia.
  - destruct (jobs w) as [|[next r] rest]; [discriminate|].
    unfold resume. destruct r as [v|e]; [|intros [= <-]; simpl; lia].
    destruct (fire _ _ _) as [em|err em|]; try discriminate;
      intros [= <-]; [|simpl; lia].
    match goal with
    | |- context [run ?x] => destruct (run_emitter x) as (os & _ & Hu)
    end.
    simpl in *. lia.
Qed.

(** Once the promise of a task is rejected, a step neither touches it nor
    calls a factory. *)
Lemma stuck_step g l w w' i e :
  InvCore w ->
  promise_state i (promises w) = Some (Rejected e) ->
  step g l w = Some w' ->
  promise_state i (promises w') = Some (Rejected e)
  /\ invoked_ids (history w') = invoked_ids (history w).
Proof.
  intros Hc Hrej.
  assert (Ha : activePromise w = Some i).
  { destruct (ic_promise Hc _ Hrej) as (_ & [H|(v & [=] & _)]). exact H. }
  pose proof (ic_active Hc) as Hact. rewrite Ha in Hact.
  destruct Hact as (st & Hst & Hact). rewrite Hrej in Hst.
  injection Hst as <-. destruct Hact as (Hs & Hj).
  destruct l as [f site|p r|]; simpl.
  - intros [= <-]. unfold queue, generateUuid.
    match goal with
    | |- context [run ?x] =>
        assert (Hrun : run x = x)
    end.
    { unfold run. simpl. rewrite Ha.
      now destruct (queuedPromiseFactory w ++ _) as [|[? ?] ?]. }
    rewrite Hrun.
    match goal with
    | |- context [event ?g ?cb ?site ?em] =>
        destruct (event_trace g cb site em) as (os & Ht & Hq);
        destruct (event g cb site em) as [em' hd]
    end.
    simpl in *. split; [assumption|].
    rewrite history_set_emitter, Ht, !effects_app, (effects_quiet Hq).
    rewrite !invoked_ids_app. simpl. now rewrite !app_nil_r.
  - unfold settle.
    destruct (promise_state p (promises w)) as [[| |]|] eqn:E;
      try discriminate.
    destruct (@core_settle _ _ _ _ _ _ _ p r Hc E) as (Hp & _).
    rewrite Ha in Hp. injection Hp as ->. congruence.
  - destruct Hj as [Hj|Hj]; rewrite Hj; [|discriminate].
    simpl. intros [= <-]. simpl. split; [assumption|].
    rewrite history_note, invoked_ids_app. simpl. now rewrite app_nil_r.
Qed.

Lemma stuck_exec g ls : forall w w' i e,
  InvCore w -> InvEm w ->
  promise_state i (promises w) = Some (Rejected e) ->
  exec g ls w = Some w' ->
  promise_state i (promises w') = Some (Rejected e)
  /\ invoked_ids (history w') = invoked_ids (history w).
Proof.
  induction ls as [|l ls IH]; intros w w' i e Hc He Hrej; simpl.
  - intros [= <-]. auto.
  - destruct (step g l w) as [w1|] eqn:E; [|discriminate].
    destruct (step_inv _ _ Hc He E) as (Hc1 & He1).
    destruct (stuck_step _ _ _ Hc Hrej E) as (Hrej1 & Hi1).
    intros H. destruct (IH _ _ _ _ Hc1 He1 Hrej1 H) as (H1 & H2).
    split; [assumption|congruence].
Qed.

End ThrottlerFacts.

(** ** The throttler with factories that call [queue] *)

Module ThrottlerRunFacts.

Import Throttler ThrottlerFacts.

Ltac conjuncts := repeat match goal with |- _ /\ _ => split end.

(** The listeners are completion listeners of tasks that satisfy [P],
    and nothing is left on the delivery queue. *)
Definition owned (P : nat -> Prop) (em : Emitter Completion Ev) : Prop :=
  Forall (fun l => exists i, P i /\ callback l = completion_listener i)
    (listeners_of em)
  /\ queue_of em = [].

(** Two emitters the leak monitor cannot tell apart. *)
Definition alike (em1 em2 : Emitter Completion Ev) : Prop :=
  _leakageMon em1 = _leakageMon em2
  /\ List.length (listeners_of em1) = List.length (listeners_of em2)
  /\ warnings (trace em1) = warnings (trace em2).

Lemma alike_refl em : alike em em.
Proof. now conjuncts. Qed.

Lemma alike_trans em1 em2 em3 : alike em1 em2 -> alike em2 em3 -> alike em1 em3.
Proof.
  intros (H1 & H2 & H3) (H4 & H5 & H6). unfold alike. conjuncts; congruence.
Qed.

Lemma completion_listener_inj i j :
  completion_listener i = completion_listener j -> i = j.
Proof.
  intros H.
  apply (f_equal (fun cb => cb (mkCompletion i EmptyString))) in H.
  unfold completion_listener in H. simpl in H. rewrite Nat.eqb_refl in H.
  destruct (i =? j) eqn:E; [now apply Nat.eqb_eq|discriminate].
Qed.

Lemma warnings_effects (evs : list Ev) :
  warnings (map (@OEffect Completion Ev) evs) = [].
Proof. induction evs; simpl; auto. Qed.

Lemma warnings_pushes (ps : list (Listener Completion Ev * Completion)) :
  warnings (pushes ps) = [].
Proof. induction ps; simpl; auto. Qed.

Lemma warnings_delivery (ps : list (Listener Completion Ev * Completion)) :
  warnings (flat_map (@delivery Completion Ev) ps) = [].
Proof.
  induction ps as [|p ps IH]; simpl; [reflexivity|].
  now rewrite warnings_app, warnings_effects.
Qed.

Lemma alike_log evs em : alike (log (map OEffect evs) em) em.
Proof.
  unfold alike. conjuncts; try reflexivity. simpl.
  now rewrite warnings_app, warnings_effects, app_nil_r.
Qed.

Lemma owned_log P os em : owned P em -> owned P (log os em).
Proof. intros H. exact H. Qed.

(** [fire] on the emitter of a throttler: it returns, and resolves the
    promise of the task named by the event if its listener is there. *)
Lemma fire_listeners P em e :
  owned P em ->
  exists em' resolves,
    fire (fire_fuel e em) e em = Done em'
    /\ effects (trace em') = effects (trace em) ++ resolves
    /\ (forall x,
          In x resolves -> x = Resolved (id e) (result e) /\ P (id e))
    /\ owned P em'
    /\ _disposed em' = _disposed em
    /\ alike em' em.
Proof.
  intros [Ho Hq].
  destruct (_listeners em) as [ls|] eqn:El.
  - assert (Els : listeners_of em = ls)
      by (unfold listeners_of; now rewrite El).
    rewrite Els in Ho.
    assert (Hin : all_inert (queue_of em ++ pairs ls e)).
    { rewrite Hq. simpl. apply all_inert_pairs.
      eapply Forall_impl; [|exact Ho].
      intros l (i & _ & Hcb). rewrite Hcb. apply completion_listener_inert. }
    eexists.
    exists (flat_map (fun p => payload (callback (fst p) (snd p)))
              (pairs ls e)).
    split; [apply fire_inert with (ls := ls); auto|].
    cbn [trace log set_deliveryQueue]. rewrite Hq. simpl app.
    rewrite !effects_app, effects_pushes, effects_delivery. simpl app.
    split; [reflexivity|]. split.
    { intros x Hx. apply in_flat_map in Hx.
      destruct Hx as ([l e'] & Hp & Hx). apply in_map_iff in Hp.
      destruct Hp as (l' & [= -> ->] & Hl'). simpl in Hx.
      rewrite Forall_forall in Ho. destruct (Ho _ Hl') as (i & HP & Hcb).
      rewrite Hcb in Hx. apply completion_listener_payload in Hx.
      destruct Hx as [Hid ->]. split; [reflexivity|]. now rewrite Hid. }
    unfold owned, alike, listeners_of, queue_of. simpl. rewrite El.
    rewrite !warnings_app, warnings_pushes, warnings_delivery, !app_nil_r.
    conjuncts; auto.
  - exists em, []. unfold fire_fuel. rewrite fire_S, El, app_nil_r.
    conjuncts; auto; try reflexivity.
    + intros x [].
    + split; [exact Ho|exact Hq].
    + apply alike_refl.
Qed.

Lemma event_alike g cb1 cb2 site em1 em2 :
  alike em1 em2 ->
  alike (fst (event g cb1 site em1)) (fst (event g cb2 site em2)).
Proof.
  intros (Hm & Hl & Hw).
  destruct (event_monitor g cb1 site em1) as [Hm1 Hw1].
  destruct (event_monitor g cb2 site em2) as [Hm2 Hw2].
  destruct (event_fields g cb1 site em1) as ((stk1 & Hl1) & _).
  destruct (event_fields g cb2 site em2) as ((stk2 & Hl2) & _).
  cbv zeta in *. unfold alike. conjuncts.
  - rewrite Hm1, Hm2, Hm, Hl. reflexivity.
  - unfold listeners_of at 1 2. rewrite Hl1, Hl2. unfold LinkedList.toList.
    rewrite !length_app, Hl. reflexivity.
  - rewrite Hw1, Hw2, Hm, Hl, Hw. reflexivity.
Qed.

Lemma future_app_none j h more :
  (forall v, ~ In (Resolved j v) more) ->
  future j (h ++ more) = future j h.
Proof.
  intros Hn. induction h as [|x h IH]; simpl.
  - destruct (future j more) as [v|] eqn:E; [|reflexivity].
    apply future_In in E. now apply Hn in E.
  - destruct x; auto. destruct (taskId =? j); auto.
Qed.


(** *** Enough fuel *)

Lemma weight_pos f : 1 <= weight f.
Proof. destruct f; simpl; lia. Qed.

Lemma queued_weight_app q f i w :
  queuedPromiseFactory w = q ->
  fold_right (fun p n => weight (snd p) + n) 0 (q ++ [(i, f)])
  = queued_weight w + weight f.
Proof.
  intros <-. unfold queued_weight.
  induction (queuedPromiseFactory w) as [|p q IH]; simpl; lia.
Qed.

Lemma started_queued next r w :
  queuedPromiseFactory (started next r w) = queuedPromiseFactory w.
Proof. destruct r; reflexivity. Qed.

(** With the fuel [step] gives them, [run], the factories and [queue]
    return. *)
Lemma fuel_enough g n :
  (forall w,
      2 * queued_weight w + 1 <= n ->
      exists w', run n g w = Some w' /\ queued_weight w' <= queued_weight w)
  /\ (forall f w,
        2 * (weight f + queued_weight w) <= n ->
        exists w' r,
          call n g f w = Some (w', r)
          /\ queued_weight w' + 1 <= queued_weight w + weight f)
  /\ (forall f site w,
        2 * (weight f + queued_weight w) + 2 <= n ->
        exists w' i,
          queue n g f site w = Some (w', i)
          /\ queued_weight w' <= queued_weight w + weight f).
Proof.
  induction n as [|n (IHr & IHc & IHq)].
  - split; [|split].
    + intros w H. lia.
    + intros f w H. pose proof (weight_pos f). lia.
    + intros f site w H. lia.
  - split; [|split].
    + intros w H. cbn [run].
      destruct (queuedPromiseFactory w) as [|[next task] rest] eqn:Eq;
        [eauto|].
      destruct (activePromise w) as [a|] eqn:Ea; [eauto|].
      assert (Hw : queued_weight w = weight task
                                     + queued_weight
                                         (note [Invoked next]
                                            (set_queued rest w))).
      { unfold queued_weight. rewrite Eq. reflexivity. }
      destruct (IHc task (note [Invoked next] (set_queued rest w)))
        as (w2 & r & Hcall & Hle); [lia|].
      rewrite Hcall. eexists. split; [reflexivity|].
      unfold queued_weight in *. rewrite started_queued. lia.
    + intros f w H. cbn [call].
      destruct f as [|v|e|e|inner site rest];
        try (eexists; eexists; split; [reflexivity|simpl; lia]).
      simpl in H. pose proof (weight_pos rest) as Hr.
      destruct (IHq inner site w) as (w2 & i & Hq & Hle); [lia|].
      rewrite Hq.
      destruct (IHc rest w2) as (w3 & r & Hc & Hle3); [lia|].
      rewrite Hc. eexists. eexists. split; [reflexivity|]. simpl. lia.
    + intros f site w H. cbn [queue]. unfold generateUuid.
      match goal with
      | |- context [run n g ?w1] =>
          assert (Hw : queued_weight w1 = queued_weight w + weight f)
            by (apply (queued_weight_app f (uuid w) w); reflexivity);
          destruct (IHr w1) as (w2 & Hr & Hle); [lia|]
      end.
      rewrite Hr.
      destruct (event g (completion_listener (uuid w)) site
                  (_onPromiseCompleted w2)) as [em' hd].
      eexists. eexists. split; [reflexivity|].
      change (queued_weight (set_emitter em' w2)) with (queued_weight w2).
      lia.
Qed.


Lemma run_returns g w em :
  exists w', run (run_fuel w) g (set_emitter em w) = Some w'.
Proof.
  destruct (proj1 (fuel_enough g (run_fuel w)) (set_emitter em w))
    as (w' & H & _); [unfold run_fuel; simpl; unfold queued_weight; simpl; lia|].
  eauto.
Qed.

(** *** What the calls do to the emitter and to the history *)

(** From the emitter [em], when [u] tokens have been generated, to the
    emitter [em'], when [u'] have. *)
Record Frame (g : Z) (em : Emitter Completion Ev) (u : nat)
    (em' : Emitter Completion Ev) (u' : nat) : Prop := mkFrame {
  f_uuid : u <= u';
  f_next : nextLid em' + u = nextLid em + u';
  f_disposed : _disposed em' = _disposed em;
  f_lids :
    map (@lid Completion Ev) (listeners_of em') =
    map (@lid Completion Ev) (listeners_of em) ++ seq (nextLid em) (u' - u);
  f_cells :
    map fst (_cells em') = map fst (_cells em) ++ seq (nextLid em) (u' - u);
  f_history :
    exists more,
      effects (trace em') = effects (trace em) ++ more
      /\ queued_ids more = seq u (u' - u)
      /\ forall P : nat -> Prop,
          owned P em ->
          (forall i, u <= i -> P i) ->
          owned P em' /\ forall j v, In (Resolved j v) more -> P j;
  f_alike :
    exists sites,
      List.length sites = u' - u
      /\ forall (cb : Callback Completion Ev) em2,
          alike em em2 ->
          alike em' (subscribe_all g (map (fun s => (cb, s)) sites) em2)
}.

Definition FrameW (g : Z) (w w' : World) : Prop :=
  Frame g (_onPromiseCompleted w) (uuid w) (_onPromiseCompleted w') (uuid w').

Lemma frame_refl g em u : Frame g em u em u.
Proof.
  constructor; rewrite ?Nat.sub_diag, ?app_nil_r; auto.
  - exists []. rewrite app_nil_r. conjuncts; auto.
    intros P Ho _. split; [exact Ho|intros j v []].
  - exists []. conjuncts; auto.
Qed.

Lemma subscribe_all_app g (subs1 subs2 : list (Callback Completion Ev * string))
    em :
  subscribe_all g (subs1 ++ subs2) em =
  subscribe_all g subs2 (subscribe_all g subs1 em).
Proof. unfold subscribe_all. apply fold_left_app. Qed.

Lemma frame_trans g em1 u1 em2 u2 em3 u3 :
  Frame g em1 u1 em2 u2 -> Frame g em2 u2 em3 u3 -> Frame g em1 u1 em3 u3.
Proof.
  intros [Hu1 Hn1 Hd1 Hl1 Hc1 (m1 & Hh1 & Hq1 & Ho1) (s1 & Hs1 & Ha1)]
         [Hu2 Hn2 Hd2 Hl2 Hc2 (m2 & Hh2 & Hq2 & Ho2) (s2 & Hs2 & Ha2)].
  assert (Hseq : forall n,
             seq n (u2 - u1) ++ seq (n + (u2 - u1)) (u3 - u2)
             = seq n (u3 - u1)).
  { intros n. rewrite <- seq_app. f_equal. lia. }
  assert (En : nextLid em2 = nextLid em1 + (u2 - u1)) by lia.
  constructor; try lia; try congruence.
  - rewrite Hl2, Hl1, <- app_assoc, En. f_equal. apply Hseq.
  - rewrite Hc2, Hc1, <- app_assoc, En. f_equal. apply Hseq.
  - exists (m1 ++ m2). conjuncts.
    + now rewrite Hh2, Hh1, app_assoc.
    + rewrite queued_ids_app, Hq1, Hq2, <- (Hseq u1).
      do 2 f_equal. lia.
    + intros P Ho HP. destruct (Ho1 P Ho HP) as [Ho' Hm1].
      destruct (Ho2 P Ho') as [Ho'' Hm2]; [intros i Hi; apply HP; lia|].
      split; [exact Ho''|]. intros j v H. apply in_app_or in H.
      destruct H; eauto.
  - exists (s1 ++ s2). split; [rewrite length_app; lia|].
    intros cb em0 Hal. rewrite map_app, subscribe_all_app.
    apply Ha2. now apply Ha1.
Qed.

(** Notes that are neither [Queued] nor [Resolved]. *)
Definition plain_note (ev : Ev) : Prop :=
  match ev with
  | Queued _ | Resolved _ _ => False
  | _ => True
  end.

Lemma frame_log g em u evs :
  Forall plain_note evs -> Frame g em u (log (map OEffect evs) em) u.
Proof.
  intros Hp.
  constructor; rewrite ?Nat.sub_diag, ?app_nil_r; auto.
  - exists evs. simpl. rewrite effects_app, effects_effects. conjuncts; auto.
    + induction Hp as [|ev evs Hev _ IH]; [reflexivity|].
      destruct ev; simpl in *; tauto.
    + intros P Ho _. split; [exact Ho|]. intros j v H.
      rewrite Forall_forall in Hp. apply Hp in H. destruct H.
  - exists []. split; [reflexivity|]. intros cb em2 Hal. simpl.
    eapply alike_trans; [apply alike_log|exact Hal].
Qed.

Lemma frame_started g next r w : FrameW g w (started next r w).
Proof.
  destruct r; try apply frame_refl.
  apply (@frame_log g (_onPromiseCompleted w) (uuid w) [Threw next e]).
  repeat constructor.
Qed.

(** Registering the listener of a task that was queued when [u] tokens
    had been generated, after the calls [run] made in between. *)
Lemma frame_queue g em0 u em2 u2 site :
  Frame g (log (map OEffect [Queued u]) em0) (S u) em2 u2 ->
  Frame g em0 u (fst (event g (completion_listener u) site em2)) u2.
Proof.
  intros [Hu Hn Hd Hl Hc (m & Hh & Hq & Ho) (s & Hs & Ha)].
  destruct (event_fields g (completion_listener u) site em2)
    as ((stk & Hl') & Hq' & Hn' & (r & Hc')).
  destruct (event_trace g (completion_listener u) site em2)
    as (os & Ht & Hqu).
  destruct (event_frame g (completion_listener u) site em2) as [Hd' _].
  cbv zeta in *. simpl in Hn, Hd, Hl, Hc, Hh.
  assert (Hseq : forall n, seq n (u2 - S u) ++ [n + (u2 - S u)]
                           = seq n (u2 - u)).
  { intros n. replace (u2 - u) with (S (u2 - S u)) by lia.
    now rewrite seq_S. }
  assert (En : nextLid em2 = nextLid em0 + (u2 - S u)) by lia.
  constructor; try lia; try congruence.
  - unfold listeners_of at 1. rewrite Hl'. unfold LinkedList.toList.
    rewrite map_app, Hl, <- app_assoc. simpl. rewrite En. f_equal.
    apply Hseq.
  - rewrite Hc', map_app, Hc, <- app_assoc. simpl. rewrite En. f_equal.
    apply Hseq.
  - exists (Queued u :: m). conjuncts.
    + rewrite Ht, effects_app, (effects_quiet Hqu), app_nil_r, Hh.
      rewrite effects_app. simpl. rewrite <- app_assoc. reflexivity.
    + simpl. rewrite Hq. replace (u2 - u) with (S (u2 - S u)) by lia.
      reflexivity.
    + intros P Ho0 HP. destruct (Ho P) as [[Ho2 Hq2] Hm].
      { exact Ho0. }
      { intros i Hi. apply HP. lia. }
      split.
      * split.
        { unfold listeners_of at 1. rewrite Hl'. unfold LinkedList.toList.
          apply Forall_app. split; [exact Ho2|].
          constructor; [|constructor]. exists u. simpl. auto. }
        { unfold queue_of in *. now rewrite Hq'. }
      * intros j v [H|H]; [discriminate|eauto].
  - exists (s ++ [site]). split; [rewrite length_app; simpl; lia|].
    intros cb em3 Hal. rewrite map_app, subscribe_all_app.
    unfold subscribe_all at 1. simpl. apply event_alike. apply Ha.
    eapply alike_trans; [apply (alike_log [Queued u])|exact Hal].
Qed.

Lemma frames g n :
  (forall w w', run n g w = Some w' -> FrameW g w w')
  /\ (forall f w w' r, call n g f w = Some (w', r) -> FrameW g w w')
  /\ (forall f site w w' i,
        queue n g f site w = Some (w', i) -> FrameW g w w' /\ i = uuid w).
Proof.
  induction n as [|n (IHr & IHc & IHq)]; [now conjuncts|].
  conjuncts.
  - intros w w'. cbn [run].
    destruct (queuedPromiseFactory w) as [|[next task] rest];
      [intros [= <-]; apply frame_refl|].
    destruct (activePromise w); [intros [= <-]; apply frame_refl|].
    destruct (call n g task _) as [[w2 r]|] eqn:Ec; [|discriminate].
    intros [= <-]. apply IHc in Ec.
    eapply frame_trans; [|apply frame_started].
    eapply frame_trans; [|exact Ec].
    apply (@frame_log g (_onPromiseCompleted w) (uuid w) [Invoked next]).
    repeat constructor.
  - intros f w w' r. cbn [call].
    destruct f as [|v|e|e|inner site rest];
      try (intros [= <- _]; apply frame_refl).
    destruct (queue n g inner site w) as [[w2 i]|] eqn:Eq; [|discriminate].
    intros Ec. apply IHq in Eq. apply IHc in Ec.
    eapply frame_trans; [apply Eq|exact Ec].
  - intros f site w w' i. cbn [queue]. unfold generateUuid.
    destruct (run n g _) as [w2|] eqn:Er; [|discriminate].
    apply IHr in Er.
    destruct (event g (completion_listener (uuid w)) site
                (_onPromiseCompleted w2)) as [em' hd] eqn:Ee.
    intros [= <- <-]. split; [|reflexivity].
    unfold FrameW. cbn [_onPromiseCompleted uuid set_emitter].
    replace em' with (fst (event g (completion_listener (uuid w)) site
                             (_onPromiseCompleted w2)))
      by (now rewrite Ee).
    apply frame_queue. exact Er.
Qed.

(** [fire] on the emitter of a throttler returns, and resolves the
    promise of the task named by the event if its listener is there. *)
Lemma fire_frame g em e u :
  owned (fun _ => True) em ->
  exists em',
    fire (fire_fuel e em) e em = Done em' /\ Frame g em u em' u.
Proof.
  intros Ho.
  destruct (@fire_listeners (fun _ => True) em e Ho)
    as (em' & resolves & Hfire & Heff & Hres & Ho' & Hd & Hal).
  exists em'. split; [exact Hfire|].
  assert (Hsame : listeners_of em' = listeners_of em
                  /\ _cells em' = _cells em /\ nextLid em' = nextLid em).
  { destruct Ho as [Ho Hq].
    destruct (_listeners em) as [ls|] eqn:El.
    - assert (Els : listeners_of em = ls)
        by (unfold listeners_of; now rewrite El).
      assert (Hin : all_inert (queue_of em ++ pairs ls e)).
      { rewrite Hq. simpl. apply all_inert_pairs. rewrite <- Els.
        eapply Forall_impl; [|exact Ho].
        intros l (i & _ & Hcb). rewrite Hcb.
        apply completion_listener_inert. }
      rewrite (@fire_inert _ _ em ls e (fire_fuel e em) El Hin (le_n _))
        in Hfire.
      injection Hfire as <-. unfold listeners_of. simpl. rewrite El. auto.
    - unfold fire_fuel in Hfire. rewrite fire_S, El in Hfire.
      injection Hfire as <-. auto. }
  destruct Hsame as (Hl & Hc & Hn).
  constructor; rewrite ?Nat.sub_diag, ?app_nil_r; auto; try congruence;
    try lia.
  - exists resolves. conjuncts; auto.
    + clear - Hres. induction resolves as [|x xs IH]; [reflexivity|].
      destruct (Hres x (or_introl eq_refl)) as [-> _]. simpl.
      apply IH. intros y Hy. apply Hres. now right.
    + intros P HoP _.
      destruct (@fire_listeners P em e HoP)
        as (em2 & res2 & Hfire2 & Heff2 & Hres2 & Ho2 & _).
      rewrite Hfire in Hfire2. injection Hfire2 as <-.
      rewrite Heff in Heff2. apply app_inv_head in Heff2. subst res2.
      split; [exact Ho2|]. intros j v H.
      destruct (Hres2 _ H) as [[= -> _] HP]. exact HP.
  - exists []. split; [reflexivity|]. intros cb em2 Hal2. simpl.
    eapply alike_trans; eauto.
Qed.

Lemma step_frame g l w w' :
  owned (fun _ => True) (_onPromiseCompleted w) ->
  step g l w = Some w' ->
  FrameW g w w'.
Proof.
  intros Ho. destruct l as [f site|p r|]; simpl.
  - destruct (queue _ g f site w) as [[w2 i]|] eqn:Eq; [|discriminate].
    intros [= <-]. now apply (proj2 (proj2 (frames g _))) in Eq.
  - unfold settle.
    destruct (promise_state p (promises w)) as [[| |]|]; try discriminate.
    destruct (existsb _ _); intros [= <-]; apply frame_refl.
  - destruct (jobs w) as [|[next r] rest]; [discriminate|].
    unfold resume. destruct r as [v|e].
    + match goal with
      | |- context [fire _ ?e ?em] =>
          destruct (@fire_frame g em e (uuid w) Ho) as (em2 & Hfire & Hfr)
      end.
      rewrite Hfire. intros Hrun.
      apply (proj1 (frames g _)) in Hrun.
      eapply frame_trans; [|exact Hrun].
      eapply frame_trans; [|exact Hfr].
      apply (@frame_log g (_onPromiseCompleted w) (uuid w) [Announced next v]).
      repeat constructor.
    + intros [= <-].
      apply (@frame_log g (_onPromiseCompleted w) (uuid w) [AwaitThrew next e]).
      repeat constructor.
Qed.

Lemma frame_owned g w w' :
  FrameW g w w' ->
  owned (fun _ => True) (_onPromiseCompleted w) ->
  owned (fun _ => True) (_onPromiseCompleted w').
Proof.
  intros [_ _ _ _ _ (m & _ & _ & H) _] Ho.
  now destruct (H (fun _ => True) Ho (fun _ _ => I)).
Qed.

Lemma exec_frame g ls : forall w w',
  owned (fun _ => True) (_onPromiseCompleted w) ->
  exec g ls w = Some w' ->
  FrameW g w w'.
Proof.
  induction ls as [|l ls IH]; intros w w' Ho; simpl.
  - intros [= <-]. apply frame_refl.
  - destruct (step g l w) as [w1|] eqn:Es; [|discriminate]. intros He.
    pose proof (@step_frame g l w w1 Ho Es) as H1.
    eapply frame_trans; [exact H1|].
    apply IH; [|exact He]. exact (frame_owned H1 Ho).
Qed.

Lemma init_owned g P : owned P (_onPromiseCompleted (init g)).
Proof. split; [constructor|reflexivity]. Qed.

Lemma reachable_frame g w : reachable g w -> FrameW g (init g) w.
Proof.
  intros (ls & He). exact (@exec_frame g ls (init g) w (init_owned g _) He).
Qed.

Lemma reachable_owned g w :
  reachable g w ->
  owned (fun _ => True) (_onPromiseCompleted w)
  /\ _disposed (_onPromiseCompleted w) = false.
Proof.
  intros Hr. pose proof (reachable_frame Hr) as Hf.
  split; [exact (frame_owned Hf (init_owned g _))|].
  rewrite (f_disposed Hf). reflexivity.
Qed.

Lemma reachable_step g l w w' :
  reachable g w -> step g l w = Some w' -> reachable g w'.
Proof.
  intros (ls & He) Hs. exists (ls ++ [l]).
  revert He. generalize (init g). induction ls as [|l0 ls IH]; intros w0.
  - simpl. intros [= ->]. now rewrite Hs.
  - simpl. destruct (step g l0 w0); [apply IH|discriminate].
Qed.

(** A microtask that is waiting can be run. *)
Lemma tick_progress_owned g w :
  owned (fun _ => True) (_onPromiseCompleted w) ->
  jobs w <> [] ->
  exists w', step g Tick w = Some w'.
Proof.
  intros Ho Hj. simpl. destruct (jobs w) as [|[next r] rest]; [congruence|].
  unfold resume. destruct r as [v|e]; [|eauto].
  match goal with
  | |- context [fire _ ?e ?em] =>
      destruct (@fire_frame g em e 0 Ho) as (em2 & Hfire & _)
  end.
  rewrite Hfire. apply run_returns.
Qed.

(** *** No task waits while nothing runs, unless a factory threw *)

Definition served (w : World) : Prop :=
  activePromise w = None ->
  queuedPromiseFactory w = [] \/ exists i e, In (Threw i e) (history w).

Lemma run_served g n w w' : run n g w = Some w' -> served w'.
Proof.
  destruct n as [|n]; [discriminate|]. cbn [run].
  destruct (queuedPromiseFactory w) as [|[next task] rest] eqn:Eq.
  - intros [= <-] _. now left.
  - destruct (activePromise w) as [a|] eqn:Ea.
    + intros [= <-] Hn. congruence.
    + destruct (call n g task _) as [[w2 r]|]; [|discriminate].
      intros [= <-] Hn.
      destruct r as [|v|e|e]; try discriminate.
      right. exists next, e. unfold started. rewrite history_note.
      apply in_or_app. right. simpl. auto.
Qed.

Lemma step_served g l w w' :
  reachable g w -> served w -> step g l w = Some w' -> served w'.
Proof.
  intros Hr Hs. destruct l as [f site|p r|]; simpl.
  - destruct (queue _ g f site w) as [[w2 i]|] eqn:Eq; [|discriminate].
    intros [= <-]. revert Eq.
    generalize (queue_fuel f w). intros n. destruct n as [|n]; [discriminate|].
    cbn [queue]. unfold generateUuid.
    destruct (run n g _) as [w3|] eqn:Er; [|discriminate].
    apply run_served in Er.
    destruct (event_trace g (completion_listener (uuid w)) site
                (_onPromiseCompleted w3)) as (os & Ht & Hqu).
    destruct (event g (completion_listener (uuid w)) site
                (_onPromiseCompleted w3)) as [em' hd].
    simpl in Ht. intros [= <- _] Hn. simpl in Hn.
    destruct (Er Hn) as [H|(i0 & e & H)]; [now left|].
    right. exists i0, e. rewrite history_set_emitter, Ht.
    rewrite effects_app, (effects_quiet Hqu), app_nil_r. exact H.
  - unfold settle.
    destruct (promise_state p (promises w)) as [[| |]|]; try discriminate.
    destruct (existsb _ _); intros [= <-]; exact Hs.
  - destruct (jobs w) as [|[next r] rest] eqn:Ej; [discriminate|].
    unfold resume. destruct r as [v|e].
    + destruct (reachable_owned Hr) as [Ho _].
      match goal with
      | |- context [fire _ ?e ?em] =>
          destruct (@fire_frame g em e 0 Ho) as (em2 & Hfire & _)
      end.
      rewrite Hfire. apply run_served.
    + intros [= <-] Hn. simpl in Hn.
      destruct (Hs Hn) as [H|(i0 & e0 & H)]; [now left|].
      right. exists i0, e0. rewrite history_note. apply in_or_app. now left.
Qed.

Lemma reachable_served g w : reachable g w -> served w.
Proof.
  intros (ls & He).
  assert (H : forall w0, reachable g w0 -> served w0 ->
                         exec g ls w0 = Some w -> served w).
  { clear He. induction ls as [|l ls IH]; intros w0 Hr Hs; simpl.
    - now intros [= <-].
    - destruct (step g l w0) as [w1|] eqn:Es; [|discriminate].
      apply IH.
      + exact (@reachable_step g l w0 w1 Hr Es).
      + exact (@step_served g l w0 w1 Hr Hs Es). }
  apply (H (init g)); [exists []; reflexivity| |exact He].
  intros _. now left.
Qed.

(** *** Factories that do not call [queue] *)

Definition plain_queue (w : World) : Prop :=
  Forall (fun p => plain (snd p) = true) (queuedPromiseFactory w).

Lemma serial_call g n f w :
  plain f = true -> call (S n) g f w = Some (w, Serial.result_of f).
Proof. destruct f; simpl; congruence. Qed.

Lemma serial_run g n w :
  plain_queue w ->
  run (S (S n)) g w = Some (Serial.run w) /\ plain_queue (Serial.run w).
Proof.
  intros Hp. unfold Serial.run, plain_queue in *. cbn [run].
  destruct (queuedPromiseFactory w) as [|[next task] rest] eqn:Eq;
    [now rewrite Eq|].
  destruct (activePromise w) as [a|]; [now rewrite Eq|].
  inversion Hp as [|? ? Htask Hrest]; subst.
  rewrite serial_call by exact Htask.
  split; [reflexivity|]. now rewrite started_queued.
Qed.

Lemma serial_queue g n f site w :
  plain_queue w ->
  plain f = true ->
  queue (S (S (S n))) g f site w = Some (Serial.queue g f site w)
  /\ plain_queue (fst (Serial.queue g f site w)).
Proof.
  intros Hp Hf. cbn [queue]. unfold Serial.queue, generateUuid.
  match goal with
  | |- context [run (S (S n)) g ?w1] =>
      destruct (@serial_run g n w1) as [Hr Hp1];
      [apply Forall_app; split; [exact Hp|repeat constructor; exact Hf]|]
  end.
  rewrite Hr.
  destruct (event g (completion_listener (uuid w)) site _) as [em' hd].
  split; [reflexivity|exact Hp1].
Qed.

Lemma serial_step g l w :
  plain_queue w ->
  plain_label l = true ->
  step g l w = Serial.step g l w
  /\ forall w', step g l w = Some w' -> plain_queue w'.
Proof.
  intros Hp Hl. destruct l as [f site|p r|]; simpl in *.
  - unfold queue_fuel.
    replace (2 * (weight f + queued_weight w) + 4)
      with (S (S (S (2 * (weight f + queued_weight w) + 1)))) by lia.
    destruct (@serial_queue g (2 * (weight f + queued_weight w) + 1)
                f site w Hp Hl) as [Hq Hp'].
    rewrite Hq. simpl. split; [reflexivity|]. now intros w' [= <-].
  - split; [reflexivity|]. unfold settle.
    destruct (promise_state p (promises w)) as [[| |]|]; try discriminate.
    destruct (existsb _ _); intros w' [= <-]; exact Hp.
  - split.
    + destruct (jobs w) as [|[next r] rest]; [reflexivity|].
      unfold resume, Serial.resume. destruct r as [v|e]; [|reflexivity].
      destruct (fire _ _ _) as [em|err em|]; try reflexivity.
      unfold run_fuel.
      replace (2 * queued_weight _ + 2)
        with (S (S (2 * queued_weight
                          (note [Announced next v]
                             (set_active None (set_jobs rest w))))))
        by lia.
      now apply serial_run.
    + destruct (jobs w) as [|[next r] rest]; [discriminate|].
      unfold resume. destruct r as [v|e].
      * destruct (fire _ _ _) as [em|err em|]; try discriminate.
        { unfold run_fuel.
          replace (2 * queued_weight _ + 2)
            with (S (S (2 * queued_weight
                              (note [Announced next v]
                                 (set_active None (set_jobs rest w))))))
            by lia.
          intros w' Hr.
          destruct (@serial_run g
                      (2 * queued_weight
                             (note [Announced next v]
                                (set_active None (set_jobs rest w))))
                      (set_emitter em
                         (note [Announced next v]
                            (set_active None (set_jobs rest w)))) Hp)
            as [Hr' Hp'].
          rewrite Hr' in Hr. injection Hr as <-. exact Hp'. }
        { intros w' [= <-]. exact Hp. }
      * intros w' [= <-]. exact Hp.
Qed.

Lemma serial_exec g ls : forall w,
  plain_queue w ->
  forallb plain_label ls = true ->
  exec g ls w = Serial.exec g ls w
  /\ forall w', exec g ls w = Some w' -> plain_queue w'.
Proof.
  induction ls as [|l ls IH]; intros w Hp Hl; simpl in *.
  - split; [reflexivity|]. now intros w' [= <-].
  - apply andb_prop in Hl. destruct Hl as [Hl Hls].
    destruct (@serial_step g l w Hp Hl) as [Hs Hp'].
    rewrite <- Hs. destruct (step g l w) as [w1|]; [|now split].
    apply IH; auto.
Qed.

Lemma init_plain g : plain_queue (init g).
Proof. constructor. Qed.

End ThrottlerRunFacts.

(** ** Promises keep their state *)

Module ThrottlerPromiseFacts.

Import Throttler ThrottlerFacts ThrottlerRunFacts.

(** Tasks in the queue have no promise yet, a microtask belongs to a
    promise that has settled that way, and only the result of a
    fulfilled promise is announced and resolves its caller. *)
Record Kept (w : World) : Prop := mkKept {
  k_queue :
    forall i f,
      In (i, f) (queuedPromiseFactory w) ->
      i < uuid w /\ promise_state i (promises w) = None;
  k_nodup : NoDup (map fst (queuedPromiseFactory w));
  k_promise :
    forall i st, promise_state i (promises w) = Some st -> i < uuid w;
  k_jobs :
    forall i r,
      In (i, r) (jobs w) -> promise_state i (promises w) = Some (settled r);
  k_ann :
    forall i v,
      In (Announced i v) (history w) ->
      promise_state i (promises w) = Some (Fulfilled v);
  k_res :
    forall i v, In (Resolved i v) (history w) -> In (Announced i v) (history w)
}.

(** What the calls made by [run] leave as it is. *)
Record Inner (w w' : World) : Prop := mkInner {
  i_kept : Kept w';
  i_uuid : uuid w <= uuid w';
  i_stable :
    forall i st,
      promise_state i (promises w) = Some st ->
      promise_state i (promises w') = Some st;
  i_none :
    forall i,
      i < uuid w ->
      promise_state i (promises w) = None ->
      ~ In i (map fst (queuedPromiseFactory w)) ->
      promise_state i (promises w') = None;
  i_queue :
    forall i,
      In i (map fst (queuedPromiseFactory w')) ->
      In i (map fst (queuedPromiseFactory w)) \/ uuid w <= i
}.

Lemma inner_refl w : Kept w -> Inner w w.
Proof. intros K. constructor; auto. Qed.

Lemma inner_trans w1 w2 w3 : Inner w1 w2 -> Inner w2 w3 -> Inner w1 w3.
Proof.
  intros [K2 Hu1 Hs1 Hn1 Hq1] [K3 Hu2 Hs2 Hn2 Hq2].
  constructor; auto; try lia.
  - intros i Hi Hnone Hnot. apply Hn2; [lia|now apply Hn1|].
    intros Hin. destruct (Hq1 _ Hin); [tauto|lia].
  - intros i Hin. destruct (Hq2 _ Hin) as [H|H]; [|right; lia].
    destruct (Hq1 _ H); [now left|right; lia].
Qed.

(** A change of the history and of the microtasks only. *)
Lemma kept_change w w' more :
  Kept w ->
  queuedPromiseFactory w' = queuedPromiseFactory w ->
  promises w' = promises w ->
  uuid w' = uuid w ->
  (forall x, In x (jobs w') -> In x (jobs w)) ->
  history w' = history w ++ more ->
  (forall i v,
      In (Announced i v) more ->
      promise_state i (promises w) = Some (Fulfilled v)) ->
  (forall i v,
      In (Resolved i v) more -> In (Announced i v) (history w ++ more)) ->
  Kept w'.
Proof.
  intros [Kq Kn Kp Kj Ka Kr] Eq Ep Eu Hj Eh Ha Hr.
  constructor; rewrite ?Eq, ?Ep, ?Eu, ?Eh; auto.
  - intros i v H. apply in_app_or in H. destruct H; auto.
  - intros i v H. apply in_app_or in H. destruct H as [H|H]; auto.
    apply in_or_app. left. auto.
Qed.

(** Notes that announce and resolve nothing. *)
Definition silent (ev : Ev) : Prop :=
  match ev with
  | Announced _ _ | Resolved _ _ => False
  | _ => True
  end.

Lemma kept_note w evs : Kept w -> Forall silent evs -> Kept (note evs w).
Proof.
  intros K Hs. rewrite Forall_forall in Hs.
  apply (@kept_change w (note evs w) evs K); auto.
  - apply history_note.
  - intros i v H. destruct (Hs _ H).
  - intros i v H. destruct (Hs _ H).
Qed.

Lemma kept_started next r w :
  Kept w ->
  next < uuid w ->
  promise_state next (promises w) = None ->
  ~ In next (map fst (queuedPromiseFactory w)) ->
  Kept (started next r w).
Proof.
  intros K Hlt Hnone Hnot.
  destruct r as [|v|e|e];
    [| | |apply kept_note; [exact K|repeat constructor]];
    destruct K as [Kq Kn Kp Kj Ka Kr];
    (constructor; simpl; auto;
     [ intros i f Hin; destruct (Kq _ _ Hin) as [H1 H2]; split; [exact H1|];
       rewrite promise_state_set;
       destruct (i =? next) eqn:E; [|exact H2];
       apply Nat.eqb_eq in E; subst i; exfalso; apply Hnot;
       apply in_map_iff; exists (next, f); auto
     | intros i st; rewrite promise_state_set;
       destruct (i =? next) eqn:E;
       [apply Nat.eqb_eq in E; subst i; auto|apply Kp]
     | intros i r0 Hin; rewrite promise_state_set;
       try (apply in_app_or in Hin;
            destruct Hin as [Hin|[Hin|[]]];
            [|inversion Hin; subst; rewrite Nat.eqb_refl; reflexivity]);
       pose proof (Kj _ _ Hin) as Hst;
       destruct (i =? next) eqn:E;
       [apply Nat.eqb_eq in E; subst i; congruence|exact Hst]
     | intros i v0 Hin; rewrite promise_state_set;
       destruct (i =? next) eqn:E;
       [apply Nat.eqb_eq in E; subst i; apply Ka in Hin; congruence
       |now apply Ka] ]).
Qed.

Lemma started_promise next r w i :
  i <> next ->
  promise_state i (promises (started next r w))
  = promise_state i (promises w).
Proof.
  intros Hne. apply Nat.eqb_neq in Hne.
  destruct r; simpl; rewrite ?promise_state_set, ?Hne; reflexivity.
Qed.

Lemma started_uuid next r w : uuid (started next r w) = uuid w.
Proof. destruct r; reflexivity. Qed.

Lemma inners g n :
  (forall w w', Kept w -> run n g w = Some w' -> Inner w w')
  /\ (forall f w w' r, Kept w -> call n g f w = Some (w', r) -> Inner w w')
  /\ (forall f site w w' i,
        Kept w -> queue n g f site w = Some (w', i) -> Inner w w').
Proof.
  induction n as [|n (IHr & IHc & IHq)];
    [split; [|split]; intros; discriminate|].
  split; [|split].
  - intros w w' K. cbn [run].
    destruct (queuedPromiseFactory w) as [|[next task] rest] eqn:Eq;
      [intros [= <-]; now apply inner_refl|].
    destruct (activePromise w);
      [intros [= <-]; now apply inner_refl|].
    destruct (call n g task _) as [[w2 r]|] eqn:Ec; [|discriminate].
    intros [= <-].
    destruct (k_queue K next task) as [Hlt Hnone]; [rewrite Eq; now left|].
    pose proof (k_nodup K) as Hnd. rewrite Eq in Hnd. simpl in Hnd.
    inversion Hnd as [|? ? Hnot Hnd']; subst.
    assert (K1 : Kept (note [Invoked next] (set_queued rest w))).
    { apply kept_note; [|repeat constructor].
      destruct K as [Kq Kn Kp Kj Ka Kr]. constructor; simpl; auto.
      intros i f Hin. apply (Kq i f). rewrite Eq. now right. }
    destruct (IHc _ _ _ _ K1 Ec) as [K2 Hu Hs Hn Hq].
    simpl in Hu, Hs, Hn, Hq.
    assert (Hnone2 : promise_state next (promises w2) = None)
      by (apply Hn; auto).
    assert (Hnot2 : ~ In next (map fst (queuedPromiseFactory w2))).
    { intros Hin. destruct (Hq _ Hin); [tauto|lia]. }
    constructor.
    + apply kept_started; auto. lia.
    + rewrite started_uuid. exact Hu.
    + intros i st Hi. rewrite started_promise; [now apply Hs|congruence].
    + intros i Hi Hni Hnoti.
      assert (Hne : i <> next)
        by (intros ->; apply Hnoti; rewrite Eq; now left).
      rewrite started_promise by exact Hne.
      apply Hn; auto. intros Hin. apply Hnoti. rewrite Eq. now right.
    + intros i Hin. rewrite started_queued in Hin.
      destruct (Hq _ Hin) as [H|H]; [left; rewrite Eq; now right|now right].
  - intros f w w' r K. cbn [call].
    destruct f as [|v|e|e|inner site rest];
      try (intros [= <- _]; now apply inner_refl).
    destruct (queue n g inner site w) as [[w2 i]|] eqn:Eq; [|discriminate].
    intros Ec. pose proof (IHq _ _ _ _ _ K Eq) as H1.
    eapply inner_trans; [exact H1|].
    exact (IHc _ _ _ _ (i_kept H1) Ec).
  - intros f site w w' i K. cbn [queue]. unfold generateUuid.
    destruct (run n g _) as [w2|] eqn:Er; [|discriminate].
    assert (K1 : Kept
                   (set_queued (queuedPromiseFactory w ++ [(uuid w, f)])
                      (note [Queued (uuid w)] (set_uuid (S (uuid w)) w)))).
    { apply (@kept_change
               (set_queued (queuedPromiseFactory w ++ [(uuid w, f)])
                  (set_uuid (S (uuid w)) w)) _ [Queued (uuid w)]);
        auto.
      - destruct K as [Kq Kn Kp Kj Ka Kr]. constructor; simpl; auto.
        + intros j f0 Hin. apply in_app_or in Hin.
          destruct Hin as [Hin|[[= <- <-]|[]]].
          * destruct (Kq _ _ Hin). split; [lia|assumption].
          * split; [lia|].
            destruct (promise_state (uuid w) (promises w)) as [st|] eqn:E;
              [|reflexivity].
            apply Kp in E. lia.
        + rewrite map_app. simpl.
          apply NoDup_app; [exact Kn|repeat constructor; intros []|].
          intros j Hin [<-|[]]. apply in_map_iff in Hin.
          destruct Hin as ([j f0] & Hj & Hin). simpl in Hj. subst j.
          destruct (Kq _ _ Hin). lia.
        + intros j st Hj. apply Kp in Hj. lia.
      - apply (history_note [Queued (uuid w)]
                 (set_queued (queuedPromiseFactory w ++ [(uuid w, f)])
                    (set_uuid (S (uuid w)) w))).
      - intros j v [H|[]]. discriminate.
      - intros j v [H|[]]. discriminate. }
    destruct (IHr _ _ K1 Er) as [K2 Hu Hs Hn Hq].
    simpl in Hu, Hs, Hn, Hq.
    destruct (event_trace g (completion_listener (uuid w)) site
                (_onPromiseCompleted w2)) as (os & Ht & Hqu).
    destruct (event g (completion_listener (uuid w)) site
                (_onPromiseCompleted w2)) as [em' hd].
    simpl in Ht. intros [= <- _].
    constructor; simpl; auto; try lia.
    + apply (@kept_change w2 (set_emitter em' w2) [] K2); auto.
      * rewrite history_set_emitter, Ht, effects_app, (effects_quiet Hqu).
        reflexivity.
      * intros j v [].
      * intros j v [].
    + intros j Hj Hnj Hnotj. apply Hn; auto.
      rewrite map_app, in_app_iff. simpl. intros [H|[H|[]]]; [tauto|lia].
    + intros j Hin. destruct (Hq _ Hin) as [H|H]; [|right; lia].
      rewrite map_app, in_app_iff in H. simpl in H.
      destruct H as [H|[H|[]]]; [now left|right; lia].
Qed.

(** A promise that has settled keeps its state. *)
Definition settled_kept (w w' : World) : Prop :=
  forall i st,
    promise_state i (promises w) = Some st ->
    st <> Pending ->
    promise_state i (promises w') = Some st.

Lemma step_kept g l w w' :
  owned (fun _ => True) (_onPromiseCompleted w) ->
  Kept w ->
  step g l w = Some w' ->
  Kept w' /\ settled_kept w w'.
Proof.
  intros Ho K. destruct l as [f site|p r|]; simpl.
  - destruct (queue _ g f site w) as [[w2 i]|] eqn:Eq; [|discriminate].
    intros [= <-]. destruct (proj2 (proj2 (inners g _)) _ _ _ _ _ K Eq)
      as [K2 _ Hs _ _].
    split; [exact K2|]. intros j st Hj _. now apply Hs.
  - unfold settle.
    destruct (promise_state p (promises w)) as [[| |]|] eqn:Ep;
      try discriminate.
    assert (K1 : forall js,
               (forall x, In x js -> In x (jobs w) \/ x = (p, r)) ->
               Kept (set_jobs js
                       (set_promises
                          (set_promise p (settled r) (promises w)) w))).
    { intros js Hjs. destruct K as [Kq Kn Kp Kj Ka Kr].
      constructor; simpl; auto.
      - intros i f Hin. destruct (Kq _ _ Hin) as [H1 H2]. split; [exact H1|].
        rewrite promise_state_set. destruct (i =? p) eqn:E; [|exact H2].
        apply Nat.eqb_eq in E. congruence.
      - intros i st. rewrite promise_state_set.
        destruct (i =? p) eqn:E; [|apply Kp].
        apply Nat.eqb_eq in E. subst i. intros _. now apply Kp in Ep.
      - intros i r0 Hin. rewrite promise_state_set.
        destruct (Hjs _ Hin) as [H|[= -> ->]].
        + apply Kj in H. destruct (i =? p) eqn:E; [|exact H].
          apply Nat.eqb_eq in E. subst i. rewrite Ep in H.
          destruct r0; discriminate.
        + now rewrite Nat.eqb_refl.
      - intros i v Hin. apply Ka in Hin. rewrite promise_state_set.
        destruct (i =? p) eqn:E; [|exact Hin].
        apply Nat.eqb_eq in E. congruence. }
    assert (Hst : forall i st,
               promise_state i (promises w) = Some st ->
               st <> Pending ->
               promise_state i (set_promise p (settled r) (promises w))
               = Some st).
    { intros i st Hi Hne. rewrite promise_state_set.
      destruct (i =? p) eqn:E; [|exact Hi].
      apply Nat.eqb_eq in E. congruence. }
    destruct (existsb _ _); intros [= <-]; (split; [|exact Hst]).
    + apply (@kept_change
               (set_jobs (jobs w ++ [(p, r)])
                  (set_promises (set_promise p (settled r) (promises w)) w))
               _ []);
        [ apply K1; intros x Hx; apply in_app_or in Hx;
          destruct Hx as [Hx|[Hx|[]]]; auto
        | reflexivity | reflexivity | reflexivity
        | intros x Hx; exact Hx
        | simpl; now rewrite app_nil_r
        | intros i v []
        | intros i v [] ].
    + apply (@kept_change
               (set_jobs (jobs w)
                  (set_promises (set_promise p (settled r) (promises w)) w))
               _ []);
        [ apply K1; auto
        | reflexivity | reflexivity | reflexivity
        | intros x Hx; exact Hx
        | simpl; now rewrite app_nil_r
        | intros i v []
        | intros i v [] ].
  - destruct (jobs w) as [|[next r] rest] eqn:Ej; [discriminate|].
    assert (K0 : Kept (set_jobs rest w)).
    { apply (@kept_change w _ [] K); auto.
      - simpl. intros x Hx. rewrite Ej. now right.
      - simpl. now rewrite app_nil_r.
      - intros i v [].
      - intros i v []. }
    unfold resume. destruct r as [v|e].
    + assert (Hful : promise_state next (promises w) = Some (Fulfilled v))
        by (apply (k_jobs K next (inl v)); rewrite Ej; now left).
      match goal with
      | |- context [fire _ ?e ?em] =>
          destruct (@fire_listeners (fun _ => True) em e Ho)
            as (em2 & resolves & Hfire & Heff & Hres & _)
      end.
      rewrite Hfire. intros Hrun.
      assert (K2 : Kept
                     (set_emitter em2
                        (note [Announced next v]
                           (set_active None (set_jobs rest w))))).
      { apply (@kept_change (set_jobs rest w) _
                 (Announced next v :: resolves) K0); auto.
        - rewrite history_set_emitter, Heff. simpl.
          rewrite effects_app. simpl. rewrite <- app_assoc. reflexivity.
        - intros i v0 [[= <- <-]|H]; [exact Hful|].
          destruct (Hres _ H) as [[=] _].
        - intros i v0 [[=]|H]. destruct (Hres _ H) as [[= -> ->] _].
          apply in_or_app. right. now left. }
      destruct (proj1 (inners g _) _ _ K2 Hrun) as [K3 _ Hs _ _].
      split; [exact K3|]. intros j st Hj _. now apply Hs.
    + intros [= <-]. split.
      * apply kept_note; [exact K0|repeat constructor].
      * intros j st Hj _. exact Hj.
Qed.

Lemma exec_kept g ls : forall w w',
  owned (fun _ => True) (_onPromiseCompleted w) ->
  Kept w ->
  exec g ls w = Some w' ->
  Kept w' /\ settled_kept w w'.
Proof.
  induction ls as [|l ls IH]; intros w w' Ho K; simpl.
  - intros [= <-]. split; [exact K|]. intros i st H _. exact H.
  - destruct (step g l w) as [w1|] eqn:Es; [|discriminate]. intros He.
    destruct (@step_kept g l w w1 Ho K Es) as [K1 Hs1].
    destruct (IH w1 w') as [K2 Hs2]; auto.
    { exact (frame_owned (@step_frame g l w w1 Ho Es) Ho). }
    split; [exact K2|]. intros i st Hi Hne. apply Hs2; auto.
Qed.

Lemma init_kept g : Kept (init g).
Proof. constructor; simpl; try constructor; try tauto; discriminate. Qed.

Lemma reachable_kept g w : reachable g w -> Kept w.
Proof.
  intros (ls & He).
  now destruct (@exec_kept g ls (init g) w (init_owned g _) (init_kept g) He).
Qed.

(** Once the promise of a task is rejected in a throttler whose
    factories have not called [queue], no factory is called any more,
    whatever the factories queued from then on would do. *)
Lemma stuck_serial_step g l w i e :
  InvCore w ->
  promise_state i (promises w) = Some (Rejected e) ->
  step g l w = Serial.step g l w.
Proof.
  intros Hc Hrej.
  assert (Ha : activePromise w = Some i).
  { destruct (ic_promise Hc _ Hrej) as (_ & [H|(v & [=] & _)]). exact H. }
  pose proof (ic_active Hc) as Hact. rewrite Ha in Hact.
  destruct Hact as (st & Hst & Hact). rewrite Hrej in Hst.
  injection Hst as <-. destruct Hact as (Hs & Hj).
  destruct l as [f site|p r|]; simpl.
  - unfold queue_fuel.
    replace (2 * (weight f + queued_weight w) + 4)
      with (S (S (2 * (weight f + queued_weight w) + 2))) by lia.
    cbn [queue run]. unfold Serial.queue, Serial.run, generateUuid.
    simpl. rewrite Ha.
    destruct (queuedPromiseFactory w ++ [(uuid w, f)]) as [|[? ?] ?];
      simpl; now destruct (event _ _ _ _).
  - reflexivity.
  - destruct Hj as [Hj|Hj]; rewrite Hj; reflexivity.
Qed.

Lemma stuck_serial_exec g ls : forall w i e,
  InvCore w -> InvEm w ->
  promise_state i (promises w) = Some (Rejected e) ->
  exec g ls w = Serial.exec g ls w.
Proof.
  induction ls as [|l ls IH]; intros w i e Hc He Hrej; simpl;
    [reflexivity|].
  rewrite (@stuck_serial_step g l w i e Hc Hrej).
  destruct (Serial.step g l w) as [w1|] eqn:E; [|reflexivity].
  destruct (step_inv _ _ Hc He E) as (Hc1 & He1).
  destruct (stuck_step _ _ _ Hc Hrej E) as (Hrej1 & _).
  exact (IH _ _ _ Hc1 He1 Hrej1).
Qed.

Lemma stuck_for_good g ls ls' w w' i e :
  forallb plain_label ls = true ->
  exec g ls (init g) = Some w ->
  promise_state i (promises w) = Some (Rejected e) ->
  exec g ls' w = Some w' ->
  activePromise w' = Some i
  /\ invoked_ids (history w') = invoked_ids (history w).
Proof.
  intros Hp He Hrej He'.
  destruct (@serial_exec g ls (init g) (init_plain g) Hp) as [Es _].
  rewrite Es in He.
  assert (Hr : Serial.reachable g w) by (exists ls; exact He).
  destruct (reachable_inv Hr) as (Hc & Hem).
  rewrite (@stuck_serial_exec g ls' w i e Hc Hem Hrej) in He'.
  destruct (@stuck_exec g ls' w w' i e Hc Hem Hrej He') as (Hrej' & Hinv).
  split; [|exact Hinv].
  destruct (reachable_inv (@reachable_exec g ls' w w' Hr He')) as (Hc' & _).
  destruct (ic_promise Hc' _ Hrej') as (_ & [H|(v & [=] & _)]). exact H.
Qed.

Lemma never_announced g ls ls' w w' i e :
  exec g ls (init g) = Some w ->
  promise_state i (promises w) = Some (Rejected e) ->
  exec g ls' w = Some w' ->
  (forall v, ~ In (Announced i v) (history w'))
  /\ future i (history w') = None.
Proof.
  intros He Hrej He'.
  assert (Hr : reachable g w) by (exists ls; exact He).
  destruct (@exec_kept g ls' w w' (proj1 (reachable_owned Hr))
              (reachable_kept Hr) He') as [K' Hs].
  assert (Hrej' : promise_state i (promises w') = Some (Rejected e))
    by (apply Hs; [exact Hrej|discriminate]).
  assert (Hann : forall v, ~ In (Announced i v) (history w')).
  { intros v H. apply (k_ann K') in H. congruence. }
  split; [exact Hann|].
  destruct (future i (history w')) as [v|] eqn:E; [|reflexivity].
  exfalso. apply (Hann v). apply (k_res K'). now apply future_In.
Qed.








End ThrottlerPromiseFacts.

(** C4, where the code departs from it.  [queue(f1)] with a factory [f1]
    that calls [queue(f2)] before it returns its promise: [run] calls
    [f1] while the active marker is still unset, so the [run] of the
    inner [queue] calls [f2] at once.  Both factories have been called
    and both promises are pending, with no result announced in between.
    When the promise of [f2] is fulfilled first, its continuation clears
    the marker although the task of [f1] is still pending, and the next
    task that is queued starts beside it. *)
Theorem reentrant_queue_runs_two_tasks_at_once :
  let w := Examples.after Examples.nesting in
  Throttler.reachable 0 w
  /\ Throttler.history w
     = [Throttler.Queued 0; Throttler.Invoked 0;
        Throttler.Queued 1; Throttler.Invoked 1]
  /\ Throttler.promise_state 0 (Throttler.promises w)
     = Some Throttler.Pending
  /\ Throttler.promise_state 1 (Throttler.promises w)
     = Some Throttler.Pending
  /\ exists w',
      Throttler.exec 0 Examples.then_a_third w = Some w'
      /\ Throttler.invoked_ids (Throttler.history w') = [0; 1; 2]
      /\ Throttler.promise_state 0 (Throttler.promises w')
         = Some Throttler.Pending
      /\ Throttler.promise_state 2 (Throttler.promises w')
         = Some Throttler.Pending
      /\ forall v, ~ In (Throttler.Announced 0 v) (Throttler.history w').
Proof.
  split; [exists Examples.nesting; vm_compute; reflexivity|].
  split; [vm_compute; reflexivity|].
  split; [vm_compute; reflexivity|].
  split; [vm_compute; reflexivity|].
  eexists. split; [vm_compute; reflexivity|].
  split; [vm_compute; reflexivity|].
  split; [vm_compute; reflexivity|].
  split; [vm_compute; reflexivity|].
  intros v H. vm_compute in H. intuition discriminate.
Qed.

(** C7, where the code departs from it.  After [queue(f)] with [f]
    returning a rejected promise, and the microtask that follows, the
    active marker is still set although no promise of a factory is
    pending and no continuation is left to clear it. *)
Theorem active_marker_survives_rejection :
  let w := Examples.after Examples.rejecting in
  Throttler.reachable 0 w
  /\ Throttler.activePromise w = Some 0
  /\ Throttler.executing w = false
  /\ Throttler.suspended w = []
  /\ Throttler.jobs w = [].
Proof.
  split; [exists Examples.rejecting; vm_compute; reflexivity|].
  vm_compute. repeat split.
Qed.

(** C8. In every state the throttler can reach, the completion emitter
    has exactly one listener, and one armed subscription, per call of
    [queue] made so far, in the order of the calls; no step makes the
    number of listeners smaller. *)
Theorem completion_listeners_accumulate :
  forall g w,
    Throttler.reachable g w ->
    map (@lid Throttler.Completion Throttler.Ev)
      (listeners_of (Throttler._onPromiseCompleted w))
    = Throttler.queued_ids (Throttler.history w)
    /\ map fst (_cells (Throttler._onPromiseCompleted w))
       = Throttler.queued_ids (Throttler.history w)
    /\ (forall l w',
          Throttler.step g l w = Some w' ->
          List.length (listeners_of (Throttler._onPromiseCompleted w))
          <= List.length (listeners_of (Throttler._onPromiseCompleted w'))).
Proof.
  intros g w Hr.
  destruct (ThrottlerRunFacts.reachable_frame Hr)
    as [_ _ _ Hl Hc (m & Hh & Hq & _) _].
  simpl in Hl, Hc, Hh. rewrite Nat.sub_0_r in *.
  rewrite ThrottlerFacts.history_effects, Hh, Hq, Hl, Hc.
  split; [reflexivity|]. split; [reflexivity|].
  intros l w' Hstep.
  destruct (ThrottlerRunFacts.reachable_owned Hr) as [Ho _].
  destruct (@ThrottlerRunFacts.step_frame g l w w' Ho Hstep)
    as [_ _ _ Hl' _ _ _].
  apply (f_equal (@List.length nat)) in Hl'.
  rewrite length_app, !length_map in Hl'. lia.
Qed.

Lemma completion_listeners_accumulate_witness :
  List.length
    (listeners_of
       (Throttler._onPromiseCompleted (Examples.after Examples.two_tasks)))
  = 2.
Proof.
  assert (Hr : Throttler.reachable 0 (Examples.after Examples.two_tasks))
    by (exists Examples.two_tasks; vm_compute; reflexivity).
  destruct (completion_listeners_accumulate Hr) as (Hl & _).
  apply (f_equal (@List.length nat)) in Hl.
  rewrite length_map in Hl. rewrite Hl. vm_compute. reflexivity.
Defined.

(** C10, as the code has it.  Once the promise a task factory returned
    is rejected, whatever happens next its result is never announced and
    the promise [queue] returned for it never resolves.  When no factory
    queued up to then calls [queue] itself, the active marker stays on
    that task as well and no factory is called any more. *)
Theorem rejected_task_blocks_the_throttler :
  forall g ls w i e,
    Throttler.exec g ls (Throttler.init g) = Some w ->
    Throttler.promise_state i (Throttler.promises w)
    = Some (Throttler.Rejected e) ->
    forall ls' w',
      Throttler.exec g ls' w = Some w' ->
      ((forall v, ~ In (Throttler.Announced i v) (Throttler.history w'))
       /\ Throttler.future i (Throttler.history w') = None)
      /\ (forallb Throttler.plain_label ls = true ->
          Throttler.activePromise w' = Some i
          /\ Throttler.invoked_ids (Throttler.history w')
             = Throttler.invoked_ids (Throttler.history w)).
Proof.
  intros g ls w i e He Hrej ls' w' He'. split.
  - exact (@ThrottlerPromiseFacts.never_announced g ls ls' w w' i e
             He Hrej He').
  - intros Hp.
    exact (@ThrottlerPromiseFacts.stuck_for_good g ls ls' w w' i e
             Hp He Hrej He').
Qed.

Lemma rejected_task_blocks_the_throttler_witness :
  exists w',
    Throttler.exec 0
      [Throttler.Queue (Throttler.FValue "b"%string) "site 2"%string;
       Throttler.Queue Throttler.FAsync "site 3"%string]
      (Examples.after Examples.rejecting) = Some w'
    /\ Throttler.activePromise w' = Some 0
    /\ Throttler.future 0 (Throttler.history w') = None
    /\ Throttler.invoked_ids (Throttler.history w') = [0].
Proof.
  eexists. split; [vm_compute; reflexivity|].
  match goal with
  | |- Throttler.activePromise ?w' = _ /\ _ =>
      destruct (@rejected_task_blocks_the_throttler 0
                  Examples.rejecting
                  (Examples.after Examples.rejecting) 0 (Raised "boom")
                  ltac:(vm_compute; reflexivity)
                  ltac:(vm_compute; reflexivity)
                  [Throttler.Queue (Throttler.FValue "b"%string)
                     "site 2"%string;
                   Throttler.Queue Throttler.FAsync "site 3"%string]
                  w' ltac:(vm_compute; reflexivity))
        as ((_ & Hf) & Hs);
      destruct (Hs ltac:(vm_compute; reflexivity)) as (Ha & Hi)
  end.
  split; [exact Ha|]. split; [exact Hf|]. rewrite Hi.
  vm_compute. reflexivity.
Defined.

(** C10 as it was stated fails: a factory that queues a task of its own
    and then returns a rejected promise leaves the marker on itself only
    until the inner task completes; the marker is then cleared and the
    factory queued next is called. *)
Lemma reentrant_rejecting_task_does_not_block :
  let w := Examples.after Examples.nesting_rejected in
  Throttler.promise_state 0 (Throttler.promises w)
  = Some (Throttler.Rejected (Raised "boom"))
  /\ Throttler.activePromise w = Some 0
  /\ exists w',
       Throttler.exec 0 Examples.then_unblocked w = Some w'
       /\ Throttler.activePromise w' = Some 2
       /\ Throttler.invoked_ids (Throttler.history w') = [0; 1; 2]
       /\ Throttler.invoked_ids (Throttler.history w) = [0; 1]
       /\ In (Throttler.Invoked 2) (Throttler.history w').
Proof.
  split; [vm_compute; reflexivity|]. split; [vm_compute; reflexivity|].
  eexists. split; [vm_compute; reflexivity|].
  repeat split; vm_compute; auto 20.
Qed.

(** * More of the code *)

(** ** Disposing of subscriptions and of the emitter *)

Section EmitterMoreFacts.

Variables T X : Type.

Implicit Types em : Emitter T X.

Lemma hooks_app (a b : list (Obs T X)) : hooks (a ++ b) = hooks a ++ hooks b.
Proof. apply flat_map_app. Qed.

Lemma find_none_filter (A : Type) (f : A -> bool) l :
  find f l = None -> filter (fun x => negb (f x)) l = l.
Proof.
  induction l as [|a l IH]; simpl; [auto|].
  destruct (f a); [discriminate|]. intros H. simpl. f_equal. auto.
Qed.

Lemma find_filter_negb (A : Type) (f : A -> bool) l :
  find f (filter (fun x => negb (f x)) l) = None.
Proof.
  induction l as [|a l IH]; simpl; auto.
  destruct (f a) eqn:E; simpl; auto. now rewrite E.
Qed.

Lemma map_filter_sync (A B : Type) (f : A -> nat) (g : B -> nat)
    (p : nat -> bool) : forall l1 l2,
  map f l1 = map g l2 ->
  map f (filter (fun x => p (f x)) l1) = map g (filter (fun y => p (g y)) l2).
Proof.
  induction l1 as [|a l1 IH]; destruct l2 as [|b l2]; simpl;
    try discriminate; auto.
  intros H. injection H as H1 H2. rewrite H1.
  destruct (p (g b)); simpl; [f_equal|]; auto.
Qed.

Lemma find_sync (A B : Type) (f : A -> nat) (g : B -> nat)
    (p : nat -> bool) : forall l1 l2,
  map f l1 = map g l2 ->
  match find (fun x => p (f x)) l1 with
  | Some _ => existsb (fun y => p (g y)) l2 = true
  | None => existsb (fun y => p (g y)) l2 = false
  end.
Proof.
  induction l1 as [|a l1 IH]; destruct l2 as [|b l2]; simpl;
    try discriminate; auto.
  intros H. injection H as H1 H2. rewrite H1.
  destruct (p (g b)); simpl; [reflexivity|now apply IH].
Qed.

Lemma existsb_false_filter (A : Type) (f : A -> bool) l :
  existsb f l = false -> filter (fun x => negb (f x)) l = l.
Proof.
  induction l as [|a l IH]; simpl; [auto|].
  destruct (f a); [discriminate|]. intros H. simpl. f_equal. auto.
Qed.

(** [dispose()] of a handle, stage by stage. *)
Lemma dispose_subscription_eq h em :
  dispose_subscription h em =
  match find (fun c => fst c =? h) (_cells em) with
  | None => em
  | Some (_, remover) =>
      let em1 :=
        set_leakageMon
          (match remover, _leakageMon em with
           | Some site, Some m => Some (removeMonitor site m)
           | _, _ => _leakageMon em
           end)
          (set_cells (filter (fun c => negb (fst c =? h)) (_cells em)) em) in
      if _disposed em then em1
      else
        let ls := filter (fun l => negb (lid l =? h)) (listeners_of em) in
        log (if LinkedList.isEmpty ls && has_hook onLastListenerRemove em
             then [OHook OnLastListenerRemove] else [])
          (set_listeners (Some ls) em1)
  end.
Proof.
  unfold dispose_subscription.
  destruct (find _ (_cells em)) as [[c r]|]; [|reflexivity].
  cbv zeta. rewrite call_hook_log.
  unfold has_hook, listeners_of, LinkedList.remove, LinkedList.toList.
  destruct r as [site|]; simpl;
    [destruct (_leakageMon em) as [m|] eqn:Em|]; simpl; rewrite ?Em;
    destruct (_disposed em); simpl; try reflexivity;
    try match goal with
      | |- context [LinkedList.isEmpty ?l] =>
          destruct (LinkedList.isEmpty l); cbn [andb]; rewrite ?log_nil
      end;
    unfold log, set_listeners, set_leakageMon, set_cells; simpl;
    rewrite ?Em; reflexivity.
Qed.

Lemma dispose_subscription_cells h em :
  _cells (dispose_subscription h em) =
  filter (fun c => negb (fst c =? h)) (_cells em).
Proof.
  rewrite dispose_subscription_eq.
  destruct (find _ (_cells em)) as [[c r]|] eqn:Ef.
  - cbv zeta. destruct (_disposed em); reflexivity.
  - symmetry. now apply find_none_filter.
Qed.

Lemma dispose_subscription_disposed h em :
  _disposed (dispose_subscription h em) = _disposed em.
Proof.
  rewrite dispose_subscription_eq.
  destruct (find _ (_cells em)) as [[c r]|]; [|reflexivity].
  cbv zeta. destruct (_disposed em) eqn:Ed; simpl; auto.
Qed.

(** On a disposed emitter a handle removes no listener. *)
Lemma dispose_subscription_late h em :
  _disposed em = true ->
  _listeners (dispose_subscription h em) = _listeners em
  /\ _deliveryQueue (dispose_subscription h em) = _deliveryQueue em
  /\ trace (dispose_subscription h em) = trace em.
Proof.
  intros Hd. rewrite dispose_subscription_eq.
  destruct (find _ (_cells em)) as [[c r]|]; auto.
  cbv zeta. rewrite Hd. simpl. auto.
Qed.

Lemma dispose_subscription_live h em :
  live em ->
  let em' := dispose_subscription h em in
  live em'
  /\ listeners_of em' =
     filter (fun l => negb (lid l =? h)) (listeners_of em)
  /\ _deliveryQueue em' = _deliveryQueue em
  /\ _options em' = _options em
  /\ (_listeners em <> None -> _listeners em' <> None)
  /\ trace em' =
     trace em
       ++ (if existsb (fun l => lid l =? h) (listeners_of em)
              && LinkedList.isEmpty
                   (filter (fun l => negb (lid l =? h)) (listeners_of em))
              && has_hook onLastListenerRemove em
           then [OHook OnLastListenerRemove] else []).
Proof.
  intros [Hd Hs]. cbv zeta.
  pose proof (find_sync (@fst nat (option string)) (@lid T X)
                (fun i => i =? h) _ _ Hs) as Hf.
  pose proof (map_filter_sync (@fst nat (option string)) (@lid T X)
                (fun i => negb (i =? h)) _ _ Hs) as Hm.
  cbv beta in Hf, Hm.
  unfold live. rewrite dispose_subscription_cells, dispose_subscription_disposed.
  rewrite dispose_subscription_eq.
  destruct (find _ (_cells em)) as [[c r]|] eqn:Ef.
  - rewrite Hf, Hd. cbn [andb]. cbv zeta.
    unfold listeners_of at 1 2.
    cbn [_listeners _deliveryQueue _options trace log set_listeners
         set_leakageMon set_cells LinkedList.toList].
    unfold LinkedList.toList.
    repeat split; auto; congruence.
  - rewrite Hf. cbn [andb]. rewrite app_nil_r.
    rewrite (existsb_false_filter _ _ Hf) in *.
    repeat split; auto.
Qed.

Lemma dispose_all_cons h hs em :
  dispose_all (h :: hs) em = dispose_all hs (dispose_subscription h em).
Proof. reflexivity. Qed.

Lemma outside_cons h hs (l : Listener T X) :
  outside (h :: hs) l = negb (lid l =? h) && outside hs l.
Proof. unfold outside. simpl. now rewrite negb_orb. Qed.

Lemma filter_filter (A : Type) (f g : A -> bool) l :
  filter g (filter f l) = filter (fun x => f x && g x) l.
Proof.
  induction l as [|a l IH]; simpl; auto.
  destruct (f a); simpl; [destruct (g a)|]; now rewrite IH.
Qed.

(** Disposing handles of an emitter that is not disposed removes the
    listeners subscribed under them and nothing else. *)
Lemma dispose_all_live hs : forall em,
  live em ->
  let em' := dispose_all hs em in
  live em'
  /\ listeners_of em' = filter (outside hs) (listeners_of em)
  /\ _deliveryQueue em' = _deliveryQueue em
  /\ _options em' = _options em
  /\ (_listeners em <> None -> _listeners em' <> None)
  /\ exists os, trace em' = trace em ++ os /\ quiet os.
Proof.
  induction hs as [|h hs IH]; intros em Hl; cbv zeta.
  - simpl. repeat split; try apply Hl; auto.
    + unfold outside. simpl. induction (listeners_of em); simpl; congruence.
    + exists []. rewrite app_nil_r. split; [reflexivity|constructor].
  - rewrite dispose_all_cons.
    destruct (dispose_subscription_live h Hl)
      as (Hl1 & Hls1 & Hq1 & Ho1 & Hn1 & Ht1).
    destruct (IH _ Hl1) as (Hl2 & Hls2 & Hq2 & Ho2 & Hn2 & os & Ht2 & Hqu).
    split; [exact Hl2|]. split.
    { rewrite Hls2, Hls1, filter_filter. apply filter_ext.
      intros l. now rewrite outside_cons. }
    split; [congruence|]. split; [congruence|]. split; [auto|].
    rewrite Ht2, Ht1, <- app_assoc. eexists. split; [reflexivity|].
    apply quiet_app; [apply hook_quiet|exact Hqu].
Qed.

Lemma dispose_all_late hs : forall em,
  _disposed em = true ->
  _listeners (dispose_all hs em) = _listeners em
  /\ _deliveryQueue (dispose_all hs em) = _deliveryQueue em
  /\ trace (dispose_all hs em) = trace em.
Proof.
  induction hs as [|h hs IH]; intros em Hd; [now simpl|].
  rewrite dispose_all_cons.
  destruct (dispose_subscription_late h em Hd) as (H1 & H2 & H3).
  destruct (IH (dispose_subscription h em)) as (H4 & H5 & H6).
  { now rewrite dispose_subscription_disposed. }
  repeat split; congruence.
Qed.

(** The handle is the identity of the new listener. *)
Lemma event_handle g (cb : Callback T X) site em :
  snd (event g cb site em) = nextLid em.
Proof.
  unfold event. rewrite !call_hook_log.
  unfold listeners_of, LinkedList.toList.
  destruct (_listeners em) as [l0|] eqn:El; simpl; rewrite ?El;
    [destruct l0|]; simpl;
    match goal with
    | |- context [leak_check g site ?x] =>
        pose proof (leak_check_fields g site x) as H;
        destruct (leak_check g site x) as [[em1 stk] rm]
    end;
    simpl in H; destruct H as (_ & _ & Hn & _); simpl; rewrite Hn;
    reflexivity.
Qed.

Lemma leak_check_hooks g site em :
  hooks (trace (fst (fst (leak_check g site em)))) = hooks (trace em).
Proof.
  unfold leak_check. destruct (_leakageMon em) as [m|]; [|reflexivity].
  match goal with |- context [30 <=? ?n] => destruct (30 <=? n) end;
    [|reflexivity].
  destruct (check _ _ _ _) as [[m' [wn|]] rm]; simpl;
    rewrite hooks_app; simpl; now rewrite app_nil_r.
Qed.

(** The hooks one subscription calls. *)
Lemma event_hooks g (cb : Callback T X) site em :
  hooks (trace (fst (event g cb site em))) =
  hooks (trace em)
    ++ match _options em with
       | Some o =>
           if LinkedList.isEmpty (listeners_of em) then first_hooks o
           else later_hooks o
       | None => []
       end.
Proof.
  unfold event. rewrite !call_hook_log.
  unfold listeners_of, LinkedList.toList, first_hooks, later_hooks.
  destruct (_listeners em) as [l0|] eqn:El; simpl; rewrite ?El;
    [destruct l0|]; simpl;
    match goal with
    | |- context [leak_check g site ?x] =>
        pose proof (leak_check_fields g site x) as H;
        pose proof (leak_check_hooks g site x) as Hh;
        destruct (leak_check g site x) as [[em1 stk] rm]
    end;
    simpl in H, Hh; destruct H as (_ & _ & _ & _ & Ho & _);
    rewrite ?call_hook_log; unfold has_hook in *; simpl in *;
    rewrite ?hooks_app, ?Ho, ?Hh, ?hooks_app; simpl;
    destruct (_options em) as [o|]; simpl; rewrite ?app_nil_r; auto;
    repeat match goal with
      | |- context [if ?b then _ else _] => destruct b; simpl
      end;
    rewrite <- ?app_assoc; reflexivity.
Qed.

Lemma event_live g (cb : Callback T X) site em :
  live em -> live (fst (event g cb site em)).
Proof.
  intros [Hd Hs].
  destruct (event_fields g cb site em) as ((stk & Hl) & _ & _ & (r & Hc)).
  destruct (event_frame g cb site em) as [Hd' _].
  split; [congruence|]. rewrite Hc. unfold listeners_of at 1. rewrite Hl.
  unfold LinkedList.toList. rewrite !map_app, Hs. reflexivity.
Qed.

Lemma subscribe_all_live g (subs : list (Callback T X * string)) :
  forall em,
    live em ->
    live (subscribe_all g subs em)
    /\ _options (subscribe_all g subs em) = _options em.
Proof.
  induction subs as [|[cb site] subs IH]; intros em Hl; [now simpl|].
  unfold subscribe_all in *. simpl.
  destruct (IH _ (event_live g cb site Hl)) as [H1 H2].
  split; [exact H1|]. rewrite H2. apply event_frame.
Qed.

Lemma newEmitter_live g options : live (newEmitter T X g options).
Proof. split; reflexivity. Qed.

Lemma map_filter_lid (p : nat -> bool) (ls : list (Listener T X)) :
  map (@lid T X) (filter (fun l => p (lid l)) ls) =
  filter p (map (@lid T X) ls).
Proof.
  induction ls as [|l ls IH]; simpl; auto.
  destruct (p (lid l)); simpl; now rewrite IH.
Qed.

Lemma Forall_filter (A : Type) (P : A -> Prop) (f : A -> bool) l :
  Forall P l -> Forall P (filter f l).
Proof.
  rewrite !Forall_forall. intros H x Hx. apply filter_In in Hx. now apply H.
Qed.

(** Delivery to the listeners that are left, behind the pairs that were
    already on the queue. *)
Lemma fire_after_dispose_all em hs w fuel :
  live em ->
  _listeners em <> None ->
  all_inert (queue_of em ++ pairs (listeners_of em) w) ->
  fire_fuel w (dispose_all hs em) <= fuel ->
  exists em2,
    fire fuel w (dispose_all hs em) = Done em2
    /\ listeners_of (dispose_all hs em) = filter (outside hs) (listeners_of em)
    /\ invocations (trace em2) =
       invocations (trace em) ++ ids (queue_of em)
         ++ ids (pairs (filter (outside hs) (listeners_of em)) w).
Proof.
  intros Hl Hn Hin Hfuel.
  destruct (dispose_all_live hs Hl) as (_ & Hls & Hq & _ & Hn' & os & Ht & Hqu).
  specialize (Hn' Hn). apply listeners_of_some in Hn'.
  assert (Hqo : queue_of (dispose_all hs em) = queue_of em)
    by (unfold queue_of; now rewrite Hq).
  apply Forall_app in Hin. destruct Hin as [Hin1 Hin2].
  assert (Hin' : all_inert
                   (queue_of (dispose_all hs em)
                      ++ pairs (listeners_of (dispose_all hs em)) w)).
  { rewrite Hqo, Hls. apply Forall_app. split; [exact Hin1|].
    unfold pairs in *. rewrite Forall_map in *. now apply Forall_filter. }
  rewrite (@fire_inert T X _ _ _ _ Hn' Hin' Hfuel).
  eexists. split; [reflexivity|]. split; [exact Hls|].
  simpl. rewrite Ht, Hqo, Hls.
  rewrite !invocations_app, invocations_pushes, (quiet_invocations Hqu).
  rewrite flat_map_app, invocations_app, !invocations_delivery.
  now rewrite app_nil_r.
Qed.

(** X1. After any number of subscriptions on a new emitter and the
    disposal of any handles (in any order, some perhaps twice, some
    perhaps unknown), [fire(v)] invokes exactly the callbacks whose
    handle was not disposed, once each, in subscription order. *)
Theorem disposed_handles_are_skipped_by_fire :
  forall g options (subs : list (Callback T X * string)) hs v fuel,
    Forall (fun s => inert (fst s) v) subs ->
    let em :=
      dispose_all hs (subscribe_all g subs (newEmitter T X g options)) in
    fire_fuel v em <= fuel ->
    exists em',
      fire fuel v em = Done em'
      /\ invocations (trace em') =
         map (fun i => (i, v))
           (filter (fun i => negb (existsb (Nat.eqb i) hs))
              (seq 0 (List.length subs))).
Proof.
  intros g options subs hs v fuel Hin em Hfuel. subst em.
  set (em0 := subscribe_all g subs (newEmitter T X g options)) in *.
  destruct (subscribe_all_fields g subs (newEmitter T X g options))
    as (new & os & Hls & Hid & Hcb & Hq & Ht & Hqu & Hsome).
  fold em0 in Hls, Hq, Ht, Hsome. simpl in Hls, Hq, Ht, Hid.
  assert (Hl0 : live em0)
    by apply (subscribe_all_live g subs (newEmitter_live g options)).
  assert (Hrhs : map (fun i => (i, v))
                   (filter (fun i => negb (existsb (Nat.eqb i) hs))
                      (seq 0 (List.length subs)))
                 = ids (pairs (filter (outside hs) (listeners_of em0)) v)).
  { rewrite ids_pairs, <- Hid, <- Hls.
    rewrite <- (map_filter_lid (fun i => negb (existsb (Nat.eqb i) hs))).
    now rewrite map_map. }
  rewrite Hrhs.
  destruct subs as [|s subs].
  - assert (E : dispose_all hs em0 = em0).
    { clear. subst em0. simpl. induction hs as [|h hs IH]; [reflexivity|].
      rewrite dispose_all_cons. exact IH. }
    rewrite E in *. exists em0. split.
    + destruct fuel as [|fuel]; [unfold fire_fuel in Hfuel; lia|].
      reflexivity.
    + reflexivity.
  - assert (Hn : _listeners em0 <> None) by (apply Hsome; discriminate).
    destruct (@fire_after_dispose_all em0 hs v fuel Hl0 Hn)
      as (em2 & Hf & _ & Hi); auto.
    + assert (Hq0 : queue_of em0 = []) by (unfold queue_of; now rewrite Hq).
      rewrite Hq0, Hls. simpl. apply all_inert_pairs.
      apply inert_listeners with (subs := s :: subs); auto.
    + exists em2. split; [exact Hf|]. rewrite Hi.
      assert (Hq0 : queue_of em0 = []) by (unfold queue_of; now rewrite Hq).
      rewrite Hq0, Ht, (quiet_invocations Hqu). reflexivity.
Qed.

(** X2. Disposing a handle does not take back what is already on the
    delivery queue: the next [fire] first delivers the pairs left there,
    also to listeners whose handle has been disposed since, and then
    the new event to the listeners that remain. *)
Theorem queued_pairs_outlive_their_subscription :
  forall (em : Emitter T X) hs w fuel,
    live em ->
    _listeners em <> None ->
    all_inert (queue_of em ++ pairs (listeners_of em) w) ->
    fire_fuel w (dispose_all hs em) <= fuel ->
    exists em2,
      fire fuel w (dispose_all hs em) = Done em2
      /\ listeners_of (dispose_all hs em)
         = filter (outside hs) (listeners_of em)
      /\ invocations (trace em2) =
         invocations (trace em) ++ ids (queue_of em)
           ++ ids (pairs (filter (outside hs) (listeners_of em)) w).
Proof. intros. now apply fire_after_dispose_all. Qed.

(** X3. Disposing a handle a second time changes nothing: no listener
    is removed, the leak monitor is not decremented again and
    [onLastListenerRemove] is not called again. *)
Theorem handle_disposal_is_idempotent :
  forall (em : Emitter T X) h,
    dispose_subscription h (dispose_subscription h em)
    = dispose_subscription h em.
Proof.
  intros em h. rewrite (dispose_subscription_eq h (dispose_subscription h em)).
  now rewrite dispose_subscription_cells, find_filter_negb.
Qed.

(** *** [Emitter.dispose] *)

Lemma dispose_emitter_eq em :
  _disposed em = false ->
  dispose_emitter em =
  log (if has_hook onLastListenerRemove em
       then [OHook OnLastListenerRemove] else [])
    (mkEmitter (_options em) (option_map disposeMonitor (_leakageMon em))
       true
       (match _deliveryQueue em with Some _ => Some [] | None => None end)
       (match _listeners em with Some _ => Some [] | None => None end)
       (_cells em) (nextLid em) (trace em)).
Proof.
  intros Hd. unfold dispose_emitter. rewrite Hd, call_hook_log.
  unfold has_hook, LinkedList.clear. cbn [_listeners set_disposed].
  destruct (_listeners em) eqn:El;
    cbn [_deliveryQueue set_listeners set_disposed];
    destruct (_deliveryQueue em) eqn:Eq;
    unfold log, set_leakageMon, set_deliveryQueue, set_listeners,
      set_disposed; simpl; rewrite ?El, ?Eq; reflexivity.
Qed.

Lemma dispose_emitter_fields em :
  _disposed em = false ->
  listeners_of (dispose_emitter em) = []
  /\ queue_of (dispose_emitter em) = []
  /\ _disposed (dispose_emitter em) = true
  /\ nextLid (dispose_emitter em) = nextLid em
  /\ trace (dispose_emitter em) =
     trace em ++ (if has_hook onLastListenerRemove em
                  then [OHook OnLastListenerRemove] else []).
Proof.
  intros Hd. rewrite dispose_emitter_eq by exact Hd.
  split; [unfold listeners_of; simpl; now destruct (_listeners em)|].
  split; [unfold queue_of; simpl; now destruct (_deliveryQueue em)|].
  repeat split.
Qed.

(** X4. [dispose()] of an emitter removes all listeners and drops the
    pairs still waiting on the delivery queue; it calls
    [onLastListenerRemove] if there is one, whether or not there were
    listeners; a [fire] that follows delivers nothing; a second
    [dispose()] changes nothing. *)
Theorem emitter_disposal_drops_listeners_and_queued_pairs :
  forall (em : Emitter T X) v fuel,
    _disposed em = false ->
    2 <= fuel ->
    let em' := dispose_emitter em in
    listeners_of em' = []
    /\ queue_of em' = []
    /\ hasListeners em' = false
    /\ trace em' =
       trace em ++ (if has_hook onLastListenerRemove em
                    then [OHook OnLastListenerRemove] else [])
    /\ dispose_emitter em' = em'
    /\ exists em'',
        fire fuel v em' = Done em''
        /\ trace em'' = trace em'
        /\ invocations (trace em'') = invocations (trace em).
Proof.
  intros em v fuel Hd Hfuel. cbv zeta. rewrite dispose_emitter_eq by exact Hd.
  set (os := if has_hook onLastListenerRemove em then _ else _).
  assert (Hos : invocations os = [])
    by (subst os; destruct (has_hook _ em); reflexivity).
  split; [unfold listeners_of; simpl; now destruct (_listeners em)|].
  split; [unfold queue_of; simpl; now destruct (_deliveryQueue em)|].
  split; [unfold hasListeners; simpl; now destruct (_listeners em)|].
  split; [reflexivity|]. split; [reflexivity|].
  destruct fuel as [|[|fuel]]; try lia.
  rewrite fire_S. cbn [_listeners log].
  destruct (_listeners em) as [ls|].
  - rewrite drain_S. unfold enqueue, queue_of at 1. simpl.
    unfold queue_of. simpl.
    destruct (_deliveryQueue em); simpl;
      (eexists; split; [reflexivity|]); simpl;
      rewrite ?app_nil_r, invocations_app, Hos, app_nil_r; auto.
  - eexists. split; [reflexivity|]. simpl.
    rewrite invocations_app, Hos, app_nil_r. auto.
Qed.

(** X5. A disposed emitter still takes subscriptions and delivers to
    them, and no handle removes such a listener any more: after
    [dispose()], a subscription and the disposal of any handles (its own
    among them), [fire(v)] invokes the late callback. *)
Theorem disposed_emitter_keeps_late_listeners :
  forall g (cb : Callback T X) site (em : Emitter T X) hs v fuel,
    _disposed em = false ->
    inert cb v ->
    let late := event g cb site (dispose_emitter em) in
    let em1 := dispose_all (snd late :: hs) (fst late) in
    fire_fuel v em1 <= fuel ->
    hasListeners em1 = true
    /\ exists em2,
        fire fuel v em1 = Done em2
        /\ invocations (trace em2) = invocations (trace em) ++ [(snd late, v)].
Proof.
  intros g cb site em hs v fuel Hd Hin late em1 Hfuel.
  destruct (@dispose_emitter_fields em Hd) as (Hl0 & Hq0 & Hd0 & Hn0 & Ht0).
  destruct (event_fields g cb site (dispose_emitter em))
    as ((stk & Hl) & Hq & _ & _).
  destruct (event_frame g cb site (dispose_emitter em)) as [Hd1 _].
  destruct (event_trace g cb site (dispose_emitter em)) as (os & Ht & Hqu).
  assert (Hid : snd late = nextLid em)
    by (subst late; rewrite event_handle; exact Hn0).
  fold late in Hl, Hq, Hd1, Ht. rewrite Hl0 in Hl. simpl in Hl.
  rewrite Hd0 in Hd1.
  destruct (@dispose_all_late (snd late :: hs) (fst late) Hd1)
    as (Hl1 & Hq1 & Ht1).
  fold em1 in Hl1, Hq1, Ht1.
  rewrite Hn0 in Hl. rewrite Hl in Hl1.
  split; [unfold hasListeners; now rewrite Hl1|].
  assert (Hqo : queue_of em1 = []).
  { unfold queue_of in *. now rewrite Hq1, Hq. }
  assert (Hin' : all_inert
                   (queue_of em1 ++ pairs [mkListener (nextLid em) cb stk] v)).
  { rewrite Hqo. simpl. constructor; [exact Hin|constructor]. }
  rewrite (@fire_inert T X _ _ _ _ Hl1 Hin' Hfuel).
  eexists. split; [reflexivity|]. simpl.
  rewrite Hqo, Ht1, Ht, Ht0, Hid. simpl.
  rewrite !invocations_app, (quiet_invocations Hqu). simpl.
  rewrite !app_nil_r, invocations_effects.
  destruct (has_hook _ em); simpl; now rewrite ?app_nil_r.
Qed.

(** *** Hooks *)

Lemma subscribe_all_hooks g (subs : list (Callback T X * string)) :
  forall em o,
    _options em = Some o ->
    listeners_of em <> [] ->
    hooks (trace (subscribe_all g subs em)) =
    hooks (trace em) ++ flat_map (fun _ => later_hooks o) subs.
Proof.
  induction subs as [|[cb site] subs IH]; intros em o Ho Hne.
  - simpl. now rewrite app_nil_r.
  - unfold subscribe_all in *. simpl.
    destruct (event_fields g cb site em) as ((stk & Hl) & _).
    destruct (event_frame g cb site em) as [_ Ho'].
    rewrite (IH (fst (event g cb site em)) o).
    + rewrite event_hooks, Ho, <- app_assoc.
      destruct (listeners_of em); [congruence|reflexivity].
    + congruence.
    + unfold listeners_of at 1. rewrite Hl. unfold LinkedList.toList.
      intros E. now apply app_eq_nil in E.
Qed.

Lemma forallb_handled h hs (ls : list (Listener T X)) :
  forallb (fun l => existsb (Nat.eqb (lid l)) (h :: hs)) ls =
  forallb (fun l => existsb (Nat.eqb (lid l)) hs)
    (filter (fun l => negb (lid l =? h)) ls).
Proof.
  induction ls as [|l ls IH]; [reflexivity|].
  cbn [forallb filter]. rewrite IH. cbn [existsb].
  destruct (lid l =? h); reflexivity.
Qed.

Lemma forallb_lid (p : nat -> bool) (ls : list (Listener T X)) :
  forallb (fun l => p (lid l)) ls = forallb p (map (@lid T X) ls).
Proof. induction ls as [|l ls IH]; simpl; congruence. Qed.

Lemma filter_nil_existsb (A : Type) (f : A -> bool) l :
  l <> [] -> filter (fun x => negb (f x)) l = [] -> existsb f l = true.
Proof.
  destruct l as [|a l]; [congruence|]. simpl. intros _.
  destruct (f a); [reflexivity|discriminate].
Qed.

Lemma dispose_all_no_cells hs : forall em,
  _cells em = [] -> dispose_all hs em = em.
Proof.
  induction hs as [|h hs IH]; intros em Hc; [reflexivity|].
  rewrite dispose_all_cons, dispose_subscription_eq, Hc. simpl. now apply IH.
Qed.

(** [onLastListenerRemove] is called when, and only when, the disposal
    of a handle removes the last listener. *)
Lemma dispose_all_hooks hs : forall em,
  live em ->
  listeners_of em <> [] ->
  hooks (trace (dispose_all hs em)) =
  hooks (trace em)
    ++ (if forallb (fun l => existsb (Nat.eqb (lid l)) hs) (listeners_of em)
           && has_hook onLastListenerRemove em
        then [OnLastListenerRemove] else []).
Proof.
  induction hs as [|h hs IH]; intros em Hl Hne.
  - destruct (listeners_of em); [congruence|]. simpl. now rewrite app_nil_r.
  - destruct (dispose_subscription_live h Hl)
      as (Hl1 & Hls1 & _ & Ho1 & _ & Ht1).
    rewrite dispose_all_cons, forallb_handled.
    destruct (filter _ (listeners_of em)) as [|l ls] eqn:Ef.
    + rewrite dispose_all_no_cells.
      2:{ destruct Hl1 as [_ Hs]. rewrite Hls1 in Hs. simpl in Hs.
          now apply map_eq_nil in Hs. }
      rewrite Ht1, (filter_nil_existsb _ Hne Ef), hooks_app. simpl.
      destruct (has_hook _ em); reflexivity.
    + rewrite (IH _ Hl1) by (rewrite Hls1; discriminate).
      rewrite Ht1, Hls1. simpl. rewrite andb_false_r. cbn [andb].
      rewrite app_nil_r. unfold has_hook. now rewrite Ho1.
Qed.

(** X6. From a new emitter on, the first subscription calls
    [onFirstListenerAdd], [onFirstListenerDidAdd] and
    [onListenerDidAdd], each later one [onListenerDidAdd] alone; the
    disposal of handles then calls [onLastListenerRemove] once if every
    subscription's handle is among them, and not at all otherwise,
    whatever the order and however often a handle is disposed. *)
Theorem hooks_mark_first_and_last_listener :
  forall g o (subs : list (Callback T X * string)) hs,
    subs <> [] ->
    hooks
      (trace
         (dispose_all hs
            (subscribe_all g subs (newEmitter T X g (Some o))))) =
    first_hooks o
      ++ flat_map (fun _ => later_hooks o) (tl subs)
      ++ (if forallb (fun i => existsb (Nat.eqb i) hs)
                (seq 0 (List.length subs))
             && onLastListenerRemove o
          then [OnLastListenerRemove] else []).
Proof.
  intros g o subs hs Hne.
  set (em0 := subscribe_all g subs (newEmitter T X g (Some o))).
  destruct (subscribe_all_fields g subs (newEmitter T X g (Some o)))
    as (new & os & Hls & Hid & _).
  fold em0 in Hls. simpl in Hls, Hid.
  destruct (subscribe_all_live g subs (newEmitter_live g (Some o)))
    as [Hl0 Ho0].
  fold em0 in Hl0, Ho0. simpl in Ho0.
  assert (Hne0 : listeners_of em0 <> []).
  { rewrite Hls. intros E. rewrite E in Hid. simpl in Hid.
    destruct subs; [congruence|discriminate]. }
  rewrite (dispose_all_hooks hs Hl0 Hne0).
  rewrite (forallb_lid (fun i => existsb (Nat.eqb i) hs)), Hls, Hid.
  unfold has_hook. rewrite Ho0.
  assert (Hh : hooks (trace em0) =
               first_hooks o ++ flat_map (fun _ => later_hooks o) (tl subs)).
  { subst em0. destruct subs as [|[cb site] subs]; [congruence|].
    unfold subscribe_all. simpl.
    destruct (event_fields g cb site (newEmitter T X g (Some o)))
      as ((stk & Hl) & _).
    destruct (event_frame g cb site (newEmitter T X g (Some o))) as [_ Ho'].
    fold (subscribe_all g subs
            (fst (event g cb site (newEmitter T X g (Some o))))).
    rewrite (@subscribe_all_hooks g subs _ o).
    - rewrite event_hooks. reflexivity.
    - exact Ho'.
    - unfold listeners_of. rewrite Hl. discriminate. }
  rewrite Hh, <- app_assoc. reflexivity.
Qed.

(** *** Emitters that never warn *)

Lemma subscribe_all_silent g (subs : list (Callback T X * string)) :
  forall em,
    match _leakageMon em with
    | Some m => (effective_threshold g (customThreshold m) <= 0)%Z
    | None => True
    end ->
    warnings (trace (subscribe_all g subs em)) = warnings (trace em).
Proof.
  induction subs as [|[cb site] subs IH]; intros em Hm; [reflexivity|].
  unfold subscribe_all in *. simpl.
  destruct (event_monitor g cb site em) as [Hmon Hw]. cbv zeta in Hmon, Hw.
  assert (H : monitor_after g site (List.length (listeners_of em))
                (_leakageMon em) = (_leakageMon em, [])).
  { unfold monitor_after. destruct (_leakageMon em) as [m|]; [|reflexivity].
    destruct (30 <=? _); [|reflexivity].
    unfold check. apply Z.leb_le in Hm. rewrite Hm. reflexivity. }
  rewrite H in Hmon, Hw. simpl in Hmon, Hw. rewrite app_nil_r in Hw.
  rewrite IH; [exact Hw|]. now rewrite Hmon.
Qed.

(** X7. An emitter constructed while the global threshold is not
    positive has no leak monitor: it never logs a leak warning, whatever
    the global threshold is set to later and whatever its own
    [leakWarningThreshold].  An emitter that has a monitor logs none
    either as long as its effective threshold is not positive. *)
Theorem emitters_without_positive_threshold_never_warn :
  (forall g g' options (subs : list (Callback T X * string)),
      (g <= 0)%Z ->
      warnings (trace (subscribe_all g' subs (newEmitter T X g options)))
      = [])
  /\ (forall g o (subs : list (Callback T X * string)),
        (effective_threshold g (leakWarningThreshold o) <= 0)%Z ->
        warnings (trace (subscribe_all g subs (newEmitter T X g (Some o))))
        = []).
Proof.
  split.
  - intros g g' options subs Hg. rewrite subscribe_all_silent; [reflexivity|].
    simpl. apply Z.ltb_ge in Hg. now rewrite Hg.
  - intros g o subs Ht. rewrite subscribe_all_silent; [reflexivity|].
    simpl. destruct (0 <? g)%Z; simpl; auto.
Qed.

End EmitterMoreFacts.

(** ** The remover of the leak monitor *)

Lemma get_or_0_set k k' v m :
  Stacks.get_or_0 k (Stacks.set k' v m) =
  if String.eqb k k' then v else Stacks.get_or_0 k m.
Proof.
  unfold Stacks.get_or_0. rewrite StacksFacts.get_set.
  destruct (String.eqb k k'); reflexivity.
Qed.

(** X8. When [check] records a call site and returns a remover, calling
    the remover brings the count of every call site back to what it was
    before [check]; the countdown to the next warning is not given
    back. *)
Theorem remover_restores_the_counts :
  forall g site n m m' w,
    check g site n m = (m', w, true) ->
    (forall s,
        Stacks.get_or_0 s (stacks_of (removeMonitor site m'))
        = Stacks.get_or_0 s (stacks_of m))
    /\ _warnCountdown2 (removeMonitor site m')
       = (if (_warnCountdown2 m - 2 <=? 0)%Z
          then effective_threshold g (customThreshold m)
          else _warnCountdown2 m - 2)%Z.
Proof.
  intros g site n m m' w H. unfold check in H.
  destruct (_ || _); [discriminate|].
  fold (stacks_of m) in H.
  destruct (_warnCountdown2 m - 2 <=? 0)%Z;
    [destruct (top_of _) as [ts tc]|];
    injection H as <- _; (split; [|reflexivity]);
    intros s; unfold removeMonitor, stacks_of; simpl;
    fold (stacks_of m); rewrite !get_or_0_set, String.eqb_refl;
    destruct (String.eqb s site) eqn:E; try reflexivity;
    apply String.eqb_eq in E; subst s; lia.
Qed.

(** ** Disposal on sample inputs *)

Lemma disposed_handles_are_skipped_by_fire_witness :
  exists em',
    fire 20 7
      (dispose_all [1; 1; 5]
         (subscribe_all 0
            [(Examples.plain "a", "site a"%string);
             (Examples.throwing, "site t"%string);
             (Examples.plain "c", "site c"%string)]
            (newEmitter nat string 0 None)))
    = Done em'
    /\ invocations (trace em') = [(0, 7); (2, 7)].
Proof.
  destruct (@disposed_handles_are_skipped_by_fire nat string 0%Z None
              [(Examples.plain "a", "site a"%string);
               (Examples.throwing, "site t"%string);
               (Examples.plain "c", "site c"%string)]
              [1; 1; 5] 7 20)
    as (em' & Hf & Hi).
  - repeat constructor.
  - vm_compute. lia.
  - exists em'. split; [exact Hf|exact Hi].
Defined.

Lemma queued_pairs_outlive_their_subscription_witness :
  exists em2,
    fire 20 5 (dispose_all [2] MoreExamples.aborted) = Done em2
    /\ map (@lid nat string)
         (listeners_of (dispose_all [2] MoreExamples.aborted)) = [0; 1]
    /\ invocations (trace em2) = [(0, 1); (1, 1); (2, 1); (0, 5); (1, 5)].
Proof.
  destruct (@queued_pairs_outlive_their_subscription nat string
              MoreExamples.aborted [2] 5 20)
    as (em2 & Hf & Hl & Hi).
  - split; vm_compute; reflexivity.
  - vm_compute. discriminate.
  - vm_compute. repeat constructor.
  - vm_compute. lia.
  - exists em2. split; [exact Hf|]. split; [rewrite Hl|rewrite Hi];
      vm_compute; reflexivity.
Defined.

Lemma emitter_disposal_drops_listeners_and_queued_pairs_witness :
  List.length (queue_of MoreExamples.aborted) = 1
  /\ List.length (listeners_of MoreExamples.aborted) = 3
  /\ queue_of (dispose_emitter MoreExamples.aborted) = []
  /\ exists em'',
      fire 2 5 (dispose_emitter MoreExamples.aborted) = Done em''
      /\ invocations (trace em'') = [(0, 1); (1, 1)].
Proof.
  destruct (@emitter_disposal_drops_listeners_and_queued_pairs nat string
              MoreExamples.aborted 5 2)
    as (_ & Hq & _ & _ & _ & em'' & Hf & _ & Hi).
  - reflexivity.
  - lia.
  - split; [reflexivity|]. split; [reflexivity|]. split; [exact Hq|].
    exists em''. split; [exact Hf|]. rewrite Hi. vm_compute. reflexivity.
Defined.

Lemma disposed_emitter_keeps_late_listeners_witness :
  exists em2,
    fire 20 5
      (dispose_all [3]
         (fst (event 0 (Examples.plain "late") "site l"
                 (dispose_emitter Examples.with_thrower))))
    = Done em2
    /\ invocations (trace em2) = [(3, 5)].
Proof.
  destruct (@disposed_emitter_keeps_late_listeners nat string 0%Z
              (Examples.plain "late") "site l"%string Examples.with_thrower
              [] 5 20)
    as (_ & em2 & Hf & Hi).
  - reflexivity.
  - reflexivity.
  - vm_compute. lia.
  - exists em2. split; [exact Hf|exact Hi].
Defined.

Lemma hooks_mark_first_and_last_listener_witness :
  hooks
    (trace
       (dispose_all [1; 0; 1]
          (subscribe_all 0 Examples.two_plain
             (newEmitter nat string 0 (Some MoreExamples.all_hooks)))))
  = [OnFirstListenerAdd; OnFirstListenerDidAdd; OnListenerDidAdd;
     OnListenerDidAdd; OnLastListenerRemove].
Proof.
  rewrite (@hooks_mark_first_and_last_listener nat string 0%Z
             MoreExamples.all_hooks Examples.two_plain [1; 0; 1]).
  - reflexivity.
  - discriminate.
Defined.

Lemma emitters_without_positive_threshold_never_warn_witness :
  warnings
    (trace
       (subscribe_all 2 (Examples.same_site 40)
          (newEmitter nat string 0
             (Some (mkOptions false false false false (Some 2%Z))))))
  = [].
Proof.
  apply (proj1 (@emitters_without_positive_threshold_never_warn nat string)).
  lia.
Defined.

Lemma remover_restores_the_counts_witness :
  Stacks.get_or_0 "s"
    (stacks_of
       (removeMonitor "s"
          (fst (fst (check 2 "s" 31 (newLeakageMonitor None))))))
  = 0%Z.
Proof.
  destruct (check 2 "s" 31 (newLeakageMonitor None)) as [[m' w] rm] eqn:E.
  assert (Hrm : rm = true) by (vm_compute in E; congruence).
  subst rm.
  destruct (@remover_restores_the_counts 2%Z "s"%string 31%Z
              (newLeakageMonitor None) m' w E) as [H _].
  simpl. rewrite H. reflexivity.
Defined.

(** ** Stores and components *)

Module StoreFacts.

Import Lifecycle StoreOps.

Lemma attempted_dispose rs :
  attempted (dispose (Many (map Some rs))) = map did rs.
Proof.
  unfold dispose. rewrite LifecycleFacts.sweep_spec. simpl.
  rewrite LifecycleFacts.present_registered.
  now destruct (failures _) as [|e1 [|e2 es]].
Qed.

Lemma existsb_did d rs :
  existsb (fun d' => did d' =? did d) rs = false -> ~ In (did d) (map did rs).
Proof.
  induction rs as [|r rs IH]; simpl; [tauto|].
  destruct (did r =? did d) eqn:E; [discriminate|].
  apply Nat.eqb_neq in E. intros H [H1|H1]; [congruence|now apply IH].
Qed.

Lemma existsb_did_true d rs :
  existsb (fun d' => did d' =? did d) rs = true -> In (did d) (map did rs).
Proof.
  induction rs as [|r rs IH]; simpl; [discriminate|].
  destruct (did r =? did d) eqn:E; simpl; auto.
  apply Nat.eqb_eq in E. auto.
Qed.

(** What a store keeps true of itself. *)
Definition tidy (id : nat) (st : DisposableStore) : Prop :=
  sid st = id
  /\ NoDup (map did (_toDispose st))
  /\ ~ In id (map did (_toDispose st))
  /\ (_isDisposed st = true -> _toDispose st = []).

Lemma NoDup_snoc (A : Type) (l : list A) x :
  NoDup l -> ~ In x l -> NoDup (l ++ [x]).
Proof.
  intros Hn Hx. apply NoDup_app; auto.
  - repeat constructor. auto.
  - intros y Hy [<-|[]]. auto.
Qed.

Lemma apply_tidy op st id :
  tidy id st ->
  tidy id (fst (apply op st))
  /\ NoDup (snd (apply op st))
  /\ ~ In id (snd (apply op st)).
Proof.
  intros Ht. pose proof Ht as (Hs & Hn & Hi & Hd).
  assert (Hsame : tidy id st /\ NoDup (@nil nat) /\ ~ In id [])
    by (split; [exact Ht|split; [constructor|tauto]]).
  destruct op as [[d|]| |]; [simpl|simpl| |].
  - destruct (did d =? sid st) eqn:E1; simpl; [exact Hsame|].
    destruct (_isDisposed st) eqn:E2; simpl; [exact Hsame|].
    destruct (existsb _ (_toDispose st)) eqn:E3; simpl; [exact Hsame|].
    apply Nat.eqb_neq in E1. apply existsb_did in E3.
    repeat split; simpl; auto; try constructor; try discriminate.
    + rewrite map_app. simpl. now apply NoDup_snoc.
    + rewrite map_app, in_app_iff. simpl. intros [H|[H|[]]]; [tauto|].
      congruence.
  - exact Hsame.
  - unfold apply, clear. cbn [fst snd]. rewrite attempted_dispose.
    repeat split; simpl; auto; constructor.
  - unfold apply, dispose_store. destruct (_isDisposed st) eqn:E.
    + exact Hsame.
    + unfold clear. cbn [fst snd _toDispose sid _isDisposed].
      rewrite attempted_dispose. repeat split; simpl; auto; constructor.
Qed.

Lemma run_tidy ops : forall st id,
  tidy id st ->
  tidy id (fst (run ops st))
  /\ Forall (fun a => NoDup a /\ ~ In id a) (snd (run ops st)).
Proof.
  induction ops as [|op ops IH]; intros st id Ht; simpl.
  - split; [exact Ht|constructor].
  - destruct (apply_tidy op Ht) as (Ht1 & Hn & Hi).
    destruct (apply op st) as [st1 a]. simpl in *.
    destruct (IH _ _ Ht1) as [Ht2 Hall].
    destruct (run ops st1) as [st2 rest]. simpl in *.
    split; [exact Ht2|]. constructor; auto.
Qed.

Lemma newStore_tidy id : tidy id (newStore id).
Proof. repeat split; simpl; auto; try constructor. Qed.

Lemma run_app ops1 : forall ops2 st,
  run (ops1 ++ ops2) st =
  (fst (run ops2 (fst (run ops1 st))),
   snd (run ops1 st) ++ snd (run ops2 (fst (run ops1 st)))).
Proof.
  induction ops1 as [|op ops1 IH]; intros ops2 st; simpl.
  - now destruct (run ops2 st).
  - destruct (apply op st) as [st1 a]. rewrite IH.
    destruct (run ops1 st1) as [st2 rest]. reflexivity.
Qed.

Lemma run_cons op ops st :
  run (op :: ops) st =
  (fst (run ops (fst (apply op st))),
   snd (apply op st) :: snd (run ops (fst (apply op st)))).
Proof.
  simpl. destruct (apply op st) as [st1 a]. simpl.
  now destruct (run ops st1).
Qed.

Lemma apply_clear st :
  apply OpClear st =
  (mkStore (sid st) [] (_isDisposed st), map did (_toDispose st)).
Proof. unfold apply, clear. cbn [fst snd]. now rewrite attempted_dispose. Qed.

Lemma apply_dispose st :
  _isDisposed st = false ->
  apply OpDispose st = (mkStore (sid st) [] true, map did (_toDispose st)).
Proof.
  intros Hd. unfold apply, dispose_store. rewrite Hd. unfold clear.
  cbn [fst snd _toDispose sid _isDisposed]. now rewrite attempted_dispose.
Qed.


(** Adding resources that are all new to a store that is in use. *)
Lemma run_adding ds : forall st,
  _isDisposed st = false ->
  NoDup (map did (_toDispose st ++ ds)) ->
  ~ In (sid st) (map did ds) ->
  run (adding ds) st =
  (mkStore (sid st) (_toDispose st ++ ds) false, map (fun _ => []) ds).
Proof.
  induction ds as [|d ds IH]; intros st Hd Hn Hi.
  - simpl. rewrite app_nil_r. destruct st; simpl in *. now subst.
  - simpl in Hi. unfold adding. cbn [map run apply add].
    destruct (did d =? sid st) eqn:E1;
      [apply Nat.eqb_eq in E1; tauto|].
    rewrite Hd.
    destruct (existsb _ (_toDispose st)) eqn:E2.
    { apply existsb_did_true in E2. rewrite map_app in Hn.
      apply NoDup_app_remove_r in Hn as Hn'.
      exfalso. clear - Hn E2. induction (map did (_toDispose st)) as [|x l IHl].
      - destruct E2.
      - simpl in Hn. inversion Hn as [|? ? Hx Hl]; subst.
        destruct E2 as [->|E2]; [|auto].
        apply Hx. rewrite in_app_iff. simpl. auto. }
    fold (adding ds). rewrite IH; simpl; auto.
    + now rewrite <- app_assoc.
    + now rewrite <- app_assoc.
Qed.

End StoreFacts.

(** X9. Whatever is called on a store ([add], [clear], [dispose], in
    any order), it never holds a resource twice and never itself, it is
    empty once it is disposed, and no sweep of it disposes a resource
    twice or the store itself. *)
Theorem store_holds_each_resource_once :
  forall ops id,
    let st := fst (StoreOps.run ops (Lifecycle.newStore id)) in
    NoDup (map Lifecycle.did (Lifecycle._toDispose st))
    /\ ~ In id (map Lifecycle.did (Lifecycle._toDispose st))
    /\ (Lifecycle._isDisposed st = true -> Lifecycle._toDispose st = [])
    /\ Forall (fun a => NoDup a /\ ~ In id a)
         (snd (StoreOps.run ops (Lifecycle.newStore id))).
Proof.
  intros ops id st. subst st.
  destruct (StoreFacts.run_tidy ops (StoreFacts.newStore_tidy id))
    as [(_ & Hn & Hi & Hd) Hall].
  auto.
Qed.


Lemma store_holds_each_resource_once_witness :
  Lifecycle._toDispose
    (fst (StoreOps.run
            [StoreOps.OpAdd (Some (Lifecycle.mkDisposable 1 None));
             StoreOps.OpAdd (Some (Lifecycle.mkDisposable 1 None));
             StoreOps.OpAdd (Some (Lifecycle.mkDisposable 0 None));
             StoreOps.OpDispose;
             StoreOps.OpAdd (Some (Lifecycle.mkDisposable 2 None))]
            (Lifecycle.newStore 0)))
  = []
  /\ snd (StoreOps.run
            [StoreOps.OpAdd (Some (Lifecycle.mkDisposable 1 None));
             StoreOps.OpAdd (Some (Lifecycle.mkDisposable 1 None));
             StoreOps.OpAdd (Some (Lifecycle.mkDisposable 0 None));
             StoreOps.OpDispose;
             StoreOps.OpAdd (Some (Lifecycle.mkDisposable 2 None))]
            (Lifecycle.newStore 0))
     = [[]; []; []; [1]; []].
Proof.
  split; [|reflexivity].
  destruct (@store_holds_each_resource_once
              [StoreOps.OpAdd (Some (Lifecycle.mkDisposable 1 None));
               StoreOps.OpAdd (Some (Lifecycle.mkDisposable 1 None));
               StoreOps.OpAdd (Some (Lifecycle.mkDisposable 0 None));
               StoreOps.OpDispose;
               StoreOps.OpAdd (Some (Lifecycle.mkDisposable 2 None))] 0)
    as (_ & _ & H & _).
  apply H. reflexivity.
Defined.


(** X11. A store disposes of its resources in the order in which they
    were added, and [clear()] leaves it in use: resources added, then
    [clear()], then resources added (some perhaps again), then
    [dispose()] sweeps the first group at [clear()] and the second group
    at [dispose()], each in insertion order. *)
Theorem store_disposes_in_registration_order :
  forall id ds1 ds2,
    NoDup (map Lifecycle.did ds1) ->
    NoDup (map Lifecycle.did ds2) ->
    ~ In id (map Lifecycle.did (ds1 ++ ds2)) ->
    snd (StoreOps.run
           (StoreOps.adding ds1 ++ StoreOps.OpClear
              :: StoreOps.adding ds2 ++ [StoreOps.OpDispose])
           (Lifecycle.newStore id))
    = map (fun _ => []) ds1 ++ [map Lifecycle.did ds1]
        ++ map (fun _ => []) ds2 ++ [map Lifecycle.did ds2].
Proof.
  intros id ds1 ds2 Hn1 Hn2 Hi.
  rewrite map_app, in_app_iff in Hi.
  rewrite StoreFacts.run_app.
  rewrite (StoreFacts.run_adding ds1 (Lifecycle.newStore id)); auto.
  cbn [fst snd Lifecycle.newStore Lifecycle._toDispose Lifecycle.sid app].
  rewrite StoreFacts.run_cons, StoreFacts.apply_clear.
  cbn [fst snd Lifecycle._toDispose Lifecycle.sid Lifecycle._isDisposed].
  rewrite StoreFacts.run_app.
  rewrite (StoreFacts.run_adding ds2 (Lifecycle.mkStore id [] false)); auto.
  cbn [fst snd Lifecycle._toDispose Lifecycle.sid app].
  rewrite StoreFacts.run_cons, StoreFacts.apply_dispose by reflexivity.
  reflexivity.
Qed.

Lemma store_disposes_in_registration_order_witness :
  snd (StoreOps.run
         [StoreOps.OpAdd (Some (Lifecycle.mkDisposable 1 None));
          StoreOps.OpAdd
            (Some (Lifecycle.mkDisposable 2 (Some (Raised "boom"))));
          StoreOps.OpClear;
          StoreOps.OpAdd (Some (Lifecycle.mkDisposable 2 None));
          StoreOps.OpAdd (Some (Lifecycle.mkDisposable 3 None));
          StoreOps.OpDispose]
         (Lifecycle.newStore 0))
  = [[]; []; [1; 2]; []; []; [2; 3]].
Proof.
  apply (@store_disposes_in_registration_order 0
           [Lifecycle.mkDisposable 1 None;
            Lifecycle.mkDisposable 2 (Some (Raised "boom"))]
           [Lifecycle.mkDisposable 2 None; Lifecycle.mkDisposable 3 None]).
  - repeat constructor; simpl; intuition lia.
  - repeat constructor; simpl; intuition lia.
  - simpl. intuition lia.
Defined.

Module BaseFacts.

Import Lifecycle StoreOps.

Ltac conjuncts := repeat match goal with |- _ /\ _ => split end.

(** The component after a call of [_register], however it ended. *)
Definition registered (o : option Disposable) (b : Base) : Base :=
  match _register o b with
  | Done b' => b'
  | Thrown _ b' => b'
  | OutOfFuel => b
  end.

Lemma registered_step o b :
  _isDisposed (_store b) = false ->
  NoDup (map did (_toDispose (_store b))) ->
  self (registered o b) = self b
  /\ sid (_store (registered o b)) = sid (_store b)
  /\ _isDisposed (_store (registered o b)) = false
  /\ NoDup (map did (_toDispose (_store (registered o b))))
  /\ forall i,
      In i (map did (_toDispose (_store (registered o b)))) <->
      In i (map did (_toDispose (_store b)))
      \/ (In i (present [o]) /\ i <> self b /\ i <> sid (_store b)).
Proof.
  intros Hd Hn. unfold registered, _register, add.
  destruct o as [d|]; simpl.
  2:{ conjuncts; auto; tauto. }
  destruct (did d =? self b) eqn:E1; simpl.
  { apply Nat.eqb_eq in E1. conjuncts; auto. intros i. split; [tauto|].
    intros [H|([H|[]] & H1 & _)]; [auto|]. congruence. }
  destruct (did d =? sid (_store b)) eqn:E2; simpl.
  { apply Nat.eqb_eq in E2. conjuncts; auto. intros i. split; [tauto|].
    intros [H|([H|[]] & _ & H1)]; [auto|]. congruence. }
  apply Nat.eqb_neq in E1, E2. rewrite Hd.
  destruct (existsb _ (_toDispose (_store b))) eqn:E3; simpl.
  { apply StoreFacts.existsb_did_true in E3. conjuncts; auto.
    intros i. split; [tauto|].
    intros [H|([H|[]] & _)]; [auto|]. congruence. }
  apply StoreFacts.existsb_did in E3.
  conjuncts; auto.
  - rewrite map_app. simpl. now apply StoreFacts.NoDup_snoc.
  - intros i. rewrite map_app, in_app_iff. simpl. split.
    + intros [H|[H|[]]]; [tauto|]. right. subst i. tauto.
    + tauto.
Qed.

Lemma register_all_spec os : forall b,
  _isDisposed (_store b) = false ->
  NoDup (map did (_toDispose (_store b))) ->
  let b' := register_all os b in
  self b' = self b
  /\ sid (_store b') = sid (_store b)
  /\ _isDisposed (_store b') = false
  /\ NoDup (map did (_toDispose (_store b')))
  /\ forall i,
      In i (map did (_toDispose (_store b'))) <->
      In i (map did (_toDispose (_store b)))
      \/ (In i (present os) /\ i <> self b /\ i <> sid (_store b)).
Proof.
  induction os as [|o os IH]; intros b Hd Hn; cbv zeta.
  - simpl. conjuncts; auto; tauto.
  - destruct (registered_step o b Hd Hn) as (Hs & Hi & Hd1 & Hn1 & Hin1).
    destruct (IH (registered o b) Hd1 Hn1) as (Hs2 & Hi2 & Hd2 & Hn2 & Hin2).
    change (register_all (o :: os) b)
      with (register_all os (registered o b)).
    split; [congruence|]. split; [congruence|]. split; [exact Hd2|].
    split; [exact Hn2|]. intros i.
    rewrite Hin2, Hin1, Hs, Hi.
    assert (Hp : present (o :: os) = present [o] ++ present os)
      by (unfold present; simpl; now rewrite app_nil_r).
    rewrite Hp, in_app_iff. tauto.
Qed.

End BaseFacts.

(** X12. A component ([Disposable]) that registered resources through
    [_register], also after refused calls, disposes on [dispose()] of
    exactly the resources it was given, except itself and its own store,
    each once; a second [dispose()] reaches none. *)
Theorem component_disposes_what_it_registered :
  forall me store os,
    let b :=
      StoreOps.register_all os
        (StoreOps.mkBase me (Lifecycle.newStore store)) in
    let swept := StoreOps.attempted (snd (StoreOps.dispose_base b)) in
    NoDup swept
    /\ (forall i,
          In i swept <->
          In i (Lifecycle.present os) /\ i <> me /\ i <> store)
    /\ StoreOps.attempted
         (snd (StoreOps.dispose_base (fst (StoreOps.dispose_base b)))) = [].
Proof.
  intros me store os b swept.
  destruct (@BaseFacts.register_all_spec os
              (StoreOps.mkBase me (Lifecycle.newStore store)))
    as (_ & _ & Hd & Hn & Hin); [reflexivity|constructor|].
  fold b in Hd, Hn, Hin. simpl in Hin.
  assert (Hs : swept = map Lifecycle.did
                         (Lifecycle._toDispose (StoreOps._store b))).
  { subst swept. unfold StoreOps.dispose_base, Lifecycle.dispose_store.
    cbn [snd]. rewrite Hd. unfold Lifecycle.clear. cbn [snd].
    apply StoreFacts.attempted_dispose. }
  rewrite Hs. split; [exact Hn|]. split.
  - intros i. rewrite Hin. tauto.
  - unfold StoreOps.dispose_base, Lifecycle.dispose_store.
    cbn [fst snd StoreOps._store]. rewrite Hd. reflexivity.
Qed.

(** ** The subscription cell *)

Module CellFacts.

Import SafeDisposable.

Section Cell.

Variable F : Type.

Variable throws : F -> bool.

Definition holds (c : t F) : list F :=
  match c with Some fn => [fn] | None => [] end.

Lemma Subseq_refl (l : list F) : Subseq l l.
Proof. induction l; [apply sub_nil|now apply sub_take]. Qed.

Lemma Subseq_skips (pre l1 l2 : list F) :
  Subseq l1 l2 -> Subseq l1 (pre ++ l2).
Proof. induction pre; simpl; auto. intros H. apply sub_skip. auto. Qed.

Lemma run_subseq ops : forall c,
  Forall (fun fn => throws fn = false) (holds c ++ sets ops) ->
  Subseq (snd (run throws ops c)) (holds c ++ sets ops).
Proof.
  induction ops as [|[fn| |] ops IH]; intros c Hall.
  - simpl. rewrite app_nil_r. destruct c; repeat constructor.
  - simpl. apply Subseq_skips. apply (IH (set fn c)).
    apply Forall_app in Hall. apply Hall.
  - simpl. apply Subseq_skips. apply (IH (unset c)).
    apply Forall_app in Hall. apply Hall.
  - cbn [run sets flat_map app]. destruct c as [fn|]; cbn [dispose holds] in *.
    + inversion Hall as [|? ? Hfn Hrest]; subst. rewrite Hfn.
      specialize (IH None Hrest).
      destruct (run throws ops None) as [c2 rest]. simpl in *.
      now apply sub_take.
    + specialize (IH None Hall).
      destruct (run throws ops None) as [c2 rest]. exact IH.
Qed.

Lemma run_disposes n : forall fn,
  run throws (repeat (@ODispose F) n) (Some fn) =
  if throws fn then (Some fn, repeat fn n)
  else (match n with 0 => Some fn | _ => None end,
        match n with 0 => [] | _ => [fn] end).
Proof.
  intros fn. destruct (throws fn) eqn:E.
  - induction n as [|n IH]; [reflexivity|].
    cbn [repeat run dispose]. rewrite E, IH. reflexivity.
  - destruct n as [|n]; [reflexivity|].
    cbn [repeat run dispose]. rewrite E.
    assert (H : run throws (repeat (@ODispose F) n) None = (None, [])).
    { clear. induction n as [|n IH]; [reflexivity|].
      cbn [repeat run dispose]. now rewrite IH. }
    now rewrite H.
Qed.

End Cell.

End CellFacts.

(** X13. A [SafeDisposable] whose functions return calls, over any
    sequence of [set], [unset] and [dispose()], only functions given to
    [set], in that order and each arming at most once; one [set]
    followed by any number of [dispose()] calls the function once.  A
    function that throws stays armed and is called again by every
    [dispose()]. *)
Theorem cell_calls_each_function_once :
  forall (F : Type) (throws : F -> bool),
    (forall ops,
        Forall (fun fn => throws fn = false) (SafeDisposable.sets ops) ->
        SafeDisposable.Subseq
          (snd (SafeDisposable.run throws ops (SafeDisposable.new F)))
          (SafeDisposable.sets ops))
    /\ (forall fn n,
          snd (SafeDisposable.run throws
                 (SafeDisposable.OSet fn
                    :: repeat (@SafeDisposable.ODispose F) (S n))
                 (SafeDisposable.new F))
          = if throws fn then repeat fn (S n) else [fn]).
Proof.
  intros F throws. split.
  - intros ops Hall.
    apply CellFacts.run_subseq with (c := SafeDisposable.new F). exact Hall.
  - intros fn n. cbn [SafeDisposable.run]. unfold SafeDisposable.set.
    rewrite CellFacts.run_disposes. now destruct (throws fn).
Qed.

Lemma cell_calls_each_function_once_witness :
  SafeDisposable.Subseq
    (snd (SafeDisposable.run (fun _ : nat => false)
            [SafeDisposable.OSet 1; SafeDisposable.OSet 2;
             SafeDisposable.ODispose; SafeDisposable.ODispose;
             SafeDisposable.OSet 3; SafeDisposable.OUnset;
             SafeDisposable.ODispose]
            (SafeDisposable.new nat)))
    [1; 2; 3]
  /\ snd (SafeDisposable.run (fun _ : nat => false)
            [SafeDisposable.OSet 1; SafeDisposable.OSet 2;
             SafeDisposable.ODispose; SafeDisposable.ODispose;
             SafeDisposable.OSet 3; SafeDisposable.OUnset;
             SafeDisposable.ODispose]
            (SafeDisposable.new nat)) = [2].
Proof.
  split; [|reflexivity].
  apply (proj1 (@cell_calls_each_function_once nat (fun _ => false))
           [SafeDisposable.OSet 1; SafeDisposable.OSet 2;
            SafeDisposable.ODispose; SafeDisposable.ODispose;
            SafeDisposable.OSet 3; SafeDisposable.OUnset;
            SafeDisposable.ODispose]).
  repeat constructor.
Defined.

(** ** Timing *)

Module ProfilingFacts.

Import Profiling.

Open Scope Z_scope.

Lemma total_app a b : total (a ++ b) = total a + total b.
Proof.
  unfold total. induction a as [|x a IH]; simpl; [reflexivity|].
  rewrite IH. lia.
Qed.

(** The watch of the profiler was started at or before [t0] and is
    running. *)
Definition started (t0 : Z) (p : EventProfiling) : Prop :=
  match _stopWatch p with
  | Some sw => _startTime sw <= t0 /\ _stopTime sw = -1
  | None => True
  end.

Lemma run_counters ops : forall p,
  let p' := fst (run ops p) in
  let out := snd (run ops p) in
  _invocationCount p' = (_invocationCount p + List.length out)%nat
  /\ _elapsedOverall p' = _elapsedOverall p + total out
  /\ map info_invocations out
     = seq (S (_invocationCount p)) (List.length out)
  /\ forall t0,
      started t0 p -> monotone t0 ops ->
      Forall (fun i => 0 <= info_elapsed i) out.
Proof.
  induction ops as [|[n now|now] ops IH]; intros p; cbv zeta.
  - simpl. repeat split; auto; try lia. unfold total. simpl. lia.
  - destruct (IH (start n now p)) as (H1 & H2 & H3 & H4).
    cbn [run]. repeat split; auto.
    intros t0 Hs [Hle Hm]. apply (H4 now); [|exact Hm].
    unfold started. simpl. lia.
  - cbn [run]. unfold stopProfiling.
    destruct (_stopWatch p) as [sw|] eqn:Esw.
    + match goal with
      | |- context [run ops ?q] =>
          destruct (IH q) as (H1 & H2 & H3 & H4);
          destruct (run ops q) as [p2 rest]
      end.
      cbn [fst snd _invocationCount _elapsedOverall] in *.
      rewrite H1, H2. cbn [app List.length map seq]. rewrite H3.
      change (elapsed now sw :: map info_elapsed rest)
        with (map info_elapsed [mkInfo (elapsed now sw) 0 0 0]
                ++ map info_elapsed rest).
      split; [lia|]. split.
      { unfold total. simpl. lia. }
      split; [reflexivity|].
      intros t0 Hs [Hle Hm]. constructor.
      * unfold started in Hs. rewrite Esw in Hs. destruct Hs as [Hs1 Hs2].
        simpl in Hle. unfold elapsed. rewrite Hs2. simpl. lia.
      * apply (H4 now); [exact I|exact Hm].
    + destruct (IH p) as (H1 & H2 & H3 & H4).
      destruct (run ops p) as [p2 rest]. simpl in *.
      repeat split; auto.
      intros t0 Hs [Hle Hm]. apply (H4 now); [|exact Hm].
      unfold started. now rewrite Esw.
Qed.

End ProfilingFacts.

(** X14. Over any sequence of [start] and [stop] calls of an
    [EventProfiling], [_invocationCount] is the number of lines printed,
    the lines number the invocations 1, 2, ..., [_elapsedOverall] is the
    sum of the elapsed times printed (a [stop] without a [start] before
    it prints nothing), and no elapsed time is negative as long as the
    clock does not go back. *)
Theorem profiling_counters_match_the_log :
  forall ops,
    let p := fst (Profiling.run ops Profiling.newProfiling) in
    let out := snd (Profiling.run ops Profiling.newProfiling) in
    Profiling._invocationCount p = List.length out
    /\ Profiling._elapsedOverall p = Profiling.total out
    /\ map Profiling.info_invocations out = seq 1 (List.length out)
    /\ forall t0,
        Profiling.monotone t0 ops ->
        Forall (fun i => (0 <= Profiling.info_elapsed i)%Z) out.
Proof.
  intros ops p out.
  destruct (ProfilingFacts.run_counters ops Profiling.newProfiling)
    as (H1 & H2 & H3 & H4).
  fold p out in H1, H2, H3, H4. simpl in H1, H2, H3.
  repeat split; auto.
  intros t0 Hm. apply (H4 t0); [exact I|exact Hm].
Qed.

Lemma profiling_counters_match_the_log_witness :
  map Profiling.info_elapsed
    (snd (Profiling.run
            [Profiling.PStop 5; Profiling.PStart 2 10; Profiling.PStop 13;
             Profiling.PStop 20; Profiling.PStart 3 21; Profiling.PStop 25]
            Profiling.newProfiling))
  = [3; 4]%Z
  /\ Forall (fun i => (0 <= Profiling.info_elapsed i)%Z)
       (snd (Profiling.run
               [Profiling.PStop 5; Profiling.PStart 2 10; Profiling.PStop 13;
                Profiling.PStop 20; Profiling.PStart 3 21; Profiling.PStop 25]
               Profiling.newProfiling)).
Proof.
  split; [reflexivity|].
  destruct (@profiling_counters_match_the_log
              [Profiling.PStop 5; Profiling.PStart 2 10; Profiling.PStop 13;
               Profiling.PStop 20; Profiling.PStart 3 21; Profiling.PStop 25])
    as (_ & _ & _ & H).
  apply (H 0%Z). simpl. lia.
Defined.

(** ** The global threshold *)

Module GlobalThresholdFacts.

Import GlobalThreshold.

Lemma last_cons_indep (A : Type) (l : list A) : forall x d d',
  last (x :: l) d = last (x :: l) d'.
Proof.
  induction l as [|a l IH]; intros x d d'; [reflexivity|].
  change (last (a :: l) d = last (a :: l) d'). apply IH.
Qed.

Lemma restore_all_last handles : forall g,
  restore_all handles g = last handles g.
Proof.
  induction handles as [|h hs IH]; intros g; [reflexivity|].
  unfold restore_all in *. simpl fold_left. rewrite IH.
  unfold restore. destruct hs; [reflexivity|].
  change (last (h :: z :: hs) g) with (last (z :: hs) g).
  apply last_cons_indep.
Qed.

Lemma set_all_spec ns : forall g,
  set_all ns g =
  (last ns g, match ns with [] => [] | _ => g :: removelast ns end).
Proof.
  induction ns as [|n ns IH]; intros g; [reflexivity|].
  cbn [set_all setGlobalLeakWarningThreshold]. rewrite IH.
  destruct ns as [|z ns]; [reflexivity|].
  f_equal. change (last (n :: z :: ns) g) with (last (z :: ns) g).
  apply last_cons_indep.
Qed.

End GlobalThresholdFacts.

(** X15. Handles of [setGlobalLeakWarningThreshold] restore the value
    that was current when they were made: after setting a series of
    values, disposing the handles in reverse order brings the threshold
    back to its original value, while disposing them in the order of
    their creation leaves it at the value it had before the last
    setting. *)
Theorem threshold_handles_restore_in_reverse_order :
  forall ns g,
    let final := fst (GlobalThreshold.set_all ns g) in
    let handles := snd (GlobalThreshold.set_all ns g) in
    final = last ns g
    /\ GlobalThreshold.restore_all (rev handles) final = g
    /\ (ns <> [] ->
        GlobalThreshold.restore_all handles final
        = last (g :: removelast ns) g).
Proof.
  intros ns g final handles. subst final handles.
  rewrite GlobalThresholdFacts.set_all_spec. cbn [fst snd].
  split; [reflexivity|].
  rewrite !GlobalThresholdFacts.restore_all_last. split.
  - destruct ns as [|n ns]; [reflexivity|].
    cbn [rev]. now rewrite last_last.
  - intros Hne. destruct ns as [|n ns]; [congruence|].
    apply GlobalThresholdFacts.last_cons_indep.
Qed.

Lemma threshold_handles_restore_in_reverse_order_witness :
  GlobalThreshold.restore_all
    (snd (GlobalThreshold.set_all [5; 7; 9]%Z (-1)%Z))
    (fst (GlobalThreshold.set_all [5; 7; 9]%Z (-1)%Z))
  = 7%Z.
Proof.
  destruct (@threshold_handles_restore_in_reverse_order [5; 7; 9]%Z (-1)%Z)
    as (_ & _ & H).
  rewrite H; [reflexivity|discriminate].
Defined.

(** ** More of the throttler *)

Module ThrottlerMoreFacts.

Import Throttler ThrottlerMore ThrottlerFacts ThrottlerRunFacts Serial.

(** [run] adds to the history only. *)
Lemma run_effects w :
  exists evs,
    _onPromiseCompleted (run w) = log (map OEffect evs) (_onPromiseCompleted w)
    /\ uuid (run w) = uuid w
    /\ forall j v, ~ In (Resolved j v) evs.
Proof.
  unfold run.
  destruct (queuedPromiseFactory w) as [|[next task] rest];
    [exists []; rewrite log_nil; conjuncts; auto|].
  destruct (activePromise w);
    [exists []; rewrite log_nil; conjuncts; auto|].
  destruct (result_of task) as [|v|e|e]; simpl; rewrite ?log_log;
    [exists [Invoked next]|exists [Invoked next]|exists [Invoked next]
    |exists [Invoked next; Threw next e]];
    (conjuncts; [reflexivity|reflexivity|]);
    intros j v' H; simpl in H; intuition discriminate.
Qed.

(** What one step does to the emitter and to the history. *)
Lemma serial_step_owned (P : nat -> Prop) g l w w' :
  owned P (_onPromiseCompleted w) ->
  (forall i, uuid w <= i -> P i) ->
  step g l w = Some w' ->
  owned P (_onPromiseCompleted w')
  /\ uuid w <= uuid w'
  /\ _disposed (_onPromiseCompleted w') = _disposed (_onPromiseCompleted w)
  /\ (exists more,
        history w' = history w ++ more
        /\ forall j v, In (Resolved j v) more -> P j)
  /\ match l with
     | Queue f site =>
         exists em0 cb,
           alike em0 (_onPromiseCompleted w)
           /\ _onPromiseCompleted w' = fst (event g cb site em0)
     | _ => alike (_onPromiseCompleted w') (_onPromiseCompleted w)
     end.
Proof.
  intros Ho HP. destruct l as [f site|p r|].
  - simpl. intros [= <-]. unfold queue, generateUuid.
    set (w1 := set_queued _ _).
    destruct (run_effects w1) as (evs & Hem & Hu & Hnr).
    assert (Hem1 : _onPromiseCompleted w1 =
                   log (map OEffect [Queued (uuid w)]) (_onPromiseCompleted w))
      by reflexivity.
    assert (Hu1 : uuid w1 = S (uuid w)) by reflexivity.
    rewrite Hem1, log_log, <- map_app in Hem.
    pose proof (event_fields g (completion_listener (uuid w)) site
                  (_onPromiseCompleted (run w1))) as Hf.
    pose proof (event_trace g (completion_listener (uuid w)) site
                  (_onPromiseCompleted (run w1))) as Ht.
    pose proof (event_frame g (completion_listener (uuid w)) site
                  (_onPromiseCompleted (run w1))) as Hfr.
    assert (Hfst : fst (let '(em, _) :=
                          event g (completion_listener (uuid w)) site
                            (_onPromiseCompleted (run w1)) in
                        (set_emitter em (run w1), uuid w))
                   = set_emitter
                       (fst (event g (completion_listener (uuid w)) site
                               (_onPromiseCompleted (run w1)))) (run w1))
      by (destruct (event _ _ _ _); reflexivity).
    rewrite Hfst. clear Hfst.
    set (em' := fst (event g (completion_listener (uuid w)) site
                       (_onPromiseCompleted (run w1)))) in *.
    cbv zeta in Hf. destruct Hf as ((stk & Hl) & Hq & _).
    destruct Ht as (os & Ht & Hqu). destruct Hfr as [Hd _].
    rewrite Hem in Hl, Hq, Ht, Hd.
    destruct Ho as [Ho Hqe].
    conjuncts.
    + split.
      * cbn [_onPromiseCompleted set_emitter]. unfold listeners_of at 1.
        rewrite Hl. unfold LinkedList.toList. apply Forall_app.
        split; [exact Ho|].
        constructor; [|constructor]. exists (uuid w). simpl. auto.
      * cbn [_onPromiseCompleted set_emitter]. unfold queue_of in *.
        now rewrite Hq.
    + cbn [uuid set_emitter]. lia.
    + exact Hd.
    + exists (Queued (uuid w) :: evs). split.
      * rewrite history_set_emitter, Ht, effects_app, (effects_quiet Hqu).
        cbn [trace log]. rewrite effects_app, effects_effects, app_nil_r.
        reflexivity.
      * intros j v [H|H]; [discriminate|]. now apply Hnr in H.
    + exists (_onPromiseCompleted (run w1)), (completion_listener (uuid w)).
      split; [rewrite Hem; apply alike_log|reflexivity].
  - simpl. unfold settle.
    destruct (promise_state p (promises w)) as [[| |]|]; try discriminate.
    destruct (existsb _ _); intros [= <-]; simpl; conjuncts; auto;
      try apply Ho; try apply alike_refl;
      exists []; rewrite app_nil_r; (split; [reflexivity|intros j v []]).
  - simpl. destruct (jobs w) as [|[next r] rest]; [discriminate|].
    unfold resume. destruct r as [v|e].
    + match goal with
      | |- context [fire _ ?e ?em] =>
          destruct (@fire_listeners P em e)
            as (em2 & resolves & Hfire & Heff & Hres & Ho2 & Hd2 & Hal2);
          [apply Ho|]
      end.
      rewrite Hfire. intros [= <-].
      match goal with
      | |- context [run ?x] =>
          destruct (run_effects x) as (evs & Hem & Hu & Hnr)
      end.
      cbn [_onPromiseCompleted set_emitter] in Hem. rewrite Hem, Hu.
      conjuncts.
      * exact Ho2.
      * simpl. lia.
      * exact Hd2.
      * exists (Announced next v :: resolves ++ evs). split.
        { rewrite history_effects, Hem. cbn [trace log].
          rewrite effects_app, effects_effects, Heff.
          cbn [trace log _onPromiseCompleted note set_emitter map].
          rewrite effects_app. simpl. rewrite <- !app_assoc. reflexivity. }
        { intros j v' [H|H]; [discriminate|]. apply in_app_or in H.
          destruct H as [H|H]; [|now apply Hnr in H].
          destruct (Hres _ H) as [[= -> _] HP']. exact HP'. }
      * eapply alike_trans; [apply alike_log|].
        eapply alike_trans; [exact Hal2|].
        apply (alike_log [Announced next v]).
    + intros [= <-]. conjuncts; try apply Ho; auto.
      * exists [AwaitThrew next e]. split.
        { change (set_jobs rest w) with (set_jobs rest w).
          rewrite history_note. reflexivity. }
        { intros j v [H|[]]. discriminate. }
      * apply (alike_log [AwaitThrew next e]).
Qed.

Lemma history_logged w w' evs :
  _onPromiseCompleted w' = log (map OEffect evs) (_onPromiseCompleted w) ->
  history w' = history w ++ evs.
Proof.
  intros H. rewrite !history_effects, H. simpl.
  now rewrite effects_app, effects_effects.
Qed.

(** The three ways [run] goes. *)
Lemma run_cases w :
  (run w = w
   /\ (queuedPromiseFactory w = [] \/ activePromise w <> None))
  \/ exists next task rest,
      queuedPromiseFactory w = (next, task) :: rest
      /\ activePromise w = None
      /\ queuedPromiseFactory (run w) = rest
      /\ ((activePromise (run w) = Some next
           /\ history (run w) = history w ++ [Invoked next])
          \/ exists e,
              activePromise (run w) = None
              /\ history (run w) = history w ++ [Invoked next; Threw next e]).
Proof.
  unfold run.
  destruct (queuedPromiseFactory w) as [|[next task] rest] eqn:Eq;
    [left; auto|].
  destruct (activePromise w) as [a|] eqn:Ea;
    [left; split; [reflexivity|right; discriminate]|].
  right. exists next, task, rest.
  split; [reflexivity|]. split; [reflexivity|].
  destruct (result_of task) as [|v|e|e]; (split; [reflexivity|]);
    [left|left|left|right; exists e];
    (split; [try reflexivity|]);
    try (apply history_logged; simpl; rewrite ?log_log; reflexivity).
  exact Ea.
Qed.

(** The history after [queue]. *)
Lemma queue_history g f site w :
  let w1 :=
    set_queued (queuedPromiseFactory w ++ [(uuid w, f)])
      (note [Queued (uuid w)] (set_uuid (S (uuid w)) w)) in
  history (fst (queue g f site w)) = history (run w1)
  /\ activePromise (fst (queue g f site w)) = activePromise (run w1)
  /\ queuedPromiseFactory (fst (queue g f site w))
     = queuedPromiseFactory (run w1).
Proof.
  cbv zeta. unfold queue, generateUuid.
  set (w1 := set_queued _ _).
  destruct (event_trace g (completion_listener (uuid w)) site
              (_onPromiseCompleted (run w1))) as (os & Ht & Hqu).
  destruct (event g (completion_listener (uuid w)) site
              (_onPromiseCompleted (run w1))) as [em' hd].
  simpl in Ht. simpl. rewrite history_set_emitter, Ht.
  rewrite effects_app, (effects_quiet Hqu), app_nil_r. auto.
Qed.

Lemma exec_alike g cb ls : forall w w' em,
  owned (fun _ => True) (_onPromiseCompleted w) ->
  alike (_onPromiseCompleted w) em ->
  exec g ls w = Some w' ->
  alike (_onPromiseCompleted w')
    (subscribe_all g (map (fun site => (cb, site)) (queue_sites ls)) em).
Proof.
  induction ls as [|l ls IH]; intros w w' em Ho Hal; simpl.
  - now intros [= <-].
  - destruct (step g l w) as [w1|] eqn:Es; [|discriminate]. intros He.
    destruct (@serial_step_owned (fun _ => True) g l w w1 Ho (fun _ _ => I) Es)
      as (Ho1 & _ & _ & _ & Hl).
    destruct l as [f site|p r|]; simpl.
    + destruct Hl as (em0 & cb0 & Hal0 & Heq).
      unfold subscribe_all. simpl.
      apply (IH w1 w' (fst (event g cb site em)) Ho1); [|exact He].
      rewrite Heq. apply event_alike. eapply alike_trans; eauto.
    + apply (IH w1 w' em Ho1); [|exact He]. eapply alike_trans; eauto.
    + apply (IH w1 w' em Ho1); [|exact He]. eapply alike_trans; eauto.
Qed.

End ThrottlerMoreFacts.

(** X16. [dispose()] of a throttler abandons the callers that are
    waiting: whatever happens afterwards, the promise [queue] returned
    for a task queued before the disposal is never resolved (the tasks
    themselves still run and complete), and the microtasks go on
    running. *)
Theorem disposed_throttler_abandons_its_callers :
  forall g w ls w',
    Throttler.reachable g w ->
    Throttler.exec g ls (ThrottlerMore.dispose_throttler w) = Some w' ->
    (forall j,
        j < Throttler.uuid w ->
        Throttler.future j (Throttler.history w')
        = Throttler.future j (Throttler.history w))
    /\ (Throttler.jobs w' <> [] ->
        exists w'', Throttler.step g Throttler.Tick w' = Some w'').
Proof.
  intros g w ls w' Hr He.
  destruct (ThrottlerRunFacts.reachable_owned Hr) as [Ho Hd].
  destruct (@dispose_emitter_fields _ _ (Throttler._onPromiseCompleted w) Hd)
    as (Hl0 & Hq0 & _ & _ & Ht0).
  assert (Ho0 : forall P,
             ThrottlerRunFacts.owned P
               (Throttler._onPromiseCompleted
                  (ThrottlerMore.dispose_throttler w))).
  { intros P. split; simpl; [rewrite Hl0; constructor|exact Hq0]. }
  pose proof (@ThrottlerRunFacts.exec_frame g ls
                (ThrottlerMore.dispose_throttler w) w' (Ho0 _) He) as Hf.
  assert (Hh0 : Throttler.history (ThrottlerMore.dispose_throttler w)
                = Throttler.history w).
  { unfold ThrottlerMore.dispose_throttler.
    rewrite ThrottlerFacts.history_set_emitter, Ht0.
    rewrite ThrottlerFacts.effects_app,
      (ThrottlerFacts.effects_quiet (hook_quiet _ _ _ _)), app_nil_r.
    reflexivity. }
  split.
  - destruct (ThrottlerRunFacts.f_history Hf) as (more & Hh & _ & Hm).
    destruct (Hm (fun i => Throttler.uuid w <= i) (Ho0 _) (fun i Hi => Hi))
      as [_ Hres].
    intros j Hj.
    rewrite (ThrottlerFacts.history_effects w'), Hh.
    rewrite <- ThrottlerFacts.history_effects, Hh0.
    apply ThrottlerRunFacts.future_app_none.
    intros v Hin. apply Hres in Hin. lia.
  - intros Hj.
    exact (@ThrottlerRunFacts.tick_progress_owned g w'
             (ThrottlerRunFacts.frame_owned Hf (Ho0 _)) Hj).
Qed.

Lemma disposed_throttler_abandons_its_callers_witness :
  In (Throttler.Announced 0 "a"%string)
    (Throttler.history MoreExamples.abandoned)
  /\ Throttler.future 0 (Throttler.history MoreExamples.abandoned) = None
  /\ Throttler.future 1 (Throttler.history MoreExamples.abandoned)
     = Some "b"%string.
Proof.
  destruct (@disposed_throttler_abandons_its_callers 0%Z
              (MoreExamples.after_g 0 MoreExamples.one_running)
              MoreExamples.then_completes MoreExamples.abandoned)
    as [H _].
  - exists MoreExamples.one_running. vm_compute. reflexivity.
  - vm_compute. reflexivity.
  - split; [vm_compute; auto 10|]. split; [|vm_compute; reflexivity].
    rewrite (H 0); [vm_compute; reflexivity|vm_compute; lia].
Defined.

(** X17. The completion emitter of a throttler logs exactly the leak
    warnings of an emitter on which one subscription per [queue] call
    was made and none was disposed: every [queue] leaves one more
    listener, completed tasks included.  The subscriptions are made from
    the call sites of the [queue] calls, in the order of the calls when
    no task factory calls [queue] itself. *)
Theorem throttler_warns_like_plain_subscriptions :
  forall g ls w (cb : Callback Throttler.Completion Throttler.Ev),
    Throttler.exec g ls (Throttler.init g) = Some w ->
    let plain sites :=
      subscribe_all g (map (fun site => (cb, site)) sites)
        (newEmitter Throttler.Completion Throttler.Ev g None) in
    (exists sites,
        List.length sites = Throttler.uuid w
        /\ warnings (trace (Throttler._onPromiseCompleted w))
           = warnings (trace (plain sites))
        /\ List.length (listeners_of (Throttler._onPromiseCompleted w))
           = List.length sites)
    /\ (forallb Throttler.plain_label ls = true ->
        warnings (trace (Throttler._onPromiseCompleted w))
        = warnings (trace (plain (ThrottlerMore.queue_sites ls)))
        /\ List.length (listeners_of (Throttler._onPromiseCompleted w))
           = List.length (ThrottlerMore.queue_sites ls)).
Proof.
  intros g ls w cb He plain.
  assert (Hlen : forall sites,
             List.length (listeners_of (plain sites)) = List.length sites).
  { intros sites. unfold plain.
    destruct (subscribe_all_fields g
                (map (fun site => (cb, site)) sites)
                (newEmitter Throttler.Completion Throttler.Ev g None))
      as (new & os & Hls & Hid & _).
    simpl in Hls. rewrite Hls.
    apply (f_equal (@List.length nat)) in Hid.
    now rewrite !length_map, length_seq in Hid. }
  split.
  - assert (Hr : Throttler.reachable g w) by (exists ls; exact He).
    destruct (ThrottlerRunFacts.f_alike (ThrottlerRunFacts.reachable_frame Hr))
      as (sites & Hn & Hal).
    exists sites.
    destruct (Hal cb (newEmitter Throttler.Completion Throttler.Ev g None)
                (ThrottlerRunFacts.alike_refl _)) as (_ & Hl & Hw).
    fold (plain sites) in Hl, Hw.
    split; [simpl in Hn; lia|]. split; [exact Hw|].
    now rewrite Hl, Hlen.
  - intros Hp.
    destruct (@ThrottlerRunFacts.serial_exec g ls (Throttler.init g)
                (ThrottlerRunFacts.init_plain g) Hp) as [Es _].
    rewrite Es in He.
    destruct (@ThrottlerMoreFacts.exec_alike g cb ls (Throttler.init g) w
                (newEmitter Throttler.Completion Throttler.Ev g None)
                (ThrottlerRunFacts.init_owned g _)
                (ThrottlerRunFacts.alike_refl _) He)
      as (_ & Hl & Hw).
    fold (plain (ThrottlerMore.queue_sites ls)) in Hl, Hw.
    split; [exact Hw|]. now rewrite Hl, Hlen.
Qed.

Lemma throttler_warns_like_plain_subscriptions_witness :
  map warn_listenerCount
    (warnings
       (trace
          (Throttler._onPromiseCompleted
             (MoreExamples.after_g 2 MoreExamples.many_queued))))
  = [31%Z].
Proof.
  destruct (@throttler_warns_like_plain_subscriptions 2%Z
              MoreExamples.many_queued
              (MoreExamples.after_g 2 MoreExamples.many_queued)
              (Throttler.completion_listener 0))
    as [_ H].
  - vm_compute. reflexivity.
  - destruct H as [H _]; [vm_compute; reflexivity|].
    rewrite H. vm_compute. reflexivity.
Defined.

(** X18. As long as no task factory calls [queue] itself: while no task
    is active, nothing happens to a throttler until [queue] is called:
    there is no microtask to run and no promise to settle.  The next
    [queue] then starts the task at the head of the queue, which is a
    task left waiting (behind a factory that threw) if there is one and
    the new task otherwise. *)
Theorem idle_throttler_waits_for_queue :
  forall g ls w,
    Throttler.exec g ls (Throttler.init g) = Some w ->
    forallb Throttler.plain_label ls = true ->
    Throttler.activePromise w = None ->
    Throttler.step g Throttler.Tick w = None
    /\ (forall p r, Throttler.step g (Throttler.Settle p r) w = None)
    /\ (forall f site,
          Throttler.plain f = true ->
          exists w',
            Throttler.step g (Throttler.Queue f site) w = Some w'
            /\ Throttler.invoked_ids (Throttler.history w')
               = Throttler.invoked_ids (Throttler.history w)
                   ++ [hd (Throttler.uuid w)
                         (map fst (Throttler.queuedPromiseFactory w))]).
Proof.
  intros g ls w He Hp Ha.
  destruct (@ThrottlerRunFacts.serial_exec g ls (Throttler.init g)
              (ThrottlerRunFacts.init_plain g) Hp) as [Es Hpq].
  specialize (Hpq w He). rewrite Es in He.
  assert (Hr : Serial.reachable g w) by (exists ls; exact He).
  destruct (ThrottlerFacts.reachable_inv Hr) as (Hc & _).
  unfold ThrottlerFacts.InvCore in Hc.
  pose proof (ThrottlerFacts.ic_active Hc) as Hact. rewrite Ha in Hact.
  destruct Hact as [Hs Hj].
  split; [simpl; now rewrite Hj|]. split.
  - intros p r. simpl. unfold Throttler.settle.
    destruct (Throttler.promise_state p (Throttler.promises w))
      as [[| |]|] eqn:E; auto.
    destruct (ThrottlerFacts.ic_promise Hc _ E) as (_ & [H|(v & H & _)]);
      [congruence|discriminate].
  - intros f site Hf.
    destruct (@ThrottlerRunFacts.serial_step g (Throttler.Queue f site) w
                Hpq Hf) as [Eq _].
    rewrite Eq. simpl. eexists. split; [reflexivity|].
    destruct (ThrottlerMoreFacts.queue_history g f site w) as (Hh & _).
    cbv zeta in Hh. rewrite Hh.
    match goal with
    | |- context [Serial.run ?x] =>
        assert (Hx : Throttler.history x
                     = Throttler.history w
                         ++ [Throttler.Queued (Throttler.uuid w)])
          by (apply ThrottlerMoreFacts.history_logged; reflexivity);
        destruct (ThrottlerMoreFacts.run_cases x) as [[_ [H|H]]|H]
    end.
    + simpl in H. now destruct (Throttler.queuedPromiseFactory w).
    + simpl in H. congruence.
    + destruct H as (n & t & r & Hq & _ & _ & H). simpl in Hq.
      assert (Hn : hd (Throttler.uuid w)
                     (map fst (Throttler.queuedPromiseFactory w)) = n).
      { destruct (Throttler.queuedPromiseFactory w) as [|[n' t'] r'];
          simpl in *; congruence. }
      rewrite Hn.
      destruct H as [[_ H]|(e & _ & H)]; rewrite H, Hx;
        rewrite !ThrottlerFacts.invoked_ids_app; simpl;
        now rewrite app_nil_r.
Qed.

Lemma idle_throttler_waits_for_queue_witness :
  map fst
    (Throttler.queuedPromiseFactory
       (MoreExamples.after_g 0 MoreExamples.stalled)) = [2]
  /\ Throttler.step 0 Throttler.Tick
       (MoreExamples.after_g 0 MoreExamples.stalled) = None
  /\ exists w',
       Throttler.step 0
         (Throttler.Queue (Throttler.FValue "d"%string) "site 4"%string)
         (MoreExamples.after_g 0 MoreExamples.stalled) = Some w'
       /\ Throttler.invoked_ids (Throttler.history w') = [0; 1; 2].
Proof.
  destruct (@idle_throttler_waits_for_queue 0%Z MoreExamples.stalled
              (MoreExamples.after_g 0 MoreExamples.stalled))
    as (H1 & _ & H3).
  - vm_compute. reflexivity.
  - vm_compute. reflexivity.
  - vm_compute. reflexivity.
  - split; [vm_compute; reflexivity|]. split; [exact H1|].
    destruct (H3 (Throttler.FValue "d"%string) "site 4"%string eq_refl)
      as (w' & Hs & Hi).
    exists w'. split; [exact Hs|]. rewrite Hi. vm_compute. reflexivity.
Defined.

(** X19. A task never waits while nothing runs, unless a factory has
    thrown: in every state reached without a factory throwing, a
    throttler without an active task has an empty queue. *)
Theorem queued_tasks_wait_only_behind_an_active_one :
  forall g w,
    Throttler.reachable g w ->
    (forall i e, ~ In (Throttler.Threw i e) (Throttler.history w)) ->
    Throttler.activePromise w = None ->
    Throttler.queuedPromiseFactory w = [].
Proof.
  intros g w Hr Hn Ha.
  destruct (ThrottlerRunFacts.reachable_served Hr Ha) as [H|(i & e & H)];
    [exact H|].
  now apply Hn in H.
Qed.

Lemma queued_tasks_wait_only_behind_an_active_one_witness :
  Throttler.queuedPromiseFactory (Examples.after Examples.two_tasks) = [].
Proof.
  apply (@queued_tasks_wait_only_behind_an_active_one 0%Z).
  - exists Examples.two_tasks. vm_compute. reflexivity.
  - intros i e H. vm_compute in H. intuition discriminate.
  - vm_compute. reflexivity.
Defined.



(** ** [hasListeners] *)

Section HasListeners.

Variables T X : Type.

Lemma existsb_filter (A : Type) (f : A -> bool) l :
  negb (LinkedList.isEmpty (filter f l)) = existsb f l.
Proof.
  induction l as [|a l IH]; [reflexivity|].
  simpl. destruct (f a); simpl; auto.
Qed.

Lemma existsb_lid (p : nat -> bool) (ls : list (Listener T X)) :
  existsb (fun l => p (lid l)) ls = existsb p (map (@lid T X) ls).
Proof. induction ls as [|l ls IH]; simpl; congruence. Qed.

(** X20. After subscriptions on a new emitter and the disposal of any
    handles, [hasListeners()] tells whether some subscription is left
    whose handle was not disposed. *)
Theorem hasListeners_tells_undisposed_subscriptions :
  forall g options (subs : list (Callback T X * string)) hs,
    hasListeners
      (dispose_all hs (subscribe_all g subs (newEmitter T X g options)))
    = existsb (fun i => negb (existsb (Nat.eqb i) hs))
        (seq 0 (List.length subs)).
Proof.
  intros g options subs hs.
  set (em0 := subscribe_all g subs (newEmitter T X g options)).
  destruct (subscribe_all_fields g subs (newEmitter T X g options))
    as (new & os & Hls & Hid & _ & _ & _ & _ & Hsome).
  fold em0 in Hls, Hsome. simpl in Hls, Hid.
  destruct (@dispose_all_live T X hs em0) as (_ & Hl & _ & _ & Hn & _).
  { apply (subscribe_all_live g subs (newEmitter_live T X g options)). }
  destruct subs as [|s subs].
  - assert (E : dispose_all hs em0 = em0).
    { apply dispose_all_no_cells. reflexivity. }
    rewrite E. reflexivity.
  - assert (Hne : _listeners em0 <> None) by (apply Hsome; discriminate).
    specialize (Hn Hne). apply listeners_of_some in Hn.
    unfold hasListeners. rewrite Hn, Hl, Hls.
    unfold outside. rewrite existsb_filter.
    rewrite (existsb_lid (fun i => negb (existsb (Nat.eqb i) hs))).
    now rewrite Hid.
Qed.

End HasListeners.
